(** * A shallow embedding of the NAND/register circuit simulator

    The development follows [everything.cpp]: primitive gates owned by a
    [GateKeeper], prototypes that are instantiated into circuits and then
    linked, and the two-phase [tick] of the keeper.

    Conventions of the embedding.
    - An [IGate*] is an index into the keeper's vector ([ptr i]) or [nullptr].
      The keeper only ever appends, so an index identifies one gate for the
      keeper's whole life, as the address does in the source.
    - [assert] is compiled in (no [NDEBUG]); a failed assertion ends the
      program with [AssertionFailed].  Dereferencing a null or dangling
      pointer and indexing a vector out of range with [operator[]] are
      undefined behaviour in the source and end the program with
      [UndefinedBehaviour] here.  [std::array::at] out of range throws and,
      uncaught, ends the program with [OutOfRange].
    - [getValue] recurses through the fan-in graph, which may be cyclic, so
      it takes fuel; fuel is spent only by the recursive calls of a NAND.
    - Container sizes and loop counters are [nat] (no vector of the program
      comes near [INT_MAX] elements); the [int] tick counter of a probe is a
      [Z] wrapped to 32 bits.
    - The constructor [Gate()] has an empty initialiser list, so nothing in
      the source assigns an input slot before [link] does.  The embedding has
      to write something there and writes [nullptr]; reading through such a
      slot is undefined behaviour in the source whatever it holds, and ends
      with [UndefinedBehaviour] here.  No theorem below states what a slot
      holds before [link] has stored in it; a keeper written out in an
      example shows the placeholder. *)

From Stdlib Require Import ZArith Lia.
From stdpp Require Import base option list strings gmap.

Local Open Scope string_scope.
Local Open Scope list_scope.

Set Warnings "-register-all".

(** ** Outcomes *)

Inductive Error : Set :=
| AssertionFailed
| OutOfRange
| UndefinedBehaviour
| OutOfFuel.

Inductive Result (A : Type) : Type :=
| Ok (a : A)
| Err (e : Error).
Arguments Ok {A} a.
Arguments Err {A} e.

Definition bindR {A B} (r : Result A) (f : A -> Result B) : Result B :=
  match r with
  | Ok a => f a
  | Err e => Err e
  end.

Notation "x <- r ;; k" := (bindR r (fun x => k))
  (at level 100, r at next level, right associativity).

(** [for (int i = from; i < from + todo; i++) s = body(i, s)], leaving at the
    first failure. *)
Fixpoint for_loop {St : Type} (todo from : nat)
    (body : nat -> St -> Result St) (s : St) : Result St :=
  match todo with
  | O => Ok s
  | S todo' => s' <- body from s ;; for_loop todo' (S from) body s'
  end.

(** ** Gates *)

Inductive IGatePtr : Set :=
| nullptr
| ptr (i : nat).

(** The concrete gate classes with their fields; the [inputs] array of
    [Gate<N>] is spelled out slot by slot.  A slot that nothing has been
    stored in yet is written [nullptr] (see the conventions above). *)
Inductive IGate : Type :=
| LowOutput
| Register (input0 : IGatePtr) (value nextValue : bool)
| Nand (input0 input1 : IGatePtr)
| TickOutputOnly (input0 : IGatePtr) (t : Z) (name : string)
| Input (input0 input1 : IGatePtr) (val : bool) (name : string).

Definition getType (g : IGate) : string :=
  match g with
  | LowOutput => "low"
  | Register _ _ _ => "register"
  | Nand _ _ => "nand"
  | TickOutputOnly _ _ _ => "tick - outputonly"
  | Input _ _ _ _ => "user-input"
  end.

Definition getNumInputs (g : IGate) : nat :=
  match g with
  | LowOutput => 0
  | Register _ _ _ => 1
  | Nand _ _ => 2
  | TickOutputOnly _ _ _ => 1
  | Input _ _ _ _ => 2
  end.

(** [inputs.at(i)], read. *)
Definition getInput (g : IGate) (i : nat) : Result IGatePtr :=
  match g, i with
  | Register a _ _, 0 => Ok a
  | Nand a _, 0 => Ok a
  | Nand _ b, 1 => Ok b
  | TickOutputOnly a _ _, 0 => Ok a
  | Input a _ _ _, 0 => Ok a
  | Input _ b _ _, 1 => Ok b
  | _, _ => Err OutOfRange
  end.

(** [inputs.at(i) = p], the use made of the [IGate*&] overload. *)
Definition setInput (g : IGate) (i : nat) (p : IGatePtr) : Result IGate :=
  match g, i with
  | Register _ v nv, 0 => Ok (Register p v nv)
  | Nand _ b, 0 => Ok (Nand p b)
  | Nand a _, 1 => Ok (Nand a p)
  | TickOutputOnly _ t n, 0 => Ok (TickOutputOnly p t n)
  | Input _ b v n, 0 => Ok (Input p b v n)
  | Input a _ v n, 1 => Ok (Input a p v n)
  | _, _ => Err OutOfRange
  end.

(** [Input::setValue]. *)
Definition setValue (g : IGate) (newVal : bool) : IGate :=
  match g with
  | Input a b _ n => Input a b newVal n
  | _ => g
  end.

(** ** Diagnostic names *)

Record LongNameBuilder : Set := { getName : string }.

Definition addChildId (b : LongNameBuilder) (v : string) : LongNameBuilder :=
  {| getName := getName b +:+ "{" +:+ v +:+ "}: " |}.

Definition addType (b : LongNameBuilder) (v : string) : LongNameBuilder :=
  {| getName := getName b +:+ "[" +:+ v +:+ "] " |}.

Definition emptyName : LongNameBuilder := {| getName := "" |}.

(** ** The keeper *)

(** [GateKeeper] is its only field, the vector [gates]. *)
Abbreviation GateKeeper := (list (string * IGate)).

Definition addGate (name : LongNameBuilder) (gate : IGate)
    (heimdall : GateKeeper) : GateKeeper :=
  heimdall ++ [(getName name, gate)].

Definition print (heimdall : GateKeeper) : list string := heimdall.*1.

Definition deref (heimdall : GateKeeper) (p : IGatePtr) : Result IGate :=
  match p with
  | nullptr => Err UndefinedBehaviour
  | ptr i =>
      match heimdall !! i with
      | Some (_, g) => Ok g
      | None => Err UndefinedBehaviour
      end
  end.

(** [p->getValue()].  The second operand of [&&] in [Nand::getValue] is only
    evaluated when the first is true. *)
Fixpoint getValue (fuel : nat) (heimdall : GateKeeper) (p : IGatePtr)
    : Result bool :=
  g <- deref heimdall p ;;
  match g with
  | LowOutput => Ok false
  | Register _ value _ => Ok value
  | Nand a b =>
      match fuel with
      | O => Err OutOfFuel
      | S fuel' =>
          va <- getValue fuel' heimdall a ;;
          if va
          then vb <- getValue fuel' heimdall b ;; Ok (negb vb)
          else Ok true
      end
  | TickOutputOnly _ _ _ => Err AssertionFailed
  | Input _ _ val _ => Ok val
  end.

(** [name.c_str()] as [operator<<] prints it: the characters before the
    first NUL. *)
Fixpoint c_str (s : string) : string :=
  match s with
  | EmptyString => EmptyString
  | String a s' =>
      if Ascii.eqb a Ascii.zero then EmptyString else String a (c_str s')
  end.

(** One line written to [std::cout] by a probe: the text printed for its
    label, the incremented counter and the level ([true] for ['H']). *)
Record Line : Set := { probe : string; tickno : Z; level : bool }.

Definition wrap_int (z : Z) : Z := (z + 2 ^ 31) mod 2 ^ 32 - 2 ^ 31.

(** [g.tick1()] for the gate [g], evaluated against the keeper as it is when
    the call is made; yields the gate afterwards and what it printed. *)
Definition tick1 (fuel : nat) (heimdall : GateKeeper) (g : IGate)
    : Result (IGate * list Line) :=
  match g with
  | Register a value _ =>
      v <- getValue fuel heimdall a ;; Ok (Register a value v, [])
  | TickOutputOnly a t name =>
      let t' := wrap_int (t + 1) in
      v <- getValue fuel heimdall a ;;
      Ok (TickOutputOnly a t' name,
          [{| probe := c_str name; tickno := t'; level := v |}])
  | _ => Ok (g, [])
  end.

Definition tick2 (g : IGate) : IGate :=
  match g with
  | Register a _ nextValue => Register a nextValue nextValue
  | _ => g
  end.

(** The first loop of [GateKeeper::tick]: gate [i] is ticked in place. *)
Definition tick1_at (fuel : nat) (i : nat) (s : GateKeeper * list Line)
    : Result (GateKeeper * list Line) :=
  match s.1 !! i with
  | None => Err UndefinedBehaviour
  | Some (name, g) =>
      r <- tick1 fuel s.1 g ;;
      Ok (<[i := (name, r.1)]> s.1, s.2 ++ r.2)
  end.

(** The first loop alone: the keeper between the two phases, and the lines
    printed. *)
Definition phase1 (fuel : nat) (heimdall : GateKeeper)
    : Result (GateKeeper * list Line) :=
  for_loop (length heimdall) 0 (tick1_at fuel) (heimdall, []).

(** [GateKeeper::tick]: [tick1] on every gate, then [tick2] on every gate. *)
Definition tick (fuel : nat) (heimdall : GateKeeper)
    : Result (GateKeeper * list Line) :=
  s <- phase1 fuel heimdall ;;
  Ok (prod_map id tick2 <$> s.1, s.2).

(** ** Prototypes *)

(** The gate classes [T] at which [GatePrototype<T>] is instantiated: the
    ones with a default constructor and an aliased prototype. *)
Inductive GateClass : Set :=
| TLowOutput
| TRegister
| TNand.

(** [std::make_unique<T>()]: the members with an initialiser get it
    ([value] and [nextValue] of a register are [false]); the input slots are
    not assigned. *)
Definition make (T : GateClass) : IGate :=
  match T with
  | TLowOutput => LowOutput
  | TRegister => Register nullptr false false
  | TNand => Nand nullptr nullptr
  end.

Inductive PrototypeState : Set :=
| Init
| Finalized.

#[global] Instance PrototypeState_eq_dec : EqDecision PrototypeState.
Proof. solve_decision. Defined.

(** A [const IPrototype*] held by a placement points to a prototype that can
    no longer change (a composite child must be [Finalized] when it is added,
    and nothing is added to a finalized composite), so the placement holds
    the child by value. *)
Inductive IPrototype : Type :=
| GatePrototype (T : GateClass)
| OutputPrototype (name : string)
| Composite (self : CompositePrototype)
with CompositePrototype : Type :=
| Build_CompositePrototype
    (commands : list ChildData)
    (state : PrototypeState)
    (outer_input_ids outer_output_ids : list string)
    (num_nodes : Z)
    (type_name : string)
with ChildData : Type :=
| Build_ChildData
    (proto : IPrototype)
    (inputs outputs : list string)
    (child_id : string).

Definition commands (p : CompositePrototype) : list ChildData :=
  match p with Build_CompositePrototype c _ _ _ _ _ => c end.
Definition state (p : CompositePrototype) : PrototypeState :=
  match p with Build_CompositePrototype _ s _ _ _ _ => s end.
Definition outer_input_ids (p : CompositePrototype) : list string :=
  match p with Build_CompositePrototype _ _ i _ _ _ => i end.
Definition outer_output_ids (p : CompositePrototype) : list string :=
  match p with Build_CompositePrototype _ _ _ o _ _ => o end.
Definition num_nodes (p : CompositePrototype) : Z :=
  match p with Build_CompositePrototype _ _ _ _ n _ => n end.
Definition type_name (p : CompositePrototype) : string :=
  match p with Build_CompositePrototype _ _ _ _ _ t => t end.

Definition proto (d : ChildData) : IPrototype :=
  match d with Build_ChildData x _ _ _ => x end.
Definition inputs (d : ChildData) : list string :=
  match d with Build_ChildData _ i _ _ => i end.
Definition outputs (d : ChildData) : list string :=
  match d with Build_ChildData _ _ o _ => o end.
Definition child_id (d : ChildData) : string :=
  match d with Build_ChildData _ _ _ c => c end.

(** The [numInputs] and [numOutputs] handed to the [IPrototype] constructor
    by each subclass. *)
Definition IPrototype_getNumInputs (p : IPrototype) : nat :=
  match p with
  | GatePrototype T => getNumInputs (make T)
  | OutputPrototype _ => 1
  | Composite c => length (outer_input_ids c)
  end.

Definition IPrototype_getNumOutputs (p : IPrototype) : nat :=
  match p with
  | GatePrototype _ => 1
  | OutputPrototype _ => 0
  | Composite c => length (outer_output_ids c)
  end.

Definition CompositePrototype_new (name : string)
    (outer_input_ids outer_output_ids : list string) : CompositePrototype :=
  Build_CompositePrototype [] Init outer_input_ids outer_output_ids
    (Z.of_nat (length outer_input_ids)) name.

Definition assert (b : bool) : Result unit :=
  if b then Ok tt else Err AssertionFailed.

Definition is_finalized (p : IPrototype) : bool :=
  match p with
  | Composite c => match state c with Finalized => true | Init => false end
  | _ => true
  end.

Definition addPrototype (self : CompositePrototype) (cmd : IPrototype)
    (input_ids output_ids : list string) (childName : string)
    : Result CompositePrototype :=
  _ <- assert (is_finalized cmd) ;;
  _ <- assert (bool_decide (IPrototype_getNumInputs cmd = length input_ids)) ;;
  _ <- assert (bool_decide (IPrototype_getNumOutputs cmd = length output_ids)) ;;
  _ <- assert (bool_decide (state self = Init)) ;;
  Ok (Build_CompositePrototype
        (commands self ++ [Build_ChildData cmd input_ids output_ids childName])
        (state self) (outer_input_ids self) (outer_output_ids self)
        (wrap_int (num_nodes self + Z.of_nat (length output_ids)))
        (type_name self)).

Definition finalize (self : CompositePrototype) : Result CompositePrototype :=
  _ <- assert (bool_decide (state self = Init)) ;;
  Ok (Build_CompositePrototype (commands self) Finalized
        (outer_input_ids self) (outer_output_ids self) (num_nodes self)
        (type_name self)).

(** ** Circuits *)

Inductive CircuitState : Set :=
| Circuit_Init
| Linked.

#[global] Instance CircuitState_eq_dec : EqDecision CircuitState.
Proof. solve_decision. Defined.

(** [GateCircuit<T>] holds the pointer to its gate; the nested class
    [CompositePrototype::Circuit] holds its state, the symbol table
    [everything], the child circuits it owns and its prototype. *)
Inductive ICircuit : Type :=
| GateCircuit (c : IGatePtr)
| Circuit (state : CircuitState) (everything : gmap string IGatePtr)
    (circuits : list ICircuit) (parent : CompositePrototype).

(** [std::unordered_map::insert]: an existing binding is kept. *)
Definition umap_insert (k : string) (v : IGatePtr)
    (m : gmap string IGatePtr) : gmap string IGatePtr :=
  match m !! k with
  | Some _ => m
  | None => <[k := v]> m
  end.

(** [std::unordered_map::operator[]]: a missing key is bound to a
    value-initialised pointer, which is then returned. *)
Definition umap_index (k : string) (m : gmap string IGatePtr)
    : IGatePtr * gmap string IGatePtr :=
  match m !! k with
  | Some v => (v, m)
  | None => (nullptr, <[k := nullptr]> m)
  end.

Definition getOutput (c : ICircuit) (i : Z) : Result IGatePtr :=
  match c with
  | GateCircuit c =>
      _ <- assert (bool_decide (i = 0%Z)) ;; Ok c
  | Circuit _ everything _ parent =>
      _ <- assert (bool_decide
             (0 <= i < Z.of_nat (IPrototype_getNumOutputs (Composite parent)))%Z) ;;
      match outer_output_ids parent !! Z.to_nat i with
      | None => Err UndefinedBehaviour
      | Some o =>
          _ <- assert (bool_decide (is_Some (everything !! o))) ;;
          Ok (umap_index o everything).1
      end
  end.

(** The constructor of [GateCircuit<T>], given the freshly made gate. *)
Definition GateCircuit_new (gate : IGate) (builder : LongNameBuilder)
    (heimdall : GateKeeper) : ICircuit * GateKeeper :=
  let c := ptr (length heimdall) in
  let builder2 := addType builder (getType gate) in
  (GateCircuit c, addGate builder2 gate heimdall).

(** Body of the inner loop of the [Circuit] constructor. *)
Definition register_output (outputs : list string) (circuit : ICircuit)
    (i : nat) (everything : gmap string IGatePtr)
    : Result (gmap string IGatePtr) :=
  match outputs !! i with
  | None => Err UndefinedBehaviour
  | Some o =>
      _ <- assert (bool_decide (everything !! o = None)) ;;
      g <- getOutput circuit (Z.of_nat i) ;;
      Ok (umap_insert o g everything)
  end.

Section Circuit_constructor.
Variable instantiate :
  IPrototype -> LongNameBuilder -> GateKeeper -> Result (ICircuit * GateKeeper).
Variable builder : LongNameBuilder.
Variable parent : CompositePrototype.

(** The loop over [parent->commands] of the [Circuit] constructor, from the
    placements [cmds] still to do. *)
Fixpoint Circuit_new_from (cmds : list ChildData)
    (everything : gmap string IGatePtr) (circuits : list ICircuit)
    (heimdall : GateKeeper) : Result (ICircuit * GateKeeper) :=
  match cmds with
  | [] => Ok (Circuit Circuit_Init everything circuits parent, heimdall)
  | Build_ChildData x _ outputs childId :: cmds' =>
      let builder2 := addType builder (type_name parent) in
      let builder2 :=
        if bool_decide (childId = "") then builder2
        else addChildId builder2 childId in
      r <- instantiate x builder2 heimdall ;;
      everything' <- for_loop (IPrototype_getNumOutputs x) 0
                       (register_output outputs r.1) everything ;;
      Circuit_new_from cmds' everything' (circuits ++ [r.1]) r.2
  end.
End Circuit_constructor.

(** [instantiate] of the three kinds of prototype.  A probe is constructed
    with the label of its prototype; its counter has the initialiser [0] and
    its input slot is not assigned. *)
Fixpoint instantiate (p : IPrototype) (builder : LongNameBuilder)
    (heimdall : GateKeeper) {struct p} : Result (ICircuit * GateKeeper) :=
  match p with
  | GatePrototype T => Ok (GateCircuit_new (make T) builder heimdall)
  | OutputPrototype name =>
      Ok (GateCircuit_new (TickOutputOnly nullptr 0 name) builder heimdall)
  | Composite (Build_CompositePrototype cmds s ins outs n t) =>
      Circuit_new_from instantiate builder
        (Build_CompositePrototype cmds s ins outs n t) cmds ∅ [] heimdall
  end.

(** *** Linking

    [link] also yields the keeper as it stands when the call ends, normally
    or not, so that what a failed call has already done to the gates can be
    stated. *)

(** [for (i...) c->getInput(i) = args[i]] of [GateCircuit::link]. *)
Definition store_input (args : list IGatePtr) (i : nat) (g : IGate)
    : Result IGate :=
  match args !! i with
  | None => Err UndefinedBehaviour
  | Some a => setInput g i a
  end.

(** [GateCircuit::link].  Once the assertion has passed the loop cannot
    fail, so nothing is lost by yielding the keeper unchanged in that
    branch. *)
Definition GateCircuit_link (c : IGatePtr) (args : list IGatePtr)
    (heimdall : GateKeeper) : Result ICircuit * GateKeeper :=
  match c with
  | nullptr => (Err UndefinedBehaviour, heimdall)
  | ptr k =>
      match heimdall !! k with
      | None => (Err UndefinedBehaviour, heimdall)
      | Some (name, g) =>
          if bool_decide (length args = getNumInputs g) then
            match for_loop (length args) 0 (store_input args) g with
            | Ok g' => (Ok (GateCircuit c), <[k := (name, g')]> heimdall)
            | Err e => (Err e, heimdall)
            end
          else (Err AssertionFailed, heimdall)
      end
  end.

(** [everything.insert({parent->outer_input_ids[i], args[i]})]. *)
Definition insert_outer (parent : CompositePrototype) (args : list IGatePtr)
    (i : nat) (everything : gmap string IGatePtr)
    : Result (gmap string IGatePtr) :=
  match outer_input_ids parent !! i, args !! i with
  | Some k, Some a => Ok (umap_insert k a everything)
  | _, _ => Err UndefinedBehaviour
  end.

(** [data.push_back(everything[inputs[i]])] over the input names of one
    placement; the table is threaded because [operator[]] may grow it. *)
Fixpoint resolve (inputs : list string) (everything : gmap string IGatePtr)
    : list IGatePtr * gmap string IGatePtr :=
  match inputs with
  | [] => ([], everything)
  | n :: inputs' =>
      let r := umap_index n everything in
      let rs := resolve inputs' r.2 in
      (r.1 :: rs.1, rs.2)
  end.

Section Circuit_link.
Variable link :
  ICircuit -> list IGatePtr -> GateKeeper -> Result ICircuit * GateKeeper.
Variable parent : CompositePrototype.

(** The loop over [circuits] of [Circuit::link], from index [i]; yields the
    children as linked and the table. *)
Fixpoint link_children (i : nat) (circuits : list ICircuit)
    (everything : gmap string IGatePtr) (heimdall : GateKeeper)
    : Result (list ICircuit * gmap string IGatePtr) * GateKeeper :=
  match circuits with
  | [] => (Ok ([], everything), heimdall)
  | circuit :: circuits' =>
      match commands parent !! i with
      | None => (Err UndefinedBehaviour, heimdall)
      | Some desc =>
          let data := resolve (inputs desc) everything in
          match link circuit data.1 heimdall with
          | (Err e, heimdall') => (Err e, heimdall')
          | (Ok circuit', heimdall') =>
              match link_children (S i) circuits' data.2 heimdall' with
              | (Err e, heimdall'') => (Err e, heimdall'')
              | (Ok r, heimdall'') => (Ok (circuit' :: r.1, r.2), heimdall'')
              end
          end
      end
  end.
End Circuit_link.

Fixpoint link (c : ICircuit) (args : list IGatePtr) (heimdall : GateKeeper)
    {struct c} : Result ICircuit * GateKeeper :=
  match c with
  | GateCircuit g => GateCircuit_link g args heimdall
  | Circuit state everything circuits parent =>
      if bool_decide (state = Circuit_Init) then
        if bool_decide
             (length args = IPrototype_getNumInputs (Composite parent)) then
          match for_loop (length args) 0 (insert_outer parent args)
                  everything with
          | Err e => (Err e, heimdall)
          | Ok everything' =>
              match link_children link parent 0 circuits everything'
                      heimdall with
              | (Err e, heimdall') => (Err e, heimdall')
              | (Ok r, heimdall') =>
                  (Ok (Circuit Linked r.2 r.1 parent), heimdall')
              end
          end
        else (Err AssertionFailed, heimdall)
      else (Err AssertionFailed, heimdall)
  end.

(** ** Observation *)

(** [c->getOutput(i)->getValue()] for every output [i] of the prototype. *)
Definition readOutput (fuel : nat) (heimdall : GateKeeper) (c : ICircuit)
    (i : nat) : Result bool :=
  g <- getOutput c (Z.of_nat i) ;; getValue fuel heimdall g.

Fixpoint mapR {A B} (f : A -> Result B) (l : list A) : Result (list B) :=
  match l with
  | [] => Ok []
  | a :: l' => b <- f a ;; bs <- mapR f l' ;; Ok (b :: bs)
  end.

Definition readOutputs (fuel : nat) (heimdall : GateKeeper) (c : ICircuit)
    (numOutputs : nat) : Result (list bool) :=
  mapR (readOutput fuel heimdall c) (seq 0 numOutputs).

(** [n] times: [heimdall.tick()], then read every output.  Yields the rows
    read, the lines printed and the keeper at the end. *)
Fixpoint tick_and_read (fuel : nat) (n : nat) (c : ICircuit)
    (numOutputs : nat) (heimdall : GateKeeper)
    : Result (list (list bool) * list Line * GateKeeper) :=
  match n with
  | O => Ok ([], [], heimdall)
  | S n' =>
      s <- tick fuel heimdall ;;
      row <- readOutputs fuel s.1 c numOutputs ;;
      r <- tick_and_read fuel n' c numOutputs s.1 ;;
      Ok (row :: r.1.1, s.2 ++ r.1.2, r.2)
  end.

(** Instantiate in the keeper, link to [args], then tick and read. *)
Definition simulate (fuel : nat) (p : IPrototype) (builder : LongNameBuilder)
    (args : list IGatePtr) (n : nat) (heimdall : GateKeeper)
    : Result (list (list bool) * list Line * GateKeeper) :=
  r <- instantiate p builder heimdall ;;
  match link r.1 args r.2 with
  | (Err e, _) => Err e
  | (Ok c, heimdall') =>
      tick_and_read fuel n c (IPrototype_getNumOutputs p) heimdall'
  end.

(** ** The prototypes built by [main] *)

Definition lowPrototype : IPrototype := GatePrototype TLowOutput.
Definition nandPrototype : IPrototype := GatePrototype TNand.
Definition registerPrototype : IPrototype := GatePrototype TRegister.

Definition notPrototype : Result CompositePrototype :=
  p <- Ok (CompositePrototype_new "not" ["in"] ["not"]) ;;
  p <- addPrototype p nandPrototype ["in"; "in"] ["not"] "" ;;
  finalize p.

Definition andPrototype : Result CompositePrototype :=
  notPrototype <- notPrototype ;;
  p <- Ok (CompositePrototype_new "and" ["in1"; "in2"] ["and"]) ;;
  p <- addPrototype p nandPrototype ["in1"; "in2"] ["nand"] "" ;;
  p <- addPrototype p (Composite notPrototype) ["nand"] ["and"] "" ;;
  finalize p.

Definition orPrototype : Result CompositePrototype :=
  notPrototype <- notPrototype ;;
  p <- Ok (CompositePrototype_new "or" ["in1"; "in2"] ["or"]) ;;
  p <- addPrototype p (Composite notPrototype) ["in1"] ["nin1"] "" ;;
  p <- addPrototype p (Composite notPrototype) ["in2"] ["nin2"] "" ;;
  p <- addPrototype p nandPrototype ["nin1"; "nin2"] ["or"] "" ;;
  finalize p.

Definition xorPrototype : Result CompositePrototype :=
  orPrototype <- orPrototype ;;
  andPrototype <- andPrototype ;;
  p <- Ok (CompositePrototype_new "xor" ["in1"; "in2"] ["xor"]) ;;
  p <- addPrototype p (Composite orPrototype) ["in1"; "in2"] ["or"] "" ;;
  p <- addPrototype p nandPrototype ["in1"; "in2"] ["nand"] "" ;;
  p <- addPrototype p (Composite andPrototype) ["or"; "nand"] ["xor"] "" ;;
  finalize p.

Definition adderPrototype : Result CompositePrototype :=
  xorPrototype <- xorPrototype ;;
  andPrototype <- andPrototype ;;
  orPrototype <- orPrototype ;;
  p <- Ok (CompositePrototype_new "3-bit adder" ["1"; "2"; "3"]
             ["value"; "carry"]) ;;
  p <- addPrototype p (Composite xorPrototype) ["1"; "2"] ["1x2"] "" ;;
  p <- addPrototype p (Composite xorPrototype) ["1x2"; "3"] ["value"] "" ;;
  p <- addPrototype p (Composite andPrototype) ["1"; "2"] ["12"] "" ;;
  p <- addPrototype p (Composite andPrototype) ["1"; "3"] ["13"] "" ;;
  p <- addPrototype p (Composite andPrototype) ["3"; "2"] ["32"] "" ;;
  p <- addPrototype p (Composite orPrototype) ["12"; "13"] ["12+13"] "" ;;
  p <- addPrototype p (Composite orPrototype) ["12+13"; "32"] ["carry"] "" ;;
  finalize p.

Definition clkPrototype : Result CompositePrototype :=
  notPrototype <- notPrototype ;;
  p <- Ok (CompositePrototype_new "clock" [] ["out"]) ;;
  p <- addPrototype p registerPrototype ["in"] ["out"] "" ;;
  p <- addPrototype p (Composite notPrototype) ["out"] ["in"] "" ;;
  finalize p.

Definition downDetectorPrototype : Result CompositePrototype :=
  notPrototype <- notPrototype ;;
  andPrototype <- andPrototype ;;
  p <- Ok (CompositePrototype_new "falling edge detector" ["clk"] ["down"]) ;;
  p <- addPrototype p registerPrototype ["clk"] ["old clk"] "" ;;
  p <- addPrototype p (Composite notPrototype) ["clk"] ["not clk"] "" ;;
  p <- addPrototype p (Composite andPrototype) ["old clk"; "not clk"]
         ["down"] "" ;;
  finalize p.

Definition halverPrototype : Result CompositePrototype :=
  downDetectorPrototype <- downDetectorPrototype ;;
  xorPrototype <- xorPrototype ;;
  p <- Ok (CompositePrototype_new "clock halver" ["clk"] ["new current"]) ;;
  p <- addPrototype p (Composite downDetectorPrototype) ["clk"] ["down"]
         "down detector" ;;
  p <- addPrototype p registerPrototype ["new current"] ["current"] "" ;;
  p <- addPrototype p (Composite xorPrototype) ["current"; "down"]
         ["new current"] "change on down" ;;
  finalize p.

(** The first two blocks of [main]: two constant-low sources into an XOR,
    instantiated in a fresh keeper and linked to no input; yields the value
    that [main] asserts to be false. *)
Definition main_smoke_test (fuel : nat) : Result bool :=
  xorPrototype <- xorPrototype ;;
  p <- Ok (CompositePrototype_new "test" [] ["out"]) ;;
  p <- addPrototype p lowPrototype [] ["in1"] "" ;;
  p <- addPrototype p lowPrototype [] ["in2"] "" ;;
  p <- addPrototype p (Composite xorPrototype) ["in1"; "in2"] ["out"] "" ;;
  testProto <- finalize p ;;
  r <- instantiate (Composite testProto) emptyName [] ;;
  match link r.1 [] r.2 with
  | (Err e, _) => Err e
  | (Ok test, heimdall) => readOutput fuel heimdall test 0
  end.

(** The third block of [main]: a clock, two halvers and a probe on each of
    the three signals, ticked [n] times ([main] ticks 24 times); yields the
    lines the probes print. *)
Definition main_probes (fuel : nat) (n : nat) : Result (list Line) :=
  clkPrototype <- clkPrototype ;;
  halverPrototype <- halverPrototype ;;
  let clk1 := OutputPrototype "clk/1" in
  let clk2 := OutputPrototype "clk/2" in
  let clk4 := OutputPrototype "clk/4" in
  p <- Ok (CompositePrototype_new "test" [] []) ;;
  p <- addPrototype p (Composite clkPrototype) [] ["clk"] "" ;;
  p <- addPrototype p (Composite halverPrototype) ["clk"] ["clk/2"] "" ;;
  p <- addPrototype p clk1 ["clk"] [] "" ;;
  p <- addPrototype p (Composite halverPrototype) ["clk/2"] ["clk/4"] "" ;;
  p <- addPrototype p clk2 ["clk/2"] [] "" ;;
  p <- addPrototype p clk4 ["clk/4"] [] "" ;;
  testProto <- finalize p ;;
  r <- simulate fuel (Composite testProto) emptyName [] n [] ;;
  Ok r.1.2.

(** The keeper of the adder scenario: three [Input] gates, set to the given
    levels, then the adder instantiated and linked to them. *)
Definition three_inputs (a b c : bool) : GateKeeper :=
  let heimdall := addGate emptyName (Input nullptr nullptr false "1") [] in
  let heimdall := addGate emptyName (Input nullptr nullptr false "2") heimdall in
  let heimdall := addGate emptyName (Input nullptr nullptr false "3") heimdall in
  zip_with (fun v e => (e.1, setValue e.2 v)) [a; b; c] heimdall.

Definition adder_outputs (fuel : nat) (a b c : bool) : Result (list bool) :=
  adderPrototype <- adderPrototype ;;
  r <- instantiate (Composite adderPrototype) emptyName (three_inputs a b c) ;;
  match link r.1 [ptr 0; ptr 1; ptr 2] r.2 with
  | (Err e, _) => Err e
  | (Ok adder, heimdall) => readOutputs fuel heimdall adder 2
  end.

(** The clock scenario: the clock alone in a fresh keeper, its output read
    after each of [n] ticks. *)
Definition clock_outputs (fuel : nat) (n : nat) : Result (list (list bool)) :=
  clkPrototype <- clkPrototype ;;
  r <- simulate fuel (Composite clkPrototype) emptyName [] n [] ;;
  Ok r.1.1.

(** What [getValue] can see of a gate: everything but the staged value of a
    register and the counter of a probe. *)
Definition committed (g : IGate) : IGate :=
  match g with
  | Register a value _ => Register a value false
  | TickOutputOnly a _ name => TickOutputOnly a 0 name
  | _ => g
  end.

(** A composite whose only placement reads two nets that nothing produces. *)
Definition unsatisfiedPrototype : Result CompositePrototype :=
  p <- Ok (CompositePrototype_new "unsatisfied" [] ["out"]) ;;
  p <- addPrototype p nandPrototype ["x"; "y"] ["out"] "" ;;
  finalize p.

(** Instantiate [unsatisfiedPrototype] in a fresh keeper and link it; yields
    the circuit's state, what its table binds ["x"] and ["y"] to, the keeper,
    and what reading output 0 gives. *)
Definition unsatisfied_link (fuel : nat)
    : Result (CircuitState * option IGatePtr * option IGatePtr
              * GateKeeper * Result bool) :=
  p <- unsatisfiedPrototype ;;
  r <- instantiate (Composite p) emptyName [] ;;
  match link r.1 [] r.2 with
  | (Ok (Circuit state everything _ _ as c), heimdall) =>
      Ok (state, everything !! "x", everything !! "y", heimdall,
          readOutput fuel heimdall c 0)
  | (Ok (GateCircuit _), _) => Err UndefinedBehaviour
  | (Err e, _) => Err e
  end.

(** ** Prototypes as the build-time API makes them *)

(** What the assertions of [addPrototype] have checked of a placement. *)
Definition placement_ok (d : ChildData) : bool :=
  is_finalized (proto d)
  && bool_decide (IPrototype_getNumInputs (proto d) = length (inputs d))
  && bool_decide (IPrototype_getNumOutputs (proto d) = length (outputs d)).

(** Every placement, at every depth, has passed [addPrototype]. *)
Fixpoint well_formed (p : IPrototype) : bool :=
  match p with
  | GatePrototype _ => true
  | OutputPrototype _ => true
  | Composite (Build_CompositePrototype cmds _ _ _ _ _) =>
      forallb (fun d =>
                 placement_ok d
                 && match d with Build_ChildData x _ _ _ => well_formed x end)
        cmds
  end.

(** The gates a circuit has allocated. *)
Fixpoint gates_of (c : ICircuit) : list IGatePtr :=
  match c with
  | GateCircuit g => [g]
  | Circuit _ _ circuits _ => flat_map gates_of circuits
  end.

(** Placement [k] of [cmds] registers the name [o] for its output [i]. *)
Definition registers (cmds : list ChildData) (k i : nat) (o : string) : Prop :=
  exists cmd, cmds !! k = Some cmd /\
              i < IPrototype_getNumOutputs (proto cmd) /\
              outputs cmd !! i = Some o.

(** [g] points into the part of the keeper between positions [lo] and [hi]. *)
Definition in_range (lo hi : nat) (g : IGatePtr) : Prop :=
  exists a, g = ptr a /\ lo <= a < hi.

(** What instantiation into [heimdall], leaving [heimdall'], allocates: the
    keeper has grown, and the gates of the circuit are in the new part. *)
Definition allocates (heimdall : GateKeeper) (c : ICircuit)
    (heimdall' : GateKeeper) : Prop :=
  length heimdall <= length heimdall' /\
  Forall (in_range (length heimdall) (length heimdall')) (gates_of c).

(** No gate belongs to two of the circuits [cs]. *)
Definition disjoint_gates (cs : list ICircuit) : Prop :=
  forall k1 k2 c1 c2 g,
    k1 <> k2 -> cs !! k1 = Some c1 -> cs !! k2 = Some c2 ->
    g ∈ gates_of c1 -> g ∉ gates_of c2.

(** A call of [link] leaves the keeper's size and every gate outside [c]. *)
Definition frames
    (link : ICircuit -> list IGatePtr -> GateKeeper -> Result ICircuit * GateKeeper)
    (c : ICircuit) : Prop :=
  forall args heimdall r heimdall',
    link c args heimdall = (r, heimdall') ->
    length heimdall' = length heimdall /\
    forall a, ptr a ∉ gates_of c -> heimdall' !! a = heimdall !! a.

(** ** Two runs *)

(** Two outcomes agree: both fail in the same way, or both succeed with
    related values. *)
Definition agree {A} (R : A -> A -> Prop) (r1 r2 : Result A) : Prop :=
  match r1, r2 with
  | Ok a1, Ok a2 => R a1 a2
  | Err e1, Err e2 => e1 = e2
  | _, _ => False
  end.

(** Two keepers hold the same gates; the diagnostic names may differ. *)
Definition same_gates (heimdall1 heimdall2 : GateKeeper) : Prop :=
  heimdall1.*2 = heimdall2.*2.

(** The same circuit in keepers holding the same gates. *)
Definition same_instance (x y : ICircuit * GateKeeper) : Prop :=
  x.1 = y.1 /\ same_gates x.2 y.2.

(** The same outcome of [link], leaving keepers holding the same gates. *)
Definition same_link (x y : Result ICircuit * GateKeeper) : Prop :=
  x.1 = y.1 /\ same_gates x.2 y.2.

(** Keepers holding the same gates, and the same lines printed. *)
Definition same_tick (x y : GateKeeper * list Line) : Prop :=
  same_gates x.1 y.1 /\ x.2 = y.2.

(** The same rows of output values read, the same lines printed, and
    keepers holding the same gates. *)
Definition same_run (x y : list (list bool) * list Line * GateKeeper) : Prop :=
  x.1.1 = y.1.1 /\ x.1.2 = y.1.2 /\ same_gates x.2 y.2.

(** The circuit of a placement, as it was before [link] and as it is after,
    has received the handle [g] as its [j]-th input: a single gate holds [g]
    in its input slot [j]; a composite binds [g] in its own table to its
    [j]-th outer input name (when that name was still free in its scope and
    is not also the name of an earlier outer input). *)
Definition receives (before after : option ICircuit) (heimdall : GateKeeper)
    (j : nat) (g : IGatePtr) : Prop :=
  match before with
  | Some (GateCircuit (ptr a)) =>
      exists name gate,
        heimdall !! a = Some (name, gate) /\ getInput gate j = Ok g
  | Some (Circuit _ everything _ parent) =>
      forall m,
        outer_input_ids parent !! j = Some m ->
        everything !! m = None ->
        (forall j', j' < j -> outer_input_ids parent !! j' <> Some m) ->
        exists everything' circuits',
          after = Some (Circuit Linked everything' circuits' parent) /\
          everything' !! m = Some g
  | _ => True
  end.

(** The input arity of every gate of the keeper, in order. *)
Definition arities (heimdall : GateKeeper) : list nat :=
  (getNumInputs ∘ snd) <$> heimdall.

(** [c] has the shape of a fresh instance of [p] in a keeper whose gates
    have the arities [ar]: a gate circuit points at a gate of the arity of
    its prototype, a composite circuit is not linked yet and has one child
    per placement, each an instance of the placement's prototype. *)
Inductive instance_of (ar : list nat) : IPrototype -> ICircuit -> Prop :=
| instance_gate T a :
    ar !! a = Some (getNumInputs (make T)) ->
    instance_of ar (GatePrototype T) (GateCircuit (ptr a))
| instance_output name a :
    ar !! a = Some 1 ->
    instance_of ar (OutputPrototype name) (GateCircuit (ptr a))
| instance_composite parent ev cs :
    Forall2 (fun d c => instance_of ar (proto d) c) (commands parent) cs ->
    instance_of ar (Composite parent) (Circuit Circuit_Init ev cs parent).

(** What [instantiate] leaves: the keeper extended, and a fresh instance. *)
Definition instantiates (p : IPrototype) (heimdall : GateKeeper)
    (c : ICircuit) (heimdall' : GateKeeper) : Prop :=
  (exists ext, heimdall' = heimdall ++ ext) /\
  instance_of (arities heimdall') p c.

(** ** Fuel *)

(** [below r r'] : [r'] is what [r] becomes with at least as much fuel. *)
Definition below {A} (r r' : Result A) : Prop :=
  r = Err OutOfFuel \/ r = r'.

(** ** Further definitions: ticking *)

(** Every gate taken through [tick1] as evaluated in the keeper before the
    tick, then through [tick2]; the lines printed, in the order of the
    gates.  This is what the two in-place loops of [GateKeeper::tick] are
    shown to compute. *)
Definition tick_parallel (fuel : nat) (heimdall : GateKeeper)
    : Result (GateKeeper * list Line) :=
  rs <- mapR (fun e => tick1 fuel heimdall e.2) heimdall ;;
  Ok (zip_with (fun e r => (e.1, tick2 r.1)) heimdall rs, concat (rs.*2)).

(** A handle and a gate after the gates of a keeper have been moved: the
    gate at position [i] is now at position [f i]. *)
Definition move_ptr (f : nat -> nat) (p : IGatePtr) : IGatePtr :=
  match p with
  | nullptr => nullptr
  | ptr i => ptr (f i)
  end.

Definition move_gate (f : nat -> nat) (g : IGate) : IGate :=
  match g with
  | LowOutput => LowOutput
  | Register a value nextValue => Register (move_ptr f a) value nextValue
  | Nand a b => Nand (move_ptr f a) (move_ptr f b)
  | TickOutputOnly a t name => TickOutputOnly (move_ptr f a) t name
  | Input a b val name => Input (move_ptr f a) (move_ptr f b) val name
  end.

(** [heimdall2] holds the gates of [heimdall1] in another order: the gate
    at position [i] of [heimdall1] is at position [f i] of [heimdall2], under
    the same name and with its inputs pointing to the new positions of the
    gates they pointed to; no two gates go to the same position, and a
    handle that dangles in [heimdall1] is renamed to one that dangles in
    [heimdall2]. *)
Definition reordered (f : nat -> nat) (heimdall1 heimdall2 : GateKeeper)
    : Prop :=
  Inj (=) (=) f /\
  length heimdall2 = length heimdall1 /\
  forall i, heimdall2 !! f i = prod_map id (move_gate f) <$> heimdall1 !! i.

(** Exchange of the positions [a] and [b]. *)
Definition exchange (a b : nat) (i : nat) : nat :=
  if bool_decide (i = a) then b else if bool_decide (i = b) then a else i.

(** The gate is a probe ([TickOutputOnly]). *)
Definition is_probe (g : IGate) : bool :=
  match g with
  | TickOutputOnly _ _ _ => true
  | _ => false
  end.

(** What [tick] leaves of a gate: its class, its wiring and its label. *)
Definition unticked (g : IGate) : IGate :=
  match g with
  | Register a _ _ => Register a false false
  | TickOutputOnly a _ name => TickOutputOnly a 0 name
  | _ => g
  end.

(** [for (int i = 0; i < n; i++) heimdall.tick()], as in [main]; yields the
    keeper at the end and all the lines printed. *)
Fixpoint tick_n (fuel : nat) (n : nat) (heimdall : GateKeeper)
    : Result (GateKeeper * list Line) :=
  match n with
  | O => Ok (heimdall, [])
  | S n' =>
      s <- tick fuel heimdall ;;
      r <- tick_n fuel n' s.1 ;;
      Ok (r.1, s.2 ++ r.2)
  end.

(** ** Further definitions: instantiation and linking *)

(** The number of primitive gates under a prototype. *)
Fixpoint num_gates (p : IPrototype) : nat :=
  match p with
  | GatePrototype _ => 1
  | OutputPrototype _ => 1
  | Composite (Build_CompositePrototype cmds _ _ _ _ _) =>
      sum_list_with
        (fun d => match d with Build_ChildData x _ _ _ => num_gates x end) cmds
  end.

(** The gates that [instantiate] constructs for a prototype, in the order
    in which it constructs them: a primitive prototype makes its one gate, a
    composite goes through its placements in the order of [commands], each
    placement completely before the next. *)
Fixpoint primitives (p : IPrototype) : list IGate :=
  match p with
  | GatePrototype T => [make T]
  | OutputPrototype name => [TickOutputOnly nullptr 0 name]
  | Composite (Build_CompositePrototype cmds _ _ _ _ _) =>
      flat_map
        (fun d => match d with Build_ChildData x _ _ _ => primitives x end) cmds
  end.

(** The diagnostic name of a gate allocated under the prefix of [builder]:
    the prefix, then the types and labels of the enclosing composites, then
    the type of the gate in brackets. *)
Definition named_under (builder : LongNameBuilder) (e : string * IGate)
    : Prop :=
  exists mid, e.1 = getName builder +:+ mid +:+ "[" +:+ getType e.2 +:+ "] ".

(** A gate without its input slots: its class and its own members. *)
Definition unlinked (g : IGate) : IGate :=
  match g with
  | LowOutput => LowOutput
  | Register _ value nextValue => Register nullptr value nextValue
  | Nand _ _ => Nand nullptr nullptr
  | TickOutputOnly _ t name => TickOutputOnly nullptr t name
  | Input _ _ val name => Input nullptr nullptr val name
  end.

(** What [instantiate] of [p] under [builder] does to the keeper: it appends
    the gates of [primitives p] in order (compared without their input
    slots), each suitably named, and the circuit holds exactly the new
    positions, in order. *)
Definition extends_by (p : IPrototype) (builder : LongNameBuilder)
    (heimdall : GateKeeper) (c : ICircuit) (heimdall' : GateKeeper) : Prop :=
  exists ext,
    heimdall' = heimdall ++ ext /\
    length ext = num_gates p /\
    gates_of c = ptr <$> seq (length heimdall) (num_gates p) /\
    (unlinked ∘ snd) <$> ext = unlinked <$> primitives p /\
    Forall (named_under builder) ext.

(** The table lookup with the default of [operator[]]: a name that is not
    bound reads as the null pointer. *)
Definition bound_or_null (everything : gmap string IGatePtr) (n : string)
    : IGatePtr :=
  default nullptr (everything !! n).

(** ** Further definitions: the build-time API and driven scenarios *)

(** The composite prototypes that client code can make: by the constructor,
    by [addPrototype] of a child that is a gate prototype, a probe prototype
    or a composite made the same way, and by [finalize]. *)
Inductive built : CompositePrototype -> Prop :=
| built_new name ins outs :
    built (CompositePrototype_new name ins outs)
| built_add self cmd ins outs childName self' :
    built self -> built_child cmd ->
    addPrototype self cmd ins outs childName = Ok self' ->
    built self'
| built_finalize self self' :
    built self -> finalize self = Ok self' -> built self'
with built_child : IPrototype -> Prop :=
| built_gate T : built_child (GatePrototype T)
| built_output name : built_child (OutputPrototype name)
| built_composite c : built c -> built_child (Composite c).

Scheme built_mut := Minimality for built Sort Prop
  with built_child_mut := Minimality for built_child Sort Prop.

(** The node count that [num_nodes] keeps track of: the input ports of the
    composite plus the output ports of every placement. *)
Definition total_nodes (p : CompositePrototype) : nat :=
  length (outer_input_ids p)
  + sum_list_with (fun d => length (outputs d)) (commands p).

(** A keeper holding one [Input] gate per value, each set with
    [Input::setValue]. *)
Definition with_inputs (vals : list bool) : GateKeeper :=
  zip_with (fun v e => (e.1, setValue e.2 v)) vals
    (foldl (fun heimdall _ =>
              addGate emptyName (Input nullptr nullptr false "in") heimdall)
       [] vals).

(** [setValue] on the first gates of the keeper, one per value. *)
Definition set_inputs (vals : list bool) (heimdall : GateKeeper) : GateKeeper :=
  zip_with (fun v e => (e.1, setValue e.2 v)) vals
    (take (length vals) heimdall)
  ++ drop (length vals) heimdall.

(** For each step: set the inputs, [tick], read the outputs. *)
Fixpoint drive_steps (fuel : nat) (steps : list (list bool)) (c : ICircuit)
    (numOutputs : nat) (heimdall : GateKeeper) : Result (list (list bool)) :=
  match steps with
  | [] => Ok []
  | vals :: steps' =>
      s <- tick fuel (set_inputs vals heimdall) ;;
      row <- readOutputs fuel s.1 c numOutputs ;;
      rows <- drive_steps fuel steps' c numOutputs s.1 ;;
      Ok (row :: rows)
  end.

(** A prototype with [n] inputs instantiated after [n] [Input] gates and
    linked to them. *)
Definition on_inputs (proto : Result CompositePrototype) (vals : list bool)
    : Result (CompositePrototype * ICircuit * GateKeeper) :=
  p <- proto ;;
  r <- instantiate (Composite p) emptyName (with_inputs vals) ;;
  match link r.1 (ptr <$> seq 0 (length vals)) r.2 with
  | (Err e, _) => Err e
  | (Ok c, heimdall) => Ok (p, c, heimdall)
  end.

(** The outputs of a combinational prototype on the given input levels. *)
Definition outputs_on (fuel : nat) (proto : Result CompositePrototype)
    (vals : list bool) : Result (list bool) :=
  s <- on_inputs proto vals ;;
  readOutputs fuel s.2 s.1.2 (length (outer_output_ids s.1.1)).

(** The outputs of a clocked prototype after each of the given steps. *)
Definition drive (fuel : nat) (proto : Result CompositePrototype)
    (numInputs : nat) (steps : list (list bool)) : Result (list (list bool)) :=
  s <- on_inputs proto (replicate numInputs false) ;;
  drive_steps fuel steps s.1.2 (length (outer_output_ids s.1.1)) s.2.

Definition srFlipFlopPrototype : Result CompositePrototype :=
  orPrototype <- orPrototype ;;
  notPrototype <- notPrototype ;;
  andPrototype <- andPrototype ;;
  p <- Ok (CompositePrototype_new "SR flip-flop" ["data"; "set"; "reset"]
             ["value"]) ;;
  p <- addPrototype p (Composite orPrototype) ["data"; "set"] ["settable"] "" ;;
  p <- addPrototype p (Composite notPrototype) ["reset"] ["nreset"] "" ;;
  p <- addPrototype p (Composite andPrototype) ["nreset"; "settable"]
         ["register"] "" ;;
  p <- addPrototype p registerPrototype ["register"] ["value"] "" ;;
  finalize p.

Definition dFlipFlopPrototype : Result CompositePrototype :=
  notPrototype <- notPrototype ;;
  p <- Ok (CompositePrototype_new "D flip-flop" ["data"; "enable"] ["value"]) ;;
  p <- addPrototype p nandPrototype ["data"; "enable"] ["force high"] "" ;;
  p <- addPrototype p (Composite notPrototype) ["data"] ["not data"] "" ;;
  p <- addPrototype p nandPrototype ["not data"; "enable"] ["force low"] "" ;;
  p <- addPrototype p nandPrototype ["force low"; "value"]
         ["value with forced low"] "" ;;
  p <- addPrototype p nandPrototype ["force high"; "value with forced low"]
         ["new value"] "" ;;
  p <- addPrototype p registerPrototype ["new value"] ["value"] "" ;;
  finalize p.

(** The next value of the D flip-flop as the comment in [main] gives it. *)
Definition dFlipFlop_next (d e v : bool) : bool :=
  negb (negb (d && e) && negb (negb (negb d && e) && v)).

(** * Properties *)

(** ** Fuel *)

Lemma below_refl {A} (r : Result A) : below r r.
Proof. by right. Qed.

Lemma below_bind {A B} (r r' : Result A) (k k' : A -> Result B) :
  below r r' -> (forall a, below (k a) (k' a)) ->
  below (bindR r k) (bindR r' k').
Proof.
  intros [-> | ->] Hk; [by left |].
  destruct r' as [a | e]; simpl; [apply Hk | by right].
Qed.

Lemma below_Ok {A} (r r' : Result A) a : below r r' -> r = Ok a -> r' = Ok a.
Proof. intros [-> | ->]; [discriminate | done]. Qed.

Lemma below_settled {A} (r r' : Result A) :
  below r r' -> r <> Err OutOfFuel -> r' = r.
Proof. intros [-> | ->]; done. Qed.

Lemma getValue_below fuel fuel' heimdall p :
  fuel <= fuel' -> below (getValue fuel heimdall p) (getValue fuel' heimdall p).
Proof.
  revert fuel' p. induction fuel as [| fuel IH]; intros fuel' p Hle.
  - destruct fuel'; [apply below_refl |].
    simpl. destruct (deref heimdall p) as [[] | e]; simpl;
      first [by right | by left].
  - destruct fuel' as [| fuel']; [lia |].
    simpl. destruct (deref heimdall p) as [[] | e]; simpl; try by right.
    apply below_bind; [apply IH; lia |].
    intros [|]; [| by right].
    apply below_bind; [apply IH; lia | intros; by right].
Qed.

Lemma tick1_below fuel fuel' heimdall g :
  fuel <= fuel' -> below (tick1 fuel heimdall g) (tick1 fuel' heimdall g).
Proof.
  intros Hle. destruct g; simpl; try apply below_refl;
    (apply below_bind; [by apply getValue_below | intros; apply below_refl]).
Qed.

Lemma for_loop_below {St} todo from (body body' : nat -> St -> Result St) s :
  (forall i s, below (body i s) (body' i s)) ->
  below (for_loop todo from body s) (for_loop todo from body' s).
Proof.
  intros Hb. revert from s. induction todo as [| todo IH]; intros from s; simpl.
  - apply below_refl.
  - apply below_bind; [apply Hb | intros; apply IH].
Qed.

Lemma tick_below fuel fuel' heimdall :
  fuel <= fuel' -> below (tick fuel heimdall) (tick fuel' heimdall).
Proof.
  intros Hle. unfold tick, phase1.
  apply below_bind; [| intros; apply below_refl].
  apply for_loop_below. intros i s. unfold tick1_at.
  destruct (s.1 !! i) as [[name g] |]; [| apply below_refl].
  apply below_bind; [by apply tick1_below | intros; apply below_refl].
Qed.

Lemma mapR_below {A B} (f f' : A -> Result B) l :
  (forall a, below (f a) (f' a)) -> below (mapR f l) (mapR f' l).
Proof.
  intros Hf. induction l as [| a l IH]; simpl; [apply below_refl |].
  apply below_bind; [apply Hf | intros].
  apply below_bind; [apply IH | intros; apply below_refl].
Qed.

Lemma readOutputs_below fuel fuel' heimdall c n :
  fuel <= fuel' ->
  below (readOutputs fuel heimdall c n) (readOutputs fuel' heimdall c n).
Proof.
  intros Hle. apply mapR_below. intros i. unfold readOutput.
  apply below_bind; [apply below_refl | intros; by apply getValue_below].
Qed.

Lemma tick_and_read_below fuel fuel' n c k heimdall :
  fuel <= fuel' ->
  below (tick_and_read fuel n c k heimdall) (tick_and_read fuel' n c k heimdall).
Proof.
  intros Hle. revert heimdall. induction n as [| n IH]; intros heimdall; simpl.
  - apply below_refl.
  - apply below_bind; [by apply tick_below | intros s].
    apply below_bind; [by apply readOutputs_below | intros row].
    apply below_bind; [apply IH | intros; apply below_refl].
Qed.

Lemma simulate_below fuel fuel' p builder args n heimdall :
  fuel <= fuel' ->
  below (simulate fuel p builder args n heimdall)
        (simulate fuel' p builder args n heimdall).
Proof.
  intros Hle. unfold simulate.
  apply below_bind; [apply below_refl | intros r].
  destruct (link r.1 args r.2) as [[c | e] heimdall'];
    [by apply tick_and_read_below | apply below_refl].
Qed.

Lemma clock_outputs_below fuel fuel' n :
  fuel <= fuel' -> below (clock_outputs fuel n) (clock_outputs fuel' n).
Proof.
  intros Hle. unfold clock_outputs.
  apply below_bind; [apply below_refl | intros clk].
  apply below_bind; [by apply simulate_below | intros; apply below_refl].
Qed.

Lemma adder_outputs_below fuel fuel' a b c :
  fuel <= fuel' -> below (adder_outputs fuel a b c) (adder_outputs fuel' a b c).
Proof.
  intros Hle. unfold adder_outputs.
  apply below_bind; [apply below_refl | intros adder].
  apply below_bind; [apply below_refl | intros r].
  destruct (link r.1 _ r.2) as [[c' | e] heimdall'];
    [by apply readOutputs_below | apply below_refl].
Qed.

(** ** Gates and the two phases *)

Lemma bindR_Ok {A B} (r : Result A) (k : A -> Result B) b :
  bindR r k = Ok b -> exists a, r = Ok a /\ k a = Ok b.
Proof. destruct r as [a | e]; simpl; [eauto | discriminate]. Qed.

Lemma deref_committed heimdall heimdall' p :
  (committed ∘ snd) <$> heimdall = (committed ∘ snd) <$> heimdall' ->
  match deref heimdall p, deref heimdall' p with
  | Ok g, Ok g' => committed g = committed g'
  | Err e, Err e' => e = e'
  | _, _ => False
  end.
Proof.
  intros Heq. destruct p as [| i]; simpl; [done |].
  assert (((committed ∘ snd) <$> heimdall) !! i
          = ((committed ∘ snd) <$> heimdall') !! i) as Hi by by rewrite Heq.
  rewrite !list_lookup_fmap in Hi.
  destruct (heimdall !! i) as [[nm g] |], (heimdall' !! i) as [[nm' g'] |];
    simpl in Hi; by simplify_eq.
Qed.

(** [getValue] reads committed state only. *)
Lemma getValue_committed fuel heimdall heimdall' p :
  (committed ∘ snd) <$> heimdall = (committed ∘ snd) <$> heimdall' ->
  getValue fuel heimdall p = getValue fuel heimdall' p.
Proof.
  intros Heq. revert p. induction fuel as [| fuel IH]; intros p; simpl;
    pose proof (deref_committed _ _ p Heq) as Hp;
    destruct (deref heimdall p) as [g | e], (deref heimdall' p) as [g' | e'];
    try done; simpl; try congruence;
    destruct g, g'; simplify_eq/=; try done.
  by rewrite !IH.
Qed.

Lemma tick1_committed fuel heimdall g r :
  tick1 fuel heimdall g = Ok r -> committed r.1 = committed g.
Proof.
  destruct g; simpl; intros H; simplify_eq; try done;
    apply bindR_Ok in H as (v & _ & H); by simplify_eq.
Qed.

Lemma tick1_same_committed fuel heimdall heimdall' g :
  (committed ∘ snd) <$> heimdall = (committed ∘ snd) <$> heimdall' ->
  tick1 fuel heimdall g = tick1 fuel heimdall' g.
Proof.
  intros Heq. destruct g; simpl; try done;
    by rewrite (getValue_committed _ _ _ _ Heq).
Qed.

(** The first loop of [tick], from gate [from] on: the gates before [from]
    stay, each later gate becomes what [tick1] makes of it in the keeper
    [heimdall] in which the loop started. *)
Lemma phase1_from fuel heimdall todo from s s' :
  (committed ∘ snd) <$> s.1 = (committed ∘ snd) <$> heimdall ->
  (forall j, from <= j -> s.1 !! j = heimdall !! j) ->
  from + todo = length heimdall ->
  for_loop todo from (tick1_at fuel) s = Ok s' ->
  (committed ∘ snd) <$> s'.1 = (committed ∘ snd) <$> heimdall /\
  (forall j, j < from -> s'.1 !! j = s.1 !! j) /\
  (forall j name g, from <= j -> heimdall !! j = Some (name, g) ->
     exists r, tick1 fuel heimdall g = Ok r /\ s'.1 !! j = Some (name, r.1)).
Proof.
  revert from s. induction todo as [| todo IH]; intros from s Hc Hs Hlen; simpl.
  - intros [= <-]. split_and!; [done | done |].
    intros j name g Hj Hg. apply lookup_lt_Some in Hg. lia.
  - intros H. apply bindR_Ok in H as (s1 & H1 & H).
    unfold tick1_at in H1.
    destruct (s.1 !! from) as [[name g] |] eqn:Hfrom; [| discriminate].
    apply bindR_Ok in H1 as (r & Hr & [= <-]).
    pose proof (tick1_committed _ _ _ _ Hr) as Hrc.
    assert ((committed ∘ snd) <$> (<[from := (name, r.1)]> s.1)
            = (committed ∘ snd) <$> heimdall) as Hc1.
    { rewrite list_fmap_insert. simpl. rewrite Hrc, <- Hc.
      apply list_insert_id. by rewrite list_lookup_fmap, Hfrom. }
    apply IH in H as (Hc' & Hbefore & Hafter); simpl; [| done | | lia].
    2:{ intros j Hj. rewrite list_lookup_insert_ne by lia. apply Hs. lia. }
    simpl in *. split_and!; [done | |].
    + intros j Hj. rewrite Hbefore by lia. apply list_lookup_insert_ne. lia.
    + intros j name' g' Hj Hg'.
      destruct (decide (j = from)) as [-> | Hne]; [| apply Hafter; [lia | done]].
      rewrite Hs in Hfrom by lia. rewrite Hg' in Hfrom. simplify_eq.
      exists r. split; [by rewrite <- (tick1_same_committed _ _ _ _ Hc) |].
      rewrite Hbefore by lia. apply list_lookup_insert_eq.
      apply lookup_lt_Some in Hg'.
      assert (length s.1 = length heimdall) as ->; [| done].
      by rewrite <- (length_fmap (committed ∘ snd)), Hc, length_fmap.
Qed.

Lemma phase1_spec fuel heimdall s :
  phase1 fuel heimdall = Ok s ->
  (committed ∘ snd) <$> s.1 = (committed ∘ snd) <$> heimdall /\
  (forall j name g, heimdall !! j = Some (name, g) ->
     exists r, tick1 fuel heimdall g = Ok r /\ s.1 !! j = Some (name, r.1)).
Proof.
  intros H. apply phase1_from with (heimdall := heimdall) in H; simpl; try done.
  destruct H as (Hc & _ & H). split; [done |]. intros j name g. apply H. lia.
Qed.

(** [tick] is simultaneous: every gate is taken through [tick1] as evaluated
    in the keeper before the tick, then through [tick2]. *)
Lemma tick_spec fuel heimdall heimdall' out :
  tick fuel heimdall = Ok (heimdall', out) ->
  forall j name g, heimdall !! j = Some (name, g) ->
    exists r, tick1 fuel heimdall g = Ok r /\
              heimdall' !! j = Some (name, tick2 r.1).
Proof.
  unfold tick. intros H j name g Hg.
  apply bindR_Ok in H as (s & Hs & [= <- <-]).
  apply phase1_spec in Hs as (_ & Hs). destruct (Hs _ _ _ Hg) as (r & Hr & Hj).
  exists r. split; [done |]. by rewrite list_lookup_fmap, Hj.
Qed.

(** [tick] returns as soon as the phase-1 work of every gate does. *)
Lemma phase1_returns_from fuel heimdall todo from s :
  (forall j name g, heimdall !! j = Some (name, g) ->
     exists r, tick1 fuel heimdall g = Ok r) ->
  (committed ∘ snd) <$> s.1 = (committed ∘ snd) <$> heimdall ->
  (forall j, from <= j -> s.1 !! j = heimdall !! j) ->
  from + todo = length heimdall ->
  exists s', for_loop todo from (tick1_at fuel) s = Ok s'.
Proof.
  intros Hall. revert from s.
  induction todo as [| todo IH]; intros from s Hc Hs Hlen; simpl; [by eauto |].
  unfold tick1_at at 1. rewrite Hs by lia.
  destruct (lookup_lt_is_Some_2 heimdall from) as [[name g] Hg]; [lia |].
  rewrite Hg. destruct (Hall _ _ _ Hg) as [r Hr].
  rewrite (tick1_same_committed _ _ _ _ Hc), Hr. simpl.
  apply IH; simpl; [| | lia].
  - rewrite list_fmap_insert. simpl.
    rewrite (tick1_committed _ _ _ _ Hr), <- Hc.
    apply list_insert_id. by rewrite list_lookup_fmap, Hs, Hg by lia.
  - intros j Hj. rewrite list_lookup_insert_ne by lia. apply Hs. lia.
Qed.

Lemma tick_returns fuel heimdall :
  (forall j name g, heimdall !! j = Some (name, g) ->
     exists r, tick1 fuel heimdall g = Ok r) ->
  exists heimdall' out, tick fuel heimdall = Ok (heimdall', out).
Proof.
  intros Hall. unfold tick, phase1.
  destruct (phase1_returns_from fuel heimdall (length heimdall) 0 (heimdall, []))
    as [s ->]; simpl; by eauto.
Qed.

Lemma getValue_Register fuel heimdall i name a value nextValue :
  heimdall !! i = Some (name, Register a value nextValue) ->
  getValue fuel heimdall (ptr i) = Ok value.
Proof. intros H. destruct fuel; simpl; by rewrite H. Qed.

(** C5.  A register is sampled in phase 1 and committed in phase 2.  For a
    register [Register a value nextValue] whose input reads [v]:
    [tick1] stages [v] and keeps the committed value, [tick2] commits the
    staged value, and [getValue] on a register yields the committed value
    whatever is staged.  For a whole [tick] of a keeper: the register at
    position [i] ends up holding the value its input had before the tick;
    between the two phases it holds that value staged while [getValue] still
    yields the old committed value, and after the tick [getValue] yields the
    new one. *)
Theorem register_two_phase fuel heimdall i name a value nextValue :
  heimdall !! i = Some (name, Register a value nextValue) ->
  (forall v, getValue fuel heimdall a = Ok v ->
     tick1 fuel heimdall (Register a value nextValue)
       = Ok (Register a value v, [])) /\
  tick2 (Register a value nextValue) = Register a nextValue nextValue /\
  getValue fuel heimdall (ptr i) = Ok value /\
  (forall between out1, phase1 fuel heimdall = Ok (between, out1) ->
     exists v, getValue fuel heimdall a = Ok v /\
       between !! i = Some (name, Register a value v) /\
       getValue fuel between (ptr i) = Ok value) /\
  (forall heimdall' out, tick fuel heimdall = Ok (heimdall', out) ->
     exists v, getValue fuel heimdall a = Ok v /\
       heimdall' !! i = Some (name, Register a v v) /\
       getValue fuel heimdall' (ptr i) = Ok v).
Proof.
  intros Hi. split_and!.
  - intros v Hv. simpl. by rewrite Hv.
  - done.
  - by eapply getValue_Register.
  - intros between out1 H. apply phase1_spec in H as (_ & H).
    destruct (H _ _ _ Hi) as (r & Hr & Hb). simpl in Hr.
    apply bindR_Ok in Hr as (v & Hv & [= <-]). simpl in Hb.
    exists v. split_and!; [done | done | by eapply getValue_Register].
  - intros heimdall' out H.
    destruct (tick_spec _ _ _ _ H _ _ _ Hi) as (r & Hr & Hb). simpl in Hr.
    apply bindR_Ok in Hr as (v & Hv & [= <-]). simpl in Hb.
    exists v. split_and!; [done | done | by eapply getValue_Register].
Qed.

Lemma register_two_phase_witness :
  exists v,
    getValue 1 [("r", Register (ptr 1) false false);
                ("n", Nand (ptr 0) (ptr 0))] (ptr 1) = Ok v /\
    [("r", Register (ptr 1) true true); ("n", Nand (ptr 0) (ptr 0))] !! 0
    = Some ("r", Register (ptr 1) v v) /\
    getValue 1 [("r", Register (ptr 1) true true);
                ("n", Nand (ptr 0) (ptr 0))] (ptr 0) = Ok v.
Proof.
  exact (proj2 (proj2 (proj2 (proj2
    (register_two_phase 1
       [("r", Register (ptr 1) false false); ("n", Nand (ptr 0) (ptr 0))]
       0 "r" (ptr 1) false false eq_refl))))
    [("r", Register (ptr 1) true true); ("n", Nand (ptr 0) (ptr 0))] []
    eq_refl).
Defined.

(** C10.  [getValue] on a probe ([TickOutputOnly]) fails its assertion and
    yields no value, whatever the fuel.  The handle of a probe can be stored
    as the input of another gate: linking a register or a NAND to it
    succeeds; it is reading through that input that fails. *)
Theorem probe_getValue_asserts fuel heimdall i name a t label :
  heimdall !! i = Some (name, TickOutputOnly a t label) ->
  getValue fuel heimdall (ptr i) = Err AssertionFailed /\
  (forall k nm a0 v nv, heimdall !! k = Some (nm, Register a0 v nv) ->
     link (GateCircuit (ptr k)) [ptr i] heimdall
       = (Ok (GateCircuit (ptr k)),
          <[k := (nm, Register (ptr i) v nv)]> heimdall) /\
     tick1 fuel (<[k := (nm, Register (ptr i) v nv)]> heimdall)
       (Register (ptr i) v nv) = Err AssertionFailed) /\
  (forall k nm a0 a1, heimdall !! k = Some (nm, Nand a0 a1) ->
     link (GateCircuit (ptr k)) [ptr i; ptr i] heimdall
       = (Ok (GateCircuit (ptr k)),
          <[k := (nm, Nand (ptr i) (ptr i))]> heimdall) /\
     getValue (S fuel) (<[k := (nm, Nand (ptr i) (ptr i))]> heimdall) (ptr k)
       = Err AssertionFailed).
Proof.
  intros Hi.
  assert (forall fuel' k e, k <> i ->
            getValue fuel' (<[k := e]> heimdall) (ptr i)
            = Err AssertionFailed) as Hread.
  { intros fuel' k e Hne. destruct fuel'; simpl;
      by rewrite list_lookup_insert_ne, Hi. }
  split_and!.
  - destruct fuel; simpl; by rewrite Hi.
  - intros k nm a0 v nv Hk.
    assert (k <> i) by (intros ->; congruence).
    split; [simpl; by rewrite Hk |].
    simpl. by rewrite Hread.
  - intros k nm a0 a1 Hk.
    assert (k <> i) by (intros ->; congruence).
    split; [simpl; by rewrite Hk |].
    simpl. rewrite list_lookup_insert_eq by by eapply lookup_lt_Some.
    simpl. by rewrite Hread.
Qed.

Lemma probe_getValue_asserts_witness :
  getValue 5 [("p", TickOutputOnly nullptr 0 "clk/1");
              ("r", Register nullptr false false)] (ptr 0)
  = Err AssertionFailed.
Proof.
  exact (proj1 (probe_getValue_asserts 5
    [("p", TickOutputOnly nullptr 0 "clk/1");
     ("r", Register nullptr false false)] 0 "p" nullptr 0 "clk/1" eq_refl)).
Defined.

(** ** Scenarios *)

(** The assertion of [main]'s first two blocks holds in the model. *)
Lemma main_smoke_test_passes : main_smoke_test 4 = Ok false.
Proof. by vm_compute. Qed.

Lemma clock_outputs_4 fuel :
  clock_outputs (S fuel) 4 = Ok [[true]; [false]; [true]; [false]].
Proof.
  eapply below_Ok; [apply (clock_outputs_below 1); lia |].
  by vm_compute.
Qed.

(** C1, counterexample.  With no amount of fuel are the values read after
    ticks 1 to 4 of the lone clock [false, true, false, true]. *)
Lemma clock_outputs_not_false_first :
  ~ exists fuel,
      clock_outputs fuel 4 = Ok [[false]; [true]; [false]; [true]].
Proof.
  intros [[| fuel] H]; [by vm_compute in H |].
  rewrite clock_outputs_4 in H. discriminate.
Qed.

(** C1, amended.  The lone clock starts with its register at [false]; the
    committed values read after ticks 1, 2, 3, 4 are [true, false, true,
    false].  The sequence [false, true, false, true] is what a probe on the
    clock prints during ticks 1 to 4 of [main]'s third block, as a probe
    samples in phase 1, before the commit of its tick. *)
Theorem clock_outputs_after_ticks fuel :
  clock_outputs (S fuel) 4 = Ok [[true]; [false]; [true]; [false]] /\
  (r <- main_probes (12 + fuel) 4 ;;
   Ok (level <$> filter (fun l => probe l = "clk/1") r))
  = Ok [false; true; false; true].
Proof.
  split.
  - apply clock_outputs_4.
  - assert (below (main_probes 12 4) (main_probes (12 + fuel) 4)) as Hb.
    { unfold main_probes.
      do 10 (apply below_bind; [apply below_refl | intros ?]).
      apply below_bind; [apply simulate_below; lia | intros; apply below_refl]. }
    assert (main_probes 12 4 <> Err OutOfFuel) as Hs by by vm_compute.
    rewrite (below_settled _ _ Hb Hs). by vm_compute.
Qed.

Lemma adder_outputs_table fuel a b c :
  adder_outputs (9 + fuel) a b c
  = Ok [xorb (xorb a b) c; a && b || a && c || c && b].
Proof.
  eapply below_Ok; [apply (adder_outputs_below 9); lia |].
  destruct a, b, c; by vm_compute.
Qed.

(** C9.  The 3-input adder linked to three input gates: with all three
    inputs low, output 0 (value) and output 1 (carry) read [false]; with all
    three high, both read [true]. *)
Theorem adder_all_low_all_high fuel :
  adder_outputs (9 + fuel) false false false = Ok [false; false] /\
  adder_outputs (9 + fuel) true true true = Ok [true; true].
Proof. by rewrite !adder_outputs_table. Qed.

(** ** Linking *)

Lemma Circuit_new_from_shape inst builder parent cmds ev cs heimdall c heimdall' :
  Circuit_new_from inst builder parent cmds ev cs heimdall = Ok (c, heimdall') ->
  exists ev' cs', c = Circuit Circuit_Init ev' cs' parent.
Proof.
  revert ev cs heimdall.
  induction cmds as [| [x ins outs childId] cmds IH]; intros ev cs heimdall; simpl.
  - intros [= <- <-]. eauto.
  - intros H. apply bindR_Ok in H as (r & _ & H).
    apply bindR_Ok in H as (ev1 & _ & H). by eapply IH.
Qed.

Lemma instantiate_Composite_shape parent builder heimdall c heimdall' :
  instantiate (Composite parent) builder heimdall = Ok (c, heimdall') ->
  exists ev cs, c = Circuit Circuit_Init ev cs parent.
Proof. destruct parent. simpl. apply Circuit_new_from_shape. Qed.

Lemma lookup_addGate name gate (heimdall : GateKeeper) :
  addGate name gate heimdall !! length heimdall = Some (getName name, gate).
Proof. unfold addGate. by rewrite list_lookup_middle. Qed.

(** C3.  A circuit just instantiated from a prototype [p], linked with a
    handle list whose length is not the input arity of [p], fails an
    assertion, and the keeper at that point is the keeper as instantiation
    left it: no gate has been touched. *)
Theorem link_wrong_arity p builder heimdall c heimdall' args :
  instantiate p builder heimdall = Ok (c, heimdall') ->
  length args <> IPrototype_getNumInputs p ->
  link c args heimdall' = (Err AssertionFailed, heimdall').
Proof.
  intros Hinst Hlen. destruct p as [T | name | parent].
  - simpl in Hinst. injection Hinst as <- <-. simpl.
    rewrite lookup_addGate. simpl in Hlen.
    destruct T; simpl in *; by rewrite bool_decide_eq_false_2.
  - simpl in Hinst. injection Hinst as <- <-. simpl.
    rewrite lookup_addGate. simpl in *. by rewrite bool_decide_eq_false_2.
  - apply instantiate_Composite_shape in Hinst as (ev & cs & ->). simpl in *.
    by rewrite bool_decide_eq_false_2.
Qed.

Lemma link_wrong_arity_witness :
  link (GateCircuit (ptr 0)) [nullptr] [("[nand] ", Nand nullptr nullptr)]
  = (Err AssertionFailed, [("[nand] ", Nand nullptr nullptr)]).
Proof.
  apply (link_wrong_arity nandPrototype emptyName [] _ _ [nullptr]);
    [reflexivity | simpl; lia].
Defined.

Lemma store_inputs_Ok g args :
  length args = getNumInputs g ->
  exists g', for_loop (length args) 0 (store_input args) g = Ok g' /\
             getNumInputs g' = getNumInputs g.
Proof.
  destruct g; destruct args as [| a0 [| a1 [| a2 args]]]; simpl; try lia;
    intros _; eexists; (split; [reflexivity | done]).
Qed.

Lemma store_inputs_spec gate args gate' :
  for_loop (length args) 0 (store_input args) gate = Ok gate' ->
  forall j a, args !! j = Some a -> getInput gate' j = Ok a.
Proof.
  destruct gate; destruct args as [| a0 [| a1 [| a2 args]]]; simpl;
    intros H; simplify_eq; intros [| [| j]] a Hj; by simplify_eq/=.
Qed.

Lemma store_inputs_unlinked g args g' :
  for_loop (length args) 0 (store_input args) g = Ok g' ->
  unlinked g' = unlinked g.
Proof.
  destruct g; destruct args as [| a0 [| a1 [| a2 args]]]; simpl;
    intros H; by simplify_eq.
Qed.

(** C4, the code against the claim.  A composite circuit that has been
    linked is [Linked] for good: any further [link] fails the state assertion
    and touches no gate, as the claim says.  A circuit of a primitive
    prototype ([GateCircuit]) has no state member and its [link] asserts the
    arity only: once linked to [args] (its gate then holds [args] in its
    input slots), a second [link] with a list [args2] of the same length
    returns normally and overwrites the slots with [args2], leaving the rest
    of the gate and every other gate as they were.  The claim asks for a
    failure there. *)
Theorem relink c args heimdall c1 heimdall1 :
  link c args heimdall = (Ok c1, heimdall1) ->
  match c with
  | Circuit _ _ _ _ =>
      forall args2 heimdall2,
        link c1 args2 heimdall2 = (Err AssertionFailed, heimdall2)
  | GateCircuit g =>
      forall args2, length args2 = length args ->
        exists k name gate1 gate2,
          g = ptr k /\
          heimdall1 !! k = Some (name, gate1) /\
          (forall j a, args !! j = Some a -> getInput gate1 j = Ok a) /\
          link c1 args2 heimdall1
          = (Ok c1, <[k := (name, gate2)]> heimdall1) /\
          unlinked gate2 = unlinked gate1 /\
          (forall j a, args2 !! j = Some a -> getInput gate2 j = Ok a)
  end.
Proof.
  destruct c as [g | st ev cs parent]; simpl.
  - destruct g as [| k]; simpl; [discriminate |].
    destruct (heimdall !! k) as [[name gate] |] eqn:Hk; [| discriminate].
    case_bool_decide as Hlen; [| discriminate].
    destruct (store_inputs_Ok gate args Hlen) as (gate1 & Hstore1 & Hn).
    rewrite Hstore1. intros [= <- <-] args2 Hlen2. simpl.
    rewrite list_lookup_insert_eq by by eapply lookup_lt_Some.
    rewrite bool_decide_eq_true_2 by congruence.
    destruct (store_inputs_Ok gate1 args2) as (gate2 & Hstore2 & _);
      [congruence |].
    rewrite Hstore2. exists k, name, gate1, gate2. split_and!; try done.
    + apply list_lookup_insert_eq. by eapply lookup_lt_Some.
    + by eapply store_inputs_spec.
    + by eapply store_inputs_unlinked.
    + by eapply store_inputs_spec.
  - repeat case_bool_decide; try discriminate.
    destruct (for_loop _ _ _ _) as [ev' |]; [| discriminate].
    destruct (link_children _ _ _ _ _ _) as [[r |] h]; [| discriminate].
    by intros [= <- <-] args2 heimdall2.
Qed.

Lemma relink_witness :
  (exists k name gate1 gate2,
     ptr 2 = ptr k /\
     [("[low] ", LowOutput); ("[low] ", LowOutput);
      ("[nand] ", Nand (ptr 0) (ptr 1))] !! k = Some (name, gate1) /\
     (forall j a, [ptr 0; ptr 1] !! j = Some a -> getInput gate1 j = Ok a) /\
     link (GateCircuit (ptr 2)) [ptr 1; ptr 0]
       [("[low] ", LowOutput); ("[low] ", LowOutput);
        ("[nand] ", Nand (ptr 0) (ptr 1))]
     = (Ok (GateCircuit (ptr 2)),
        <[k := (name, gate2)]>
          [("[low] ", LowOutput); ("[low] ", LowOutput);
           ("[nand] ", Nand (ptr 0) (ptr 1))]) /\
     unlinked gate2 = unlinked gate1 /\
     (forall j a, [ptr 1; ptr 0] !! j = Some a -> getInput gate2 j = Ok a)) /\
  link
    (Circuit Linked (<["in" := ptr 0]> {["not" := ptr 1]}) [GateCircuit (ptr 1)]
       (Build_CompositePrototype
          [Build_ChildData nandPrototype ["in"; "in"] ["not"] ""]
          Finalized ["in"] ["not"] 2 "not"))
    [ptr 0] [("[low] ", LowOutput); ("[not] [nand] ", Nand (ptr 0) (ptr 0))]
  = (Err AssertionFailed,
     [("[low] ", LowOutput); ("[not] [nand] ", Nand (ptr 0) (ptr 0))]).
Proof.
  split.
  - exact (relink (GateCircuit (ptr 2)) [ptr 0; ptr 1]
             [("[low] ", LowOutput); ("[low] ", LowOutput);
              ("[nand] ", Nand nullptr nullptr)]
             _ _ eq_refl [ptr 1; ptr 0] eq_refl).
  - apply (relink
             (Circuit Circuit_Init {["not" := ptr 1]} [GateCircuit (ptr 1)]
                (Build_CompositePrototype
                   [Build_ChildData nandPrototype ["in"; "in"] ["not"] ""]
                   Finalized ["in"] ["not"] 2 "not"))
             [ptr 0]
             [("[low] ", LowOutput); ("[not] [nand] ", Nand nullptr nullptr)]
             _
             [("[low] ", LowOutput); ("[not] [nand] ", Nand (ptr 0) (ptr 0))]).
    by vm_compute.
Defined.

(** C2, the code at a failing input.  The composite [unsatisfiedPrototype]
    places one NAND whose inputs name the nets ["x"] and ["y"], which nothing
    produces.  [link] succeeds: [operator[]] binds both names to the null
    pointer in the table, and the NAND is wired to two null pointers; the
    failure only shows as undefined behaviour when the output is read. *)
Theorem link_unsatisfied_reference_is_silent fuel :
  unsatisfied_link (S fuel)
  = Ok (Linked, Some nullptr, Some nullptr,
        [("[unsatisfied] [nand] ", Nand nullptr nullptr)],
        Err UndefinedBehaviour).
Proof. destruct fuel; by vm_compute. Qed.

(** ** Induction over nested prototypes and circuits *)

Lemma IPrototype_nested_ind (P : IPrototype -> Prop) :
  (forall T, P (GatePrototype T)) ->
  (forall name, P (OutputPrototype name)) ->
  (forall c, Forall (fun d => P (proto d)) (commands c) -> P (Composite c)) ->
  forall p, P p.
Proof.
  intros HG HO HC.
  exact (fix go (p : IPrototype) : P p :=
    match p with
    | GatePrototype T => HG T
    | OutputPrototype name => HO name
    | Composite c =>
        HC c
          (match c as c0 return Forall (fun d => P (proto d)) (commands c0) with
           | Build_CompositePrototype cmds _ _ _ _ _ =>
               (fix go_list (l : list ChildData)
                  : Forall (fun d => P (proto d)) l :=
                  match l with
                  | [] => @List.Forall_nil _ _
                  | d :: l' =>
                      @List.Forall_cons _ _ d l'
                        (match d as d0 return P (proto d0) with
                         | Build_ChildData x _ _ _ => go x
                         end)
                        (go_list l')
                  end) cmds
           end)
    end).
Qed.

Lemma ICircuit_nested_ind (P : ICircuit -> Prop) :
  (forall g, P (GateCircuit g)) ->
  (forall st ev cs parent, Forall P cs -> P (Circuit st ev cs parent)) ->
  forall c, P c.
Proof.
  intros HG HC.
  exact (fix go (c : ICircuit) : P c :=
    match c with
    | GateCircuit g => HG g
    | Circuit st ev cs parent =>
        HC st ev cs parent
          ((fix go_list (l : list ICircuit) : Forall P l :=
              match l with
              | [] => @List.Forall_nil _ _
              | c' :: l' => @List.Forall_cons _ _ c' l' (go c') (go_list l')
              end) cs)
    end).
Qed.

Lemma well_formed_Composite c :
  well_formed (Composite c) ->
  Forall (fun d => placement_ok d /\ well_formed (proto d)) (commands c).
Proof.
  destruct c as [cmds s ins outs n t]. simpl. intros H.
  apply Is_true_true in H. rewrite forallb_forall in H.
  apply Forall_forall. intros d Hd.
  specialize (H d (proj1 (list_elem_of_In _ _) Hd)).
  apply andb_prop in H as [H1 H2]. destruct d. simpl in *.
  split; by apply Is_true_true.
Qed.

(** ** Instantiation: the symbol table *)

Lemma umap_insert_fresh k v (m : gmap string IGatePtr) :
  m !! k = None -> umap_insert k v m = <[k := v]> m.
Proof. unfold umap_insert. by intros ->. Qed.

Lemma umap_insert_keeps k v (m : gmap string IGatePtr) o g :
  m !! o = Some g -> umap_insert k v m !! o = Some g.
Proof.
  unfold umap_insert. intros Ho. destruct (m !! k) eqn:Hk; [done |].
  rewrite lookup_insert_ne; [done | congruence].
Qed.

Lemma umap_index_keeps k (m : gmap string IGatePtr) o g :
  m !! o = Some g -> (umap_index k m).2 !! o = Some g.
Proof.
  unfold umap_index. intros Ho. destruct (m !! k) eqn:Hk; [done |].
  simpl. rewrite lookup_insert_ne; [done | congruence].
Qed.

Lemma umap_index_found k (m : gmap string IGatePtr) g :
  m !! k = Some g -> (umap_index k m).1 = g.
Proof. unfold umap_index. by intros ->. Qed.

Lemma assert_Ok b u : assert b = Ok u -> b = true.
Proof. by destruct b. Qed.

(** The inner loop of the constructor, run to the end from index [from]:
    the names at [from .. from + n) were free and pairwise distinct, each is
    now bound to the corresponding output of the child, and nothing else
    has changed. *)
Lemma register_outputs_spec outs child n from (ev ev' : gmap string IGatePtr) :
  for_loop n from (register_output outs child) ev = Ok ev' ->
  (forall o g, ev !! o = Some g -> ev' !! o = Some g) /\
  (forall i, from <= i < from + n ->
     exists o g, outs !! i = Some o /\ getOutput child (Z.of_nat i) = Ok g /\
                 ev' !! o = Some g /\ ev !! o = None) /\
  (forall o g, ev' !! o = Some g ->
     ev !! o = Some g \/
     exists i, from <= i < from + n /\ outs !! i = Some o) /\
  (forall i j, from <= i < j -> j < from + n -> outs !! i <> outs !! j).
Proof.
  revert from ev. induction n as [| n IH]; intros from ev; simpl.
  - intros [= <-]. split_and!; [done | lia | by left | lia].
  - intros H. apply bindR_Ok in H as (ev1 & H1 & H).
    unfold register_output in H1.
    destruct (outs !! from) as [o |] eqn:Ho; [| discriminate].
    apply bindR_Ok in H1 as (u & Hfree & H1).
    apply assert_Ok, bool_decide_eq_true in Hfree.
    apply bindR_Ok in H1 as (g & Hg & [= <-]).
    rewrite umap_insert_fresh in H by done.
    apply IH in H as (Hkeep & Hnew & Honly & Hdistinct).
    assert (ev' !! o = Some g) as Ho' by (apply Hkeep, lookup_insert_eq).
    split_and!.
    + intros o' g' Ho'g. apply Hkeep. rewrite lookup_insert_ne; [done | congruence].
    + intros i Hi. destruct (decide (i = from)) as [-> | Hne]; [by eauto 10 |].
      destruct (Hnew i) as (o' & g' & ? & ? & ? & Hfree'); [lia |].
      exists o', g'. split_and!; try done.
      apply lookup_insert_None in Hfree'. tauto.
    + intros o' g' Ho'g. destruct (Honly _ _ Ho'g) as [Hin | (i & Hi & Hio)].
      * apply lookup_insert_Some in Hin as [[<- <-] | [_ Hin]]; [| by left].
        right. exists from. split; [lia | done].
      * right. exists i. split; [lia | done].
    + intros i j Hij Hj. destruct (decide (i = from)) as [-> | Hne];
        [| apply Hdistinct; lia].
      destruct (Hnew j) as (o' & g' & Hjo & _ & _ & Hfree'); [lia |].
      rewrite Ho, Hjo. intros [= <-]. by rewrite lookup_insert_eq in Hfree'.
Qed.

Lemma Circuit_new_from_spec inst builder parent cmds ev cs heimdall c heimdall' :
  Circuit_new_from inst builder parent cmds ev cs heimdall = Ok (c, heimdall') ->
  exists ev' new,
    c = Circuit Circuit_Init ev' (cs ++ new) parent /\
    length new = length cmds /\
    (forall o g, ev !! o = Some g -> ev' !! o = Some g) /\
    (forall k i o, registers cmds k i o ->
       exists child g, new !! k = Some child /\
         getOutput child (Z.of_nat i) = Ok g /\
         ev' !! o = Some g /\ ev !! o = None) /\
    (forall o g, ev' !! o = Some g ->
       ev !! o = Some g \/ exists k i, registers cmds k i o) /\
    (forall k1 i1 k2 i2 o, registers cmds k1 i1 o -> registers cmds k2 i2 o ->
       k1 = k2 /\ i1 = i2).
Proof.
  revert ev cs heimdall.
  induction cmds as [| [x ins outs childId] cmds IH]; intros ev cs heimdall; simpl.
  - intros [= <- <-]. exists ev, []. rewrite app_nil_r.
    split_and!; try done.
    + intros k i o (cmd & Hk & _). by rewrite lookup_nil in Hk.
    + by left.
    + intros k1 i1 k2 i2 o (cmd & Hk & _). by rewrite lookup_nil in Hk.
  - intros H. apply bindR_Ok in H as (r & Hr & H).
    apply bindR_Ok in H as (ev1 & Hloop & H).
    apply register_outputs_spec in Hloop as (Hkeep1 & Hnew1 & Honly1 & Hdist1).
    apply IH in H as (ev' & new & -> & Hlen & Hkeep & Hnew & Honly & Hdist).
    exists ev', (r.1 :: new). rewrite <- app_assoc. simpl.
    assert (forall i o, registers (Build_ChildData x ins outs childId :: cmds) 0 i o ->
              exists g, getOutput r.1 (Z.of_nat i) = Ok g /\ ev' !! o = Some g /\
                        ev1 !! o = Some g /\ ev !! o = None) as Hhead.
    { intros i o (cmd & [= <-] & Hi & Hio). simpl in *.
      destruct (Hnew1 i) as (o' & g & ? & ? & ? & ?); [lia |].
      simplify_eq. exists g. split_and!; try done. by apply Hkeep. }
    assert (forall k i o, registers (Build_ChildData x ins outs childId :: cmds) (S k) i o ->
              registers cmds k i o) as Htail by done.
    split_and!; try done.
    + by rewrite Hlen.
    + intros o g Ho. by apply Hkeep, Hkeep1.
    + intros [| k] i o Hreg.
      * destruct (Hhead _ _ Hreg) as (g & ? & ? & ? & ?). by exists r.1, g.
      * destruct (Hnew k i o (Htail _ _ _ Hreg)) as (child & g & ? & ? & ? & Hfree).
        exists child, g. split_and!; try done.
        destruct (ev !! o) as [g' |] eqn:Ho; [| done].
        apply Hkeep1 in Ho. congruence.
    + intros o g Ho. destruct (Honly _ _ Ho) as [Hin | (k & i & Hreg)].
      * destruct (Honly1 _ _ Hin) as [? | (i & Hi & Hio)]; [by left |].
        right. exists 0, i, (Build_ChildData x ins outs childId).
        split_and!; [done | simpl; lia | done].
      * right. by exists (S k), i.
    + intros [| k1] i1 [| k2] i2 o Hr1 Hr2.
      * split; [done |].
        destruct Hr1 as (cmd1 & [= <-] & Hi1 & Ho1), Hr2 as (cmd2 & [= <-] & Hi2 & Ho2).
        simpl in *. destruct (decide (i1 = i2)) as [| Hne]; [done |].
        exfalso. destruct (decide (i1 < i2)).
        -- apply (Hdist1 i1 i2); [lia | lia | congruence].
        -- apply (Hdist1 i2 i1); [lia | lia | congruence].
      * exfalso. destruct (Hhead _ _ Hr1) as (g & _ & _ & Hin & _).
        destruct (Hnew _ _ _ (Htail _ _ _ Hr2)) as (? & ? & _ & _ & _ & Hfree).
        congruence.
      * exfalso. destruct (Hhead _ _ Hr2) as (g & _ & _ & Hin & _).
        destruct (Hnew _ _ _ (Htail _ _ _ Hr1)) as (? & ? & _ & _ & _ & Hfree).
        congruence.
      * destruct (Hdist k1 i1 k2 i2 o) as [-> ->]; by auto.
Qed.

Lemma bindR_Err {A B} (r : Result A) (k : A -> Result B) e :
  bindR r k = Err e -> r = Err e \/ exists a, r = Ok a /\ k a = Err e.
Proof. destruct r as [a | e']; simpl; [eauto | intros [= ->]; by left]. Qed.

Lemma assert_Err b e : assert b = Err e -> e = AssertionFailed.
Proof. destruct b; simpl; congruence. Qed.

Lemma getOutput_Err c i e : getOutput c i = Err e -> e = AssertionFailed.
Proof.
  destruct c as [g | st ev cs parent]; simpl; intros H.
  - apply bindR_Err in H as [H | (u & _ & H)]; [by eapply assert_Err | done].
  - apply bindR_Err in H as [H | (u & Hi & H)]; [by eapply assert_Err |].
    apply assert_Ok, bool_decide_eq_true in Hi.
    destruct (outer_output_ids parent !! Z.to_nat i) as [o |] eqn:Ho.
    + apply bindR_Err in H as [H | (u' & _ & H)]; [by eapply assert_Err | done].
    + apply lookup_ge_None in Ho. lia.
Qed.

Lemma register_outputs_Err outs child n from (ev : gmap string IGatePtr) e :
  from + n <= length outs ->
  for_loop n from (register_output outs child) ev = Err e ->
  e = AssertionFailed.
Proof.
  revert from ev. induction n as [| n IH]; intros from ev Hlen; simpl; [done |].
  intros H. apply bindR_Err in H as [H | (ev1 & _ & H)]; [| eapply IH, H; lia].
  unfold register_output in H.
  destruct (outs !! from) as [o |] eqn:Ho.
  - apply bindR_Err in H as [H | (u & _ & H)]; [by eapply assert_Err |].
    apply bindR_Err in H as [H | (g & _ & H)]; [by eapply getOutput_Err | done].
  - apply lookup_ge_None in Ho. lia.
Qed.

Lemma Circuit_new_from_Err inst builder parent cmds ev cs heimdall e :
  Forall (fun d => placement_ok d /\
            forall b h e, inst (proto d) b h = Err e -> e = AssertionFailed) cmds ->
  Circuit_new_from inst builder parent cmds ev cs heimdall = Err e ->
  e = AssertionFailed.
Proof.
  intros Hall. revert ev cs heimdall.
  induction Hall as [| [x ins outs childId] cmds [Hok Hx] _ IH];
    intros ev cs heimdall; simpl; [done |].
  intros H. apply bindR_Err in H as [H | (r & _ & H)]; [by eapply Hx |].
  apply bindR_Err in H as [H | (ev1 & _ & H)]; [| by eapply IH].
  eapply register_outputs_Err, H.
  unfold placement_ok in Hok. simpl in Hok.
  apply andb_prop_elim in Hok as [_ Hok]. apply bool_decide_unpack in Hok. lia.
Qed.

(** A prototype that went through [addPrototype] cannot make [instantiate]
    run into undefined behaviour: the only failures are assertions. *)
Lemma instantiate_Err p :
  well_formed p ->
  forall builder heimdall e,
    instantiate p builder heimdall = Err e -> e = AssertionFailed.
Proof.
  induction p as [T | name | c IH] using IPrototype_nested_ind;
    intros Hwf builder heimdall e; [done | done |].
  apply well_formed_Composite in Hwf.
  destruct c as [cmds s ins outs n t]. simpl in *.
  apply Circuit_new_from_Err.
  rewrite Forall_forall in IH, Hwf |- *. intros d Hd.
  destruct (Hwf d Hd). split; [done |]. intros b h. by apply IH.
Qed.

Lemma instantiate_Composite_spec parent builder heimdall c heimdall' :
  instantiate (Composite parent) builder heimdall = Ok (c, heimdall') ->
  exists ev cs,
    c = Circuit Circuit_Init ev cs parent /\
    length cs = length (commands parent) /\
    (forall k i o, registers (commands parent) k i o ->
       exists child g, cs !! k = Some child /\
         getOutput child (Z.of_nat i) = Ok g /\ ev !! o = Some g) /\
    (forall o g, ev !! o = Some g -> exists k i, registers (commands parent) k i o) /\
    (forall k1 i1 k2 i2 o,
       registers (commands parent) k1 i1 o ->
       registers (commands parent) k2 i2 o -> k1 = k2 /\ i1 = i2).
Proof.
  destruct parent as [cmds s ins outs n t]. simpl. intros H.
  apply Circuit_new_from_spec in H
    as (ev & cs & -> & Hlen & _ & Hnew & Honly & Hdist).
  exists ev, cs. simpl. split_and!; try done.
  - intros k i o Hreg. destruct (Hnew _ _ _ Hreg) as (child & g & ? & ? & ? & _).
    by exists child, g.
  - intros o g Ho. by destruct (Honly _ _ Ho) as [Hin | ?].
Qed.

Lemma registers_well_formed parent k cmd i o :
  well_formed (Composite parent) ->
  commands parent !! k = Some cmd -> outputs cmd !! i = Some o ->
  registers (commands parent) k i o.
Proof.
  intros Hwf Hk Ho. exists cmd. split_and!; try done.
  apply well_formed_Composite in Hwf. rewrite Forall_lookup in Hwf.
  destruct (Hwf _ _ Hk) as [Hok _]. unfold placement_ok in Hok.
  apply andb_prop_elim in Hok as [_ Hok]. apply bool_decide_unpack in Hok.
  rewrite Hok. by eapply lookup_lt_Some.
Qed.

(** C8.  In a composite built through [addPrototype], if two placements
    declare the same output-net name, [instantiate] fails an assertion: the
    second registration of the name is rejected, it neither replaces the
    first binding nor is it dropped. *)
Theorem duplicate_output_net_rejected parent builder heimdall k1 k2 cmd1 cmd2 o :
  well_formed (Composite parent) ->
  commands parent !! k1 = Some cmd1 ->
  commands parent !! k2 = Some cmd2 ->
  k1 <> k2 ->
  o ∈ outputs cmd1 ->
  o ∈ outputs cmd2 ->
  instantiate (Composite parent) builder heimdall = Err AssertionFailed.
Proof.
  intros Hwf Hk1 Hk2 Hne Ho1 Ho2.
  apply list_elem_of_lookup in Ho1 as [i1 Ho1], Ho2 as [i2 Ho2].
  destruct (instantiate (Composite parent) builder heimdall) as [[c h'] | e] eqn:H.
  - apply instantiate_Composite_spec in H as (ev & cs & _ & _ & _ & _ & Hdist).
    destruct (Hdist k1 i1 k2 i2 o); [| | done]; by eapply registers_well_formed.
  - f_equal. by eapply instantiate_Err.
Qed.

Lemma duplicate_output_net_rejected_witness :
  instantiate
    (Composite
       (Build_CompositePrototype
          [Build_ChildData lowPrototype [] ["a"] "";
           Build_ChildData lowPrototype [] ["a"] ""]
          Finalized [] ["a"] 2 "twice"))
    emptyName []
  = Err AssertionFailed.
Proof.
  apply (duplicate_output_net_rejected _ emptyName [] 0 1
           (Build_ChildData lowPrototype [] ["a"] "")
           (Build_ChildData lowPrototype [] ["a"] "") "a");
    [exact I | reflexivity | reflexivity | discriminate
    | apply list_elem_of_here | apply list_elem_of_here].
Defined.

(** The build-time API only makes well-formed prototypes. *)
Lemma CompositePrototype_new_well_formed name ins outs :
  well_formed (Composite (CompositePrototype_new name ins outs)).
Proof. exact I. Qed.

Lemma addPrototype_well_formed self cmd ins outs childName self' :
  well_formed (Composite self) -> well_formed cmd ->
  addPrototype self cmd ins outs childName = Ok self' ->
  well_formed (Composite self').
Proof.
  intros Hself Hcmd H. unfold addPrototype in H.
  apply bindR_Ok in H as (? & Hfin%assert_Ok & H).
  apply bindR_Ok in H as (? & Hin%assert_Ok & H).
  apply bindR_Ok in H as (? & Hout%assert_Ok & H).
  apply bindR_Ok in H as (? & _ & H).
  injection H as <-. destruct self as [cmds s i o n t]. simpl in *.
  apply Is_true_true. rewrite forallb_app. apply Is_true_true in Hself.
  rewrite Hself. simpl. unfold placement_ok. simpl.
  rewrite Hfin, Hin, Hout. simpl. by rewrite (Is_true_true_1 _ Hcmd).
Qed.

Lemma finalize_well_formed self self' :
  well_formed (Composite self) -> finalize self = Ok self' ->
  well_formed (Composite self').
Proof.
  intros Hself H. unfold finalize in H.
  apply bindR_Ok in H as (? & _ & H). injection H as <-. by destruct self.
Qed.

(** ** Ownership of gates *)

Lemma in_range_mono lo hi lo' hi' g :
  lo' <= lo -> hi <= hi' -> in_range lo hi g -> in_range lo' hi' g.
Proof. intros ?? (a & -> & ?). exists a. split; [done | lia]. Qed.

Lemma Circuit_new_from_allocates inst builder parent cmds ev cs heimdall c heimdall' :
  Forall (fun d => forall b h c h',
            inst (proto d) b h = Ok (c, h') -> allocates h c h') cmds ->
  Circuit_new_from inst builder parent cmds ev cs heimdall = Ok (c, heimdall') ->
  exists ev' new,
    c = Circuit Circuit_Init ev' (cs ++ new) parent /\
    length heimdall <= length heimdall' /\
    Forall (fun child =>
              Forall (in_range (length heimdall) (length heimdall'))
                (gates_of child)) new /\
    disjoint_gates new.
Proof.
  intros Hall. revert ev cs heimdall.
  induction Hall as [| [x ins outs childId] cmds Hx _ IH];
    intros ev cs heimdall; simpl.
  - intros [= <- <-]. exists ev, []. rewrite app_nil_r.
    split_and!; [done | done | done |].
    intros k1 k2 c1 c2 g _ Hk1. by rewrite lookup_nil in Hk1.
  - intros H. apply bindR_Ok in H as ([child h1] & Hr & H).
    apply bindR_Ok in H as (ev1 & _ & H). simpl in *.
    apply Hx in Hr as [Hle1 Hchild].
    apply IH in H as (ev' & new & -> & Hle & Hnew & Hdisj).
    exists ev', (child :: new). rewrite <- app_assoc. simpl.
    split_and!; [done | lia | |].
    + constructor.
      * eapply Forall_impl; [exact Hchild |].
        intros g. apply in_range_mono; lia.
      * eapply Forall_impl; [exact Hnew |]. intros c' Hc'.
        eapply Forall_impl; [exact Hc' |]. intros g. apply in_range_mono; lia.
    + assert (forall k c' g, new !! k = Some c' -> g ∈ gates_of child ->
                g ∉ gates_of c') as Hhead.
      { intros k c' g Hk Hg Hg'.
        rewrite Forall_forall in Hchild. destruct (Hchild _ Hg) as (a & -> & ?).
        rewrite Forall_lookup in Hnew. specialize (Hnew _ _ Hk).
        rewrite Forall_forall in Hnew. destruct (Hnew _ Hg') as (a' & [= <-] & ?).
        lia. }
      intros [| k1] [| k2] c1 c2 g Hne Hk1 Hk2 Hg; simplify_eq/=.
      * by eapply Hhead.
      * intros Hg'. by eapply Hhead.
      * apply (Hdisj k1 k2 c1 c2 g); [congruence | done | done | done].
Qed.

Lemma instantiate_allocates p builder heimdall c heimdall' :
  instantiate p builder heimdall = Ok (c, heimdall') ->
  allocates heimdall c heimdall'.
Proof.
  revert builder heimdall c heimdall'.
  induction p as [T | name | parent IH] using IPrototype_nested_ind;
    intros builder heimdall c heimdall'.
  - intros [= <- <-]. unfold allocates, addGate. rewrite length_app. simpl.
    split; [lia |]. constructor; [| done]. exists (length heimdall). split; [done | lia].
  - intros [= <- <-]. unfold allocates, addGate. rewrite length_app. simpl.
    split; [lia |]. constructor; [| done]. exists (length heimdall). split; [done | lia].
  - destruct parent as [cmds s ins outs n t]. simpl in *. intros H.
    apply Circuit_new_from_allocates in H as (ev & new & -> & Hle & Hnew & _);
      [| eapply Forall_impl; [exact IH |]; simpl; by eauto].
    split; [done |]. simpl. apply Forall_flat_map.
    rewrite Forall_forall in Hnew |- *. intros c' Hc'. by apply Hnew.
Qed.

Lemma instantiate_Composite_disjoint parent builder heimdall st ev cs parent' heimdall' :
  instantiate (Composite parent) builder heimdall
  = Ok (Circuit st ev cs parent', heimdall') ->
  disjoint_gates cs.
Proof.
  destruct parent as [cmds s ins outs n t]. simpl. intros H.
  apply Circuit_new_from_allocates in H as (ev' & new & Heq & _ & _ & Hdisj).
  - by simplify_eq/=.
  - apply Forall_forall. intros d _ b h c h'. apply instantiate_allocates.
Qed.

Lemma GateCircuit_link_frames g args heimdall r heimdall' :
  GateCircuit_link g args heimdall = (r, heimdall') ->
  length heimdall' = length heimdall /\
  forall a, ptr a <> g -> heimdall' !! a = heimdall !! a.
Proof.
  unfold GateCircuit_link. destruct g as [| k]; [by intros [= <- <-] |].
  destruct (heimdall !! k) as [[name gate] |]; [| by intros [= <- <-]].
  case_bool_decide; [| by intros [= <- <-]].
  destruct (for_loop _ _ _ _) as [gate' | e]; intros [= <- <-]; [| done].
  rewrite length_insert. split; [done |].
  intros a Ha. apply list_lookup_insert_ne. congruence.
Qed.

Lemma link_children_frames link parent i cs ev heimdall r heimdall' :
  Forall (frames link) cs ->
  link_children link parent i cs ev heimdall = (r, heimdall') ->
  length heimdall' = length heimdall /\
  forall a, ptr a ∉ flat_map gates_of cs -> heimdall' !! a = heimdall !! a.
Proof.
  intros Hall. revert i ev heimdall r heimdall'.
  induction Hall as [| c cs Hc _ IH]; intros i ev heimdall r heimdall'; simpl.
  - by intros [= <- <-].
  - destruct (commands parent !! i) as [desc |]; [| by intros [= <- <-]].
    destruct (link c _ heimdall) as [[c' | e] h1] eqn:Hlink;
      apply Hc in Hlink as [Hlen1 Hsame1].
    + destruct (link_children _ _ _ _ _ h1) as [[r' | e] h2] eqn:Hrest;
        apply IH in Hrest as [Hlen2 Hsame2]; intros [= <- <-];
        (split; [congruence |]); intros a Ha;
        rewrite elem_of_app in Ha;
        (rewrite Hsame2, Hsame1; [done | tauto | tauto]).
    + intros [= <- <-]. split; [done |]. intros a Ha. apply Hsame1.
      rewrite elem_of_app in Ha. tauto.
Qed.

Lemma link_frames c : frames link c.
Proof.
  induction c as [g | st ev cs parent IH] using ICircuit_nested_ind;
    intros args heimdall r heimdall'; simpl.
  - intros H. apply GateCircuit_link_frames in H as [Hlen Hsame].
    split; [done |]. intros a Ha. apply Hsame. set_solver.
  - repeat case_bool_decide; try by intros [= <- <-].
    destruct (for_loop _ _ _ _) as [ev' | e]; [| by intros [= <- <-]].
    destruct (link_children _ _ _ _ _ _) as [[r' | e] h] eqn:Hrest;
      apply link_children_frames in Hrest; try done; by intros [= <- <-].
Qed.

(** ** Linking a fresh instance succeeds *)

Lemma instance_of_mono ar ext p c :
  instance_of ar p c -> instance_of (ar ++ ext) p c.
Proof.
  revert c. induction p as [T | name | parent IH] using IPrototype_nested_ind;
    intros c H; inversion H; subst.
  - constructor. by apply lookup_app_l_Some.
  - constructor. by apply lookup_app_l_Some.
  - constructor. apply Forall2_same_length_lookup.
    split; [by eapply Forall2_length |]. intros i d c' Hd Hc'.
    rewrite Forall_lookup in IH. eapply IH; [done |].
    match goal with
    | HF : Forall2 _ _ _ |- _ => exact (Forall2_lookup_lr _ _ _ _ _ _ HF Hd Hc')
    end.
Qed.

Lemma arities_addGate name gate heimdall :
  arities (addGate name gate heimdall) = arities heimdall ++ [getNumInputs gate].
Proof. unfold arities, addGate. by rewrite fmap_app. Qed.

Lemma GateCircuit_new_instance gate builder heimdall :
  (arities (GateCircuit_new gate builder heimdall).2) !! length heimdall
  = Some (getNumInputs gate).
Proof.
  simpl. rewrite arities_addGate. unfold arities.
  rewrite lookup_app_r; rewrite length_fmap; [| lia].
  by rewrite Nat.sub_diag.
Qed.

Lemma Circuit_new_from_instance inst builder parent cmds ev cs heimdall c heimdall' :
  Forall (fun d => forall b h c h',
            inst (proto d) b h = Ok (c, h') -> instantiates (proto d) h c h')
    cmds ->
  Circuit_new_from inst builder parent cmds ev cs heimdall = Ok (c, heimdall') ->
  exists ev' new,
    c = Circuit Circuit_Init ev' (cs ++ new) parent /\
    (exists ext, heimdall' = heimdall ++ ext) /\
    Forall2 (fun d c => instance_of (arities heimdall') (proto d) c) cmds new.
Proof.
  intros Hall. revert ev cs heimdall.
  induction Hall as [| [x ins outs childId] cmds Hx _ IH];
    intros ev cs heimdall; simpl.
  - intros [= <- <-]. exists ev, []. rewrite app_nil_r.
    split_and!; [done | by exists []; rewrite app_nil_r | constructor].
  - intros H. apply bindR_Ok in H as ([child h1] & Hr & H).
    apply bindR_Ok in H as (ev1 & _ & H). simpl in *.
    apply Hx in Hr as [[ext1 ->] Hchild].
    apply IH in H as (ev' & new & -> & [ext ->] & Hnew).
    exists ev', (child :: new). rewrite <- (app_assoc cs). simpl.
    split_and!; [done | exists (ext1 ++ ext); by rewrite app_assoc |].
    constructor; [| done].
    simpl. unfold arities in *. rewrite fmap_app. by apply instance_of_mono.
Qed.

Lemma instantiate_instantiates p builder heimdall c heimdall' :
  instantiate p builder heimdall = Ok (c, heimdall') ->
  instantiates p heimdall c heimdall'.
Proof.
  revert builder heimdall c heimdall'.
  induction p as [T | name | parent IH] using IPrototype_nested_ind;
    intros builder heimdall c heimdall'.
  - intros H. injection H as <- <-. split; [by eexists |].
    constructor. apply GateCircuit_new_instance.
  - intros H. injection H as <- <-. split; [by eexists |].
    constructor. apply (GateCircuit_new_instance (TickOutputOnly nullptr 0 name)).
  - destruct parent as [cmds s ins outs n t]. simpl in *. intros H.
    apply Circuit_new_from_instance in H as (ev & new & -> & Hext & Hnew);
      [| eapply Forall_impl; [exact IH |]; simpl; by eauto].
    split; [done |]. by constructor.
Qed.

Lemma store_inputs_arity g args g' :
  for_loop (length args) 0 (store_input args) g = Ok g' ->
  getNumInputs g' = getNumInputs g.
Proof.
  destruct g; destruct args as [| a0 [| a1 [| a2 args]]]; simpl;
    intros H; by simplify_eq.
Qed.

Lemma GateCircuit_link_arities g args heimdall r heimdall' :
  GateCircuit_link g args heimdall = (r, heimdall') ->
  arities heimdall' = arities heimdall.
Proof.
  unfold GateCircuit_link. destruct g as [| k]; [by intros [= <- <-] |].
  destruct (heimdall !! k) as [[name gate] |] eqn:Hk; [| by intros [= <- <-]].
  case_bool_decide; [| by intros [= <- <-]].
  destruct (for_loop _ _ _ _) as [gate' | e] eqn:Hstore; intros [= <- <-]; [| done].
  unfold arities. rewrite list_fmap_insert. simpl.
  rewrite (store_inputs_arity _ _ _ Hstore). apply list_insert_id.
  by rewrite list_lookup_fmap, Hk.
Qed.

Lemma link_children_arities link parent i cs ev heimdall r heimdall' :
  Forall (fun c => forall args h r h',
            link c args h = (r, h') -> arities h' = arities h) cs ->
  link_children link parent i cs ev heimdall = (r, heimdall') ->
  arities heimdall' = arities heimdall.
Proof.
  intros Hall. revert i ev heimdall r heimdall'.
  induction Hall as [| c cs Hc _ IH]; intros i ev heimdall r heimdall'; simpl.
  - by intros [= <- <-].
  - destruct (commands parent !! i) as [desc |]; [| by intros [= <- <-]].
    destruct (link c _ heimdall) as [[c' | e] h1] eqn:Hlink;
      apply Hc in Hlink; [| by intros [= <- <-]].
    destruct (link_children _ _ _ _ _ h1) as [[r' | e] h2] eqn:Hrest;
      apply IH in Hrest; intros [= <- <-]; congruence.
Qed.

Lemma link_arities c args heimdall r heimdall' :
  link c args heimdall = (r, heimdall') -> arities heimdall' = arities heimdall.
Proof.
  revert args heimdall r heimdall'.
  induction c as [g | st ev cs parent IH] using ICircuit_nested_ind;
    intros args heimdall r heimdall'; simpl.
  - apply GateCircuit_link_arities.
  - repeat case_bool_decide; try by intros [= <- <-].
    destruct (for_loop _ _ _ _) as [ev' | e]; [| by intros [= <- <-]].
    destruct (link_children _ _ _ _ _ _) as [[r' | e] h] eqn:Hrest;
      apply link_children_arities in Hrest; try done; by intros [= <- <-].
Qed.

Lemma resolve_length ins (ev : gmap string IGatePtr) :
  length (resolve ins ev).1 = length ins.
Proof.
  revert ev. induction ins as [| n ins IH]; intros ev; simpl; [done |].
  by rewrite IH.
Qed.

Lemma insert_outer_Ok parent args n from (ev : gmap string IGatePtr) :
  from + n <= length (outer_input_ids parent) ->
  from + n <= length args ->
  exists ev', for_loop n from (insert_outer parent args) ev = Ok ev'.
Proof.
  revert from ev. induction n as [| n IH]; intros from ev H1 H2; simpl;
    [by eexists |].
  unfold insert_outer at 1.
  destruct (lookup_lt_is_Some_2 (outer_input_ids parent) from) as [k ->]; [lia |].
  destruct (lookup_lt_is_Some_2 args from) as [a ->]; [lia |].
  simpl. apply IH; lia.
Qed.

Lemma GateCircuit_link_Ok a n args heimdall :
  arities heimdall !! a = Some n -> length args = n ->
  exists heimdall',
    GateCircuit_link (ptr a) args heimdall = (Ok (GateCircuit (ptr a)), heimdall').
Proof.
  unfold arities, GateCircuit_link. rewrite list_lookup_fmap.
  destruct (heimdall !! a) as [[name gate] |]; simpl; [| done].
  intros [= <-] Hlen. rewrite bool_decide_eq_true_2 by done.
  destruct (store_inputs_Ok gate args Hlen) as (gate' & -> & _). by eexists.
Qed.

Lemma link_children_Ok parent ar cmds cs :
  Forall2 (fun d c => instance_of ar (proto d) c) cmds cs ->
  Forall (fun d => placement_ok d /\
            forall c args h, instance_of (arities h) (proto d) c ->
              length args = IPrototype_getNumInputs (proto d) ->
              exists c2 h2, link c args h = (Ok c2, h2)) cmds ->
  forall i ev heimdall,
    arities heimdall = ar ->
    (forall k, commands parent !! (i + k) = cmds !! k) ->
    exists r heimdall',
      link_children link parent i cs ev heimdall = (Ok r, heimdall').
Proof.
  intros Hinst.
  induction Hinst as [| d c cmds cs Hc _ IH]; intros Hall i ev heimdall Har Hcmds;
    simpl; [by eauto |].
  pose proof (Hcmds 0) as H0. rewrite Nat.add_0_r in H0. simpl in H0. rewrite H0.
  apply Forall_cons_1 in Hall as [[Hok Hd] Hall]. subst ar.
  destruct (Hd c (resolve (inputs d) ev).1 heimdall Hc) as (c2 & h2 & Hlink).
  { rewrite resolve_length. unfold placement_ok in Hok.
    apply andb_prop_elim in Hok as [Hok _].
    apply andb_prop_elim in Hok as [_ Hok]. by apply bool_decide_unpack in Hok. }
  rewrite Hlink. pose proof (link_arities _ _ _ _ _ Hlink) as Har.
  destruct (IH Hall (S i) (resolve (inputs d) ev).2 h2 Har) as (r & h3 & ->).
  { intros k. by replace (S i + k) with (i + S k) by lia. }
  by eauto.
Qed.

(** A fresh instance of a prototype built through [addPrototype], linked to
    as many handles as the prototype has inputs: [link] returns normally. *)
Lemma link_instance_Ok p :
  well_formed p ->
  forall c args heimdall,
    instance_of (arities heimdall) p c ->
    length args = IPrototype_getNumInputs p ->
    exists c2 heimdall2, link c args heimdall = (Ok c2, heimdall2).
Proof.
  induction p as [T | name | parent IH] using IPrototype_nested_ind;
    intros Hwf c args heimdall Hinst Hlen; inversion Hinst as [? a Ha | ? a Ha |];
    subst.
  - destruct (GateCircuit_link_Ok _ _ args _ Ha Hlen) as [h Hh]. by eauto.
  - destruct (GateCircuit_link_Ok _ _ args _ Ha Hlen) as [h Hh]. by eauto.
  - simpl in *. rewrite !bool_decide_eq_true_2 by done.
    destruct (insert_outer_Ok parent args (length args) 0 ev) as [ev1 ->];
      [lia | lia |].
    apply well_formed_Composite in Hwf.
    edestruct (link_children_Ok parent) as (r & h & ->); [done | | done | done |].
    + rewrite Forall_forall in IH, Hwf |- *. intros d Hd.
      destruct (Hwf d Hd). split; [done |]. by apply IH.
    + by eauto.
Qed.

Lemma link_returns p builder heimdall c heimdall1 args :
  well_formed p ->
  instantiate p builder heimdall = Ok (c, heimdall1) ->
  length args = IPrototype_getNumInputs p ->
  exists c2 heimdall2, link c args heimdall1 = (Ok c2, heimdall2).
Proof.
  intros Hwf Hinst Hlen. apply instantiate_instantiates in Hinst as [_ Hinst].
  by eapply link_instance_Ok.
Qed.

(** ** Linking: resolution of net names *)

Lemma resolve_spec ins (ev : gmap string IGatePtr) :
  (forall o g, ev !! o = Some g -> (resolve ins ev).2 !! o = Some g) /\
  (forall j n g, ins !! j = Some n -> ev !! n = Some g ->
     (resolve ins ev).1 !! j = Some g).
Proof.
  revert ev. induction ins as [| n' ins IH]; intros ev; simpl; [done |].
  destruct (IH (umap_index n' ev).2) as [Hkeep Hfind]. split.
  - intros o g Ho. by apply Hkeep, umap_index_keeps.
  - intros [| j] n g Hj Hn; simplify_eq/=.
    + by rewrite (umap_index_found _ _ _ Hn).
    + eapply Hfind; [done |]. by apply umap_index_keeps.
Qed.

Lemma insert_outer_keeps parent args n from (ev ev' : gmap string IGatePtr) :
  for_loop n from (insert_outer parent args) ev = Ok ev' ->
  forall o g, ev !! o = Some g -> ev' !! o = Some g.
Proof.
  revert from ev. induction n as [| n IH]; intros from ev; simpl.
  - by intros [= <-].
  - intros H o g Ho. apply bindR_Ok in H as (ev1 & H1 & H).
    eapply IH; [done |]. unfold insert_outer in H1.
    destruct (outer_input_ids parent !! from), (args !! from); simplify_eq.
    by apply umap_insert_keeps.
Qed.

Lemma disjoint_gates_tail c cs : disjoint_gates (c :: cs) -> disjoint_gates cs.
Proof.
  intros H k1 k2 c1 c2 g Hne Hk1 Hk2.
  apply (H (S k1) (S k2)); [congruence | done | done].
Qed.

Lemma disjoint_gates_head c cs g :
  disjoint_gates (c :: cs) -> g ∈ gates_of c -> g ∉ flat_map gates_of cs.
Proof.
  intros H Hg Hin. apply list_elem_of_In, in_flat_map in Hin as (c2 & Hc2 & Hin).
  apply list_elem_of_In, list_elem_of_lookup in Hc2 as [k2 Hk2].
  apply list_elem_of_In in Hin.
  by apply (H 0 (S k2) c c2 g).
Qed.

Lemma insert_outer_spec parent args n from (ev ev' : gmap string IGatePtr) :
  for_loop n from (insert_outer parent args) ev = Ok ev' ->
  forall j m g,
    from <= j < from + n ->
    outer_input_ids parent !! j = Some m ->
    args !! j = Some g ->
    ev !! m = None ->
    (forall j', from <= j' < j -> outer_input_ids parent !! j' <> Some m) ->
    ev' !! m = Some g.
Proof.
  revert from ev. induction n as [| n IH]; intros from ev; simpl; [lia |].
  intros H j m g Hj Hm Hg Hfree Hfirst.
  apply bindR_Ok in H as (ev1 & H1 & H). unfold insert_outer in H1.
  destruct (outer_input_ids parent !! from) as [k |] eqn:Hk; [| done].
  destruct (args !! from) as [a |] eqn:Ha; [| done].
  injection H1 as <-. destruct (decide (j = from)) as [-> | Hne].
  - simplify_eq. eapply insert_outer_keeps; [done |].
    rewrite umap_insert_fresh by done. apply lookup_insert_eq.
  - eapply (IH (S from)); try done; [lia | | intros j' ?; apply Hfirst; lia].
    assert (k <> m) by (intros ->; apply (Hfirst from); [lia | done]).
    unfold umap_insert. destruct (ev !! k); [done |].
    by rewrite lookup_insert_ne.
Qed.

Lemma link_children_keeps link parent cs i ev heimdall r heimdall' :
  link_children link parent i cs ev heimdall = (Ok r, heimdall') ->
  length r.1 = length cs /\
  forall o g, ev !! o = Some g -> r.2 !! o = Some g.
Proof.
  revert i ev heimdall r heimdall'.
  induction cs as [| c cs IH]; intros i ev heimdall r heimdall'; simpl.
  - by intros [= <- <-].
  - destruct (commands parent !! i) as [desc |]; [| discriminate].
    destruct (link c _ heimdall) as [[c' | e] h1]; [| discriminate].
    destruct (link_children _ _ _ _ _ h1) as [[r' | e] h2] eqn:Hrest;
      [| discriminate].
    intros [= <- <-]. apply IH in Hrest as [Hlen Hkeep]. simpl.
    split; [by rewrite Hlen |]. intros o g Ho.
    by apply Hkeep, resolve_spec.
Qed.

(** After the loop over the children, every child has received, as its
    [j]-th input, the handle that the table held, when the loop started, for
    the [j]-th input name of its placement. *)
Lemma link_children_wires parent cs i ev heimdall r heimdall' :
  link_children link parent i cs ev heimdall = (Ok r, heimdall') ->
  disjoint_gates cs ->
  forall k cmd j n g,
    commands parent !! (i + k) = Some cmd ->
    inputs cmd !! j = Some n ->
    ev !! n = Some g ->
    receives (cs !! k) (r.1 !! k) heimdall' j g.
Proof.
  revert i ev heimdall r heimdall'.
  induction cs as [| c cs IH]; intros i ev heimdall r heimdall' H Hdisj;
    [intros k; by rewrite lookup_nil |].
  simpl in H.
  destruct (commands parent !! i) as [desc |] eqn:Hdesc; [| discriminate].
  destruct (resolve_spec (inputs desc) ev) as [Hkeep Hfind].
  destruct (link c _ heimdall) as [[c' | e] h1] eqn:Hlink; [| discriminate].
  destruct (link_children _ _ _ _ _ h1) as [[r' | e] h2] eqn:Hrest;
    [| discriminate].
  injection H as <- <-.
  intros [| k] cmd j n g Hcmd Hj Hn; simpl.
  - rewrite Nat.add_0_r in Hcmd. simplify_eq.
    specialize (Hfind _ _ _ Hj Hn).
    destruct c as [[| a] | st evc csc pc]; simpl in *; [done | |].
    + destruct (heimdall !! a) as [[name gate] |] eqn:Ha; [| discriminate].
      case_bool_decide; [| discriminate].
      destruct (for_loop _ _ _ _) as [gate' |] eqn:Hstore; [| discriminate].
      injection Hlink as <- <-. exists name, gate'. split.
      * apply link_children_frames in Hrest as [_ Hsame];
          [| apply Forall_forall; intros ? _; apply link_frames].
        rewrite Hsame.
        -- apply list_lookup_insert_eq. by eapply lookup_lt_Some.
        -- eapply disjoint_gates_head; [done |]. set_solver.
      * by eapply store_inputs_spec.
    + intros m Hm Hfree Hfirst.
      repeat case_bool_decide; try discriminate.
      destruct (for_loop _ _ _ _) as [ev1 |] eqn:Hev1; [| discriminate].
      destruct (link_children _ _ _ _ _ heimdall) as [[rc |] h] eqn:Hinner;
        [| discriminate].
      injection Hlink as <- <-. exists rc.2, rc.1. split; [done |].
      apply link_children_keeps in Hinner as [_ Hinner]. apply Hinner.
      eapply insert_outer_spec; try done.
      * apply lookup_lt_Some in Hfind. lia.
      * intros j' ?. apply Hfirst. lia.
  - eapply (IH (S i)); try done.
    + by eapply disjoint_gates_tail.
    + by replace (S i + k) with (i + S k) by lia.
    + by apply Hkeep.
Qed.

(** C6.  After [instantiate] of a composite built through [addPrototype],
    the table of the scope binds every output-net name of every placement to
    the corresponding output handle of that placement's circuit, whatever
    the position of the placement.  Hence, once [link] has run, a placement
    whose [j]-th input names a net produced in the scope has received, as
    its [j]-th input, the output handle of the producing placement, be that
    placement declared before or after it. *)
Theorem nets_visible_in_any_order parent builder heimdall c heimdall1 :
  well_formed (Composite parent) ->
  instantiate (Composite parent) builder heimdall = Ok (c, heimdall1) ->
  exists ev cs,
    c = Circuit Circuit_Init ev cs parent /\
    length cs = length (commands parent) /\
    (forall k cmd i o,
       commands parent !! k = Some cmd -> outputs cmd !! i = Some o ->
       exists child g,
         cs !! k = Some child /\ getOutput child (Z.of_nat i) = Ok g /\
         ev !! o = Some g) /\
    (forall args,
       length args = length (outer_input_ids parent) ->
       exists ev2 cs2 heimdall2,
         link c args heimdall1 = (Ok (Circuit Linked ev2 cs2 parent), heimdall2) /\
         forall k cmd j n k' cmd' i,
           commands parent !! k = Some cmd ->
           inputs cmd !! j = Some n ->
           commands parent !! k' = Some cmd' ->
           outputs cmd' !! i = Some n ->
           exists child' g,
             cs !! k' = Some child' /\
             getOutput child' (Z.of_nat i) = Ok g /\
             receives (cs !! k) (cs2 !! k) heimdall2 j g).
Proof.
  intros Hwf Hinst.
  destruct (instantiate_Composite_spec _ _ _ _ _ Hinst)
    as (ev & cs & -> & Hlen & Hnew & _ & _).
  pose proof (instantiate_Composite_disjoint _ _ _ _ _ _ _ _ Hinst) as Hdisj.
  exists ev, cs. split_and!; [done | done | |].
  - intros k cmd i o Hk Ho.
    by eapply Hnew, registers_well_formed.
  - intros args Hargs.
    destruct (link_returns _ _ _ _ _ args Hwf Hinst Hargs)
      as (c2 & heimdall2 & Hlink).
    rewrite Hlink. simpl in Hlink. repeat case_bool_decide; try discriminate.
    destruct (for_loop _ _ _ _) as [ev1 |] eqn:Hev1; [| discriminate].
    destruct (link_children _ _ _ _ _ _) as [[r |] h] eqn:Hrest; [| discriminate].
    injection Hlink as <- <-. exists r.2, r.1, h. split; [done |].
    intros k cmd j n k' cmd' i Hk Hj Hk' Ho.
    destruct (Hnew k' i n) as (child' & g & Hc' & Hg & Hev);
      [by eapply registers_well_formed |].
    exists child', g. split_and!; [done | done |].
    eapply (link_children_wires _ _ 0); try done.
    by eapply insert_outer_keeps.
Qed.

Lemma nets_visible_in_any_order_witness :
  exists name gate,
    [("[loop] [register] ", Register (ptr 1) false false);
     ("[loop] [nand] ", Nand (ptr 0) (ptr 0))] !! 0 = Some (name, gate) /\
    getInput gate 0 = Ok (ptr 1).
Proof.
  pose (parent :=
    Build_CompositePrototype
      [Build_ChildData registerPrototype ["in"] ["out"] "";
       Build_ChildData nandPrototype ["out"; "out"] ["in"] ""]
      Finalized [] ["out"] 2 "loop").
  eassert (instantiate (Composite parent) emptyName [] = Ok _) as Hinst
    by (vm_compute; reflexivity).
  destruct (nets_visible_in_any_order parent _ _ _ _ I Hinst)
    as (ev & cs & Heq & _ & _ & Hlink).
  injection Heq as <- <-.
  destruct (Hlink [] eq_refl) as (ev2 & cs2 & heimdall2 & Hl & Hwired).
  destruct (Hwired 0 _ 0 "in" 1 _ 0 eq_refl eq_refl eq_refl eq_refl)
    as (child' & g & Hchild & Hg & Hgate).
  vm_compute in Hl. injection Hl as <- <- <-.
  injection Hchild as <-. injection Hg as <-.
  exact Hgate.
Defined.

(** ** Two runs in separate keepers *)

Lemma agree_bind {A B} (R : A -> A -> Prop) (R' : B -> B -> Prop)
    (r1 r2 : Result A) (k1 k2 : A -> Result B) :
  agree R r1 r2 ->
  (forall a1 a2, R a1 a2 -> agree R' (k1 a1) (k2 a2)) ->
  agree R' (bindR r1 k1) (bindR r2 k2).
Proof. destruct r1, r2; simpl; try done. intros H Hk. by apply Hk. Qed.

Lemma agree_eq {A} (r : Result A) : agree eq r r.
Proof. by destruct r. Qed.

Lemma for_loop_agree {St} (R : St -> St -> Prop) n from
    (body1 body2 : nat -> St -> Result St) s1 s2 :
  (forall i s1 s2, R s1 s2 -> agree R (body1 i s1) (body2 i s2)) ->
  R s1 s2 ->
  agree R (for_loop n from body1 s1) (for_loop n from body2 s2).
Proof.
  intros Hbody. revert from s1 s2.
  induction n as [| n IH]; intros from s1 s2 HR; simpl; [done |].
  eapply agree_bind; [by apply Hbody | intros; by apply IH].
Qed.

Lemma same_gates_length h1 h2 : same_gates h1 h2 -> length h1 = length h2.
Proof.
  intros H. by rewrite <- (length_fmap snd h1), <- (length_fmap snd h2), H.
Qed.

Lemma same_gates_lookup h1 h2 i :
  same_gates h1 h2 -> snd <$> (h1 !! i) = snd <$> (h2 !! i).
Proof. intros H. by rewrite <- !list_lookup_fmap, H. Qed.

Lemma same_gates_committed h1 h2 :
  same_gates h1 h2 ->
  (committed ∘ snd) <$> h1 = (committed ∘ snd) <$> h2.
Proof. intros H. by rewrite !list_fmap_compose, H. Qed.

Lemma same_gates_insert h1 h2 i n1 n2 g :
  same_gates h1 h2 -> same_gates (<[i := (n1, g)]> h1) (<[i := (n2, g)]> h2).
Proof. unfold same_gates. intros H. by rewrite !list_fmap_insert, H. Qed.

Lemma same_gates_addGate h1 h2 b1 b2 g :
  same_gates h1 h2 -> same_gates (addGate b1 g h1) (addGate b2 g h2).
Proof. unfold same_gates, addGate. intros H. by rewrite !fmap_app, H. Qed.

Lemma GateCircuit_new_agree g b1 b2 h1 h2 :
  same_gates h1 h2 ->
  same_instance (GateCircuit_new g b1 h1) (GateCircuit_new g b2 h2).
Proof.
  intros H. split; simpl.
  - by rewrite (same_gates_length _ _ H).
  - by apply same_gates_addGate.
Qed.

Lemma Circuit_new_from_agree inst b1 b2 parent cmds ev cs h1 h2 :
  Forall (fun d => forall b1 b2 h1 h2, same_gates h1 h2 ->
            agree same_instance (inst (proto d) b1 h1) (inst (proto d) b2 h2))
    cmds ->
  same_gates h1 h2 ->
  agree same_instance
    (Circuit_new_from inst b1 parent cmds ev cs h1)
    (Circuit_new_from inst b2 parent cmds ev cs h2).
Proof.
  intros Hall. revert ev cs h1 h2.
  induction Hall as [| [x ins outs childId] cmds Hx _ IH];
    intros ev cs h1 h2 Hh; simpl; [done |].
  eapply agree_bind; [by apply Hx |].
  intros [c1 k1] [c2 k2] [Hc Hk]. simpl in *. subst c2.
  eapply agree_bind; [apply agree_eq |]. intros ev1 ? <-. by apply IH.
Qed.

Lemma instantiate_agree p b1 b2 h1 h2 :
  same_gates h1 h2 ->
  agree same_instance (instantiate p b1 h1) (instantiate p b2 h2).
Proof.
  revert b1 b2 h1 h2.
  induction p as [T | name | parent IH] using IPrototype_nested_ind;
    intros b1 b2 h1 h2 Hh.
  - by apply GateCircuit_new_agree.
  - by apply GateCircuit_new_agree.
  - destruct parent as [cmds s ins outs n t]. simpl in *.
    by apply Circuit_new_from_agree.
Qed.

Lemma GateCircuit_link_agree g args h1 h2 :
  same_gates h1 h2 ->
  same_link (GateCircuit_link g args h1) (GateCircuit_link g args h2).
Proof.
  intros Hh. unfold GateCircuit_link. destruct g as [| k]; [done |].
  pose proof (same_gates_lookup _ _ k Hh) as Hk.
  destruct (h1 !! k) as [[n1 g1] |], (h2 !! k) as [[n2 g2] |];
    simplify_eq/=; try done.
  case_bool_decide; [| done].
  destruct (for_loop _ _ _ _); [| done].
  split; [done |]. by apply same_gates_insert.
Qed.

Lemma link_children_agree link parent i cs ev h1 h2 :
  Forall (fun c => forall args h1 h2, same_gates h1 h2 ->
            same_link (link c args h1) (link c args h2)) cs ->
  same_gates h1 h2 ->
  (link_children link parent i cs ev h1).1
  = (link_children link parent i cs ev h2).1 /\
  same_gates (link_children link parent i cs ev h1).2
             (link_children link parent i cs ev h2).2.
Proof.
  intros Hall. revert i ev h1 h2.
  induction Hall as [| c cs Hc _ IH]; intros i ev h1 h2 Hh; simpl; [done |].
  destruct (commands parent !! i) as [desc |]; [| done].
  destruct (Hc (resolve (inputs desc) ev).1 _ _ Hh) as [Hr Hk].
  destruct (link c _ h1) as [r1 k1], (link c _ h2) as [r2 k2].
  simpl in *. subst r2. destruct r1 as [c' | e]; [| done].
  destruct (IH (S i) (resolve (inputs desc) ev).2 _ _ Hk) as [Hr' Hk'].
  destruct (link_children _ _ _ _ _ k1) as [r1 k1'],
           (link_children _ _ _ _ _ k2) as [r2 k2'].
  simpl in *. subst r2. by destruct r1.
Qed.

Lemma link_agree c args h1 h2 :
  same_gates h1 h2 -> same_link (link c args h1) (link c args h2).
Proof.
  revert args h1 h2.
  induction c as [g | st ev cs parent IH] using ICircuit_nested_ind;
    intros args h1 h2 Hh; simpl.
  - by apply GateCircuit_link_agree.
  - repeat case_bool_decide; try done.
    destruct (for_loop _ _ _ _) as [ev' | e]; [| done].
    destruct (link_children_agree link parent 0 cs ev' _ _ IH Hh) as [Hr Hk].
    destruct (link_children _ _ _ _ _ h1) as [r1 k1],
             (link_children _ _ _ _ _ h2) as [r2 k2].
    simpl in *. subst r2. by destruct r1.
Qed.

Lemma tick1_at_agree fuel i s1 s2 :
  same_tick s1 s2 -> agree same_tick (tick1_at fuel i s1) (tick1_at fuel i s2).
Proof.
  intros [Hh Hout]. unfold tick1_at.
  pose proof (same_gates_lookup _ _ i Hh) as Hi.
  destruct (s1.1 !! i) as [[n1 g1] |], (s2.1 !! i) as [[n2 g2] |];
    simplify_eq/=; try done.
  rewrite (tick1_same_committed fuel s1.1 s2.1)
    by by apply same_gates_committed.
  destruct (tick1 fuel s2.1 g2) as [r | e]; simpl; [| done].
  split; simpl; [by apply same_gates_insert | congruence].
Qed.

Lemma tick_agree fuel h1 h2 :
  same_gates h1 h2 -> agree same_tick (tick fuel h1) (tick fuel h2).
Proof.
  intros Hh. unfold tick, phase1. rewrite (same_gates_length _ _ Hh).
  eapply agree_bind.
  - apply for_loop_agree; [apply tick1_at_agree | done].
  - intros s1 s2 [Hs Hout]. split; simpl; [| done].
    unfold same_gates in *. rewrite <- !list_fmap_compose.
    change (snd ∘ prod_map id tick2) with (tick2 ∘ (snd : string * IGate -> IGate)).
    by rewrite !list_fmap_compose, Hs.
Qed.

Lemma readOutputs_agree fuel h1 h2 c n :
  same_gates h1 h2 -> readOutputs fuel h1 c n = readOutputs fuel h2 c n.
Proof.
  intros Hh. unfold readOutputs. generalize (seq 0 n). intros l.
  induction l as [| i l IH]; simpl; [done |]. rewrite IH. f_equal.
  unfold readOutput. destruct (getOutput c _); simpl; [| done].
  by apply getValue_committed, same_gates_committed.
Qed.

Lemma tick_and_read_agree fuel n c k h1 h2 :
  same_gates h1 h2 ->
  agree same_run (tick_and_read fuel n c k h1) (tick_and_read fuel n c k h2).
Proof.
  revert h1 h2. induction n as [| n IH]; intros h1 h2 Hh; simpl; [done |].
  eapply agree_bind; [by apply tick_agree |]. intros s1 s2 [Hs Hout].
  rewrite (readOutputs_agree fuel s1.1 s2.1) by done.
  eapply agree_bind; [apply agree_eq |]. intros row ? <-.
  eapply agree_bind; [by apply IH |]. intros r1 r2 (Hrows & Hlines & Hk).
  split_and!; simpl; [congruence | congruence | done].
Qed.

(** C7.  Instantiate one prototype in two keepers that hold the same gates,
    link both circuits to the same handles, and tick both the same number of
    times, reading the outputs after every tick: the two runs end the same
    way; when they succeed, the rows of output values read are the same, the
    lines printed by the probes are the same, and the keepers still hold the
    same gates.  The diagnostic names, which are all that the two runs may
    differ in, have no influence. *)
Theorem two_runs_agree fuel p builder1 builder2 args n heimdall1 heimdall2 :
  same_gates heimdall1 heimdall2 ->
  agree same_run
    (simulate fuel p builder1 args n heimdall1)
    (simulate fuel p builder2 args n heimdall2).
Proof.
  intros Hh. unfold simulate.
  eapply agree_bind; [by apply instantiate_agree |].
  intros [c1 k1] [c2 k2] [Hc Hk]. simpl in *. subst c2.
  destruct (link_agree c1 args _ _ Hk) as [Hr Hk'].
  destruct (link c1 args k1) as [r1 k1'], (link c1 args k2) as [r2 k2'].
  simpl in *. subst r2. destruct r1 as [c' | e]; [| done].
  by apply tick_and_read_agree.
Qed.

Lemma two_runs_agree_witness :
  agree same_run
    (simulate 1 nandPrototype emptyName [ptr 0; ptr 0] 2
       [("first", LowOutput)])
    (simulate 1 nandPrototype (addChildId emptyName "second") [ptr 0; ptr 0] 2
       [("second", LowOutput)]).
Proof.
  apply (two_runs_agree 1 nandPrototype emptyName
           (addChildId emptyName "second") [ptr 0; ptr 0] 2
           [("first", LowOutput)] [("second", LowOutput)]).
  reflexivity.
Defined.

(** * Further properties of the code *)

(** ** The scheduler *)

Lemma phase1_parallel_from fuel rest done done' out :
  (committed ∘ snd) <$> done' = (committed ∘ snd) <$> done ->
  for_loop (length rest) (length done) (tick1_at fuel) (done' ++ rest, out)
  = (rs <- mapR (fun e => tick1 fuel (done ++ rest) e.2) rest ;;
     Ok (done' ++ zip_with (fun e r => (e.1, r.1)) rest rs,
         out ++ concat (rs.*2))).
Proof.
  revert done done' out.
  induction rest as [| [name g] rest IH]; intros done done' out Hc; simpl.
  - by rewrite !app_nil_r.
  - assert (length done' = length done) as Hlen
      by by rewrite <- (length_fmap (committed ∘ snd)), Hc, length_fmap.
    unfold tick1_at at 1. simpl.
    rewrite <- Hlen, list_lookup_middle by done.
    rewrite (tick1_same_committed fuel (done' ++ (name, g) :: rest)
               (done ++ (name, g) :: rest))
      by by rewrite !fmap_app, Hc.
    destruct (tick1 fuel (done ++ (name, g) :: rest) g) as [r | e] eqn:Hr;
      simpl; [| done].
    replace (<[length done' := (name, r.1)]> (done' ++ (name, g) :: rest))
      with ((done' ++ [(name, r.1)]) ++ rest).
    2:{ rewrite <- app_assoc. simpl.
        by rewrite insert_app_r_alt, Nat.sub_diag by lia. }
    replace (S (length done')) with (length (done ++ [(name, g)]))
      by (rewrite length_app; simpl; lia).
    rewrite (IH (done ++ [(name, g)]) (done' ++ [(name, r.1)])).
    2:{ rewrite !fmap_app, Hc. simpl.
        by rewrite (tick1_committed _ _ _ _ Hr). }
    rewrite <- (app_assoc done). simpl.
    destruct (mapR _ rest) as [rs | e]; simpl; [| done].
    by rewrite <- !app_assoc.
Qed.

(** The two in-place loops of [tick] compute the simultaneous update,
    failures and the order of the lines included. *)
Lemma tick_eq_parallel fuel heimdall :
  tick fuel heimdall = tick_parallel fuel heimdall.
Proof.
  unfold tick, tick_parallel, phase1.
  pose proof (phase1_parallel_from fuel heimdall [] [] [] eq_refl) as H.
  simpl in H. rewrite H. clear H.
  destruct (mapR _ heimdall) as [rs | e]; simpl; [| done].
  do 2 f_equal. generalize rs. clear.
  induction heimdall as [| e h IH]; intros [| r rs]; simpl; try done.
  by rewrite IH.
Qed.

Lemma mapR_length {A B} (f : A -> Result B) l rs :
  mapR f l = Ok rs -> length rs = length l.
Proof.
  revert rs. induction l as [| x l IH]; intros rs; simpl.
  - by intros [= <-].
  - intros H. apply bindR_Ok in H as (b & _ & H).
    apply bindR_Ok in H as (bs & Hbs & [= <-]). simpl. by rewrite (IH bs).
Qed.

Lemma mapR_lookup {A B} (f : A -> Result B) l rs :
  mapR f l = Ok rs ->
  forall i a, l !! i = Some a -> exists b, rs !! i = Some b /\ f a = Ok b.
Proof.
  revert rs. induction l as [| x l IH]; intros rs; simpl.
  - intros _ i a. by rewrite lookup_nil.
  - intros H. apply bindR_Ok in H as (b & Hb & H).
    apply bindR_Ok in H as (bs & Hbs & [= <-]).
    intros [| i] a Ha; simplify_eq/=; [by eauto |]. by eapply IH.
Qed.

Lemma tick_length fuel heimdall heimdall' out :
  tick fuel heimdall = Ok (heimdall', out) -> length heimdall' = length heimdall.
Proof.
  rewrite tick_eq_parallel. unfold tick_parallel. intros H.
  apply bindR_Ok in H as (rs & Hrs & [= <- <-]).
  rewrite length_zip_with, (mapR_length _ _ _ Hrs). lia.
Qed.

(** *** Moving the gates of a keeper *)

Lemma deref_moved f heimdall1 heimdall2 p :
  (forall i, heimdall2 !! f i = prod_map id (move_gate f) <$> heimdall1 !! i) ->
  deref heimdall2 (move_ptr f p)
  = (g <- deref heimdall1 p ;; Ok (move_gate f g)).
Proof.
  intros H. destruct p as [| i]; simpl; [done |]. rewrite H.
  by destruct (heimdall1 !! i) as [[name g] |].
Qed.

Lemma getValue_moved fuel f heimdall1 heimdall2 p :
  (forall i, heimdall2 !! f i = prod_map id (move_gate f) <$> heimdall1 !! i) ->
  getValue fuel heimdall2 (move_ptr f p) = getValue fuel heimdall1 p.
Proof.
  intros H. revert p. induction fuel as [| fuel IH]; intros p; simpl;
    rewrite (deref_moved _ _ _ _ H);
    destruct (deref heimdall1 p) as [g | e]; simpl; try done;
    destruct g; simpl; try done.
  by rewrite !IH.
Qed.

Lemma tick1_moved fuel f heimdall1 heimdall2 g :
  (forall i, heimdall2 !! f i = prod_map id (move_gate f) <$> heimdall1 !! i) ->
  tick1 fuel heimdall2 (move_gate f g)
  = (r <- tick1 fuel heimdall1 g ;; Ok (move_gate f r.1, r.2)).
Proof.
  intros H. destruct g; simpl; try done;
    rewrite (getValue_moved _ _ _ _ _ H);
    by destruct (getValue fuel heimdall1 _).
Qed.

Lemma tick2_moved f g : tick2 (move_gate f g) = move_gate f (tick2 g).
Proof. by destruct g. Qed.

Lemma reordered_Permutation f (heimdall1 heimdall2 : GateKeeper) :
  reordered f heimdall1 heimdall2 ->
  prod_map id (move_gate f) <$> heimdall1 ≡ₚ heimdall2.
Proof.
  intros (Hinj & Hlen & Hlook). apply Permutation_inj.
  split; [by rewrite length_fmap |].
  exists f. split; [done |]. intros i. by rewrite Hlook, list_lookup_fmap.
Qed.

Lemma concat_Permutation {A} (l1 l2 : list (list A)) :
  l1 ≡ₚ l2 -> concat l1 ≡ₚ concat l2.
Proof.
  induction 1 as [| x l1 l2 _ IH | x y l | l1 l2 l3 _ IH1 _ IH2]; simpl.
  - done.
  - by rewrite IH.
  - by rewrite !app_assoc, (Permutation_app_comm y x).
  - by etrans.
Qed.

(** X1.  [GateKeeper::tick] is a simultaneous update, so a tick that returns
    does not depend on the order of the gates in the keeper.  Let a second
    keeper hold the same gates at other positions, the handles in the input
    slots renamed accordingly.  If the tick of the first keeper returns, so
    does the tick of the second, every gate ends in the state of its
    counterpart, and the same lines are printed, up to their order.  If the
    tick of the first keeper fails, so does the tick of the second (which
    failure is reported depends on the order of the gates). *)
Theorem tick_order_independent fuel f heimdall1 heimdall2 :
  reordered f heimdall1 heimdall2 ->
  match tick fuel heimdall1 with
  | Ok s1 =>
      exists heimdall2' out2,
        tick fuel heimdall2 = Ok (heimdall2', out2) /\
        reordered f s1.1 heimdall2' /\
        out2 ≡ₚ s1.2
  | Err _ => exists e, tick fuel heimdall2 = Err e
  end.
Proof.
  intros Hre. pose proof Hre as (Hinj & Hlen & Hlook).
  destruct (tick fuel heimdall1) as [[heimdall1' out1] | e1] eqn:Htick1; simpl.
  - pose proof (tick_spec _ _ _ _ Htick1) as Hspec1.
    destruct (tick_returns fuel heimdall2) as (heimdall2' & out2 & Htick2).
    { intros j name g Hj.
      apply list_elem_of_lookup_2 in Hj.
      rewrite <- (reordered_Permutation _ _ _ Hre) in Hj.
      apply list_elem_of_fmap in Hj as ([name0 g0] & [= -> ->] & Hin).
      apply list_elem_of_lookup in Hin as [i Hi].
      destruct (Hspec1 _ _ _ Hi) as (r & Hr & _).
      rewrite (tick1_moved _ _ _ _ _ Hlook), Hr. simpl. by eauto. }
    pose proof (tick_spec _ _ _ _ Htick2) as Hspec2.
    exists heimdall2', out2. split_and!; [done | | ].
    + split_and!; [done | |].
      * by rewrite (tick_length _ _ _ _ Htick1), (tick_length _ _ _ _ Htick2).
      * intros i. destruct (heimdall1 !! i) as [[name g] |] eqn:Hi.
        -- destruct (Hspec1 _ _ _ Hi) as (r & Hr & ->). simpl.
           pose proof (Hlook i) as Hfi. rewrite Hi in Hfi. simpl in Hfi.
           destruct (Hspec2 _ _ _ Hfi) as (r2 & Hr2 & ->).
           rewrite (tick1_moved _ _ _ _ _ Hlook), Hr in Hr2.
           simpl in Hr2. injection Hr2 as <-. simpl.
           by rewrite tick2_moved.
        -- pose proof (Hlook i) as Hfi. rewrite Hi in Hfi. simpl in Hfi.
           apply lookup_ge_None in Hi, Hfi.
           rewrite (proj2 (lookup_ge_None heimdall1' i))
             by (rewrite (tick_length _ _ _ _ Htick1); lia).
           simpl. apply lookup_ge_None.
           rewrite (tick_length _ _ _ _ Htick2). lia.
    + rewrite tick_eq_parallel in Htick1, Htick2.
      unfold tick_parallel in Htick1, Htick2.
      apply bindR_Ok in Htick1 as (rs1 & Hrs1 & [= _ <-]).
      apply bindR_Ok in Htick2 as (rs2 & Hrs2 & [= _ <-]).
      apply concat_Permutation. symmetry. apply Permutation_inj.
      split.
      { by rewrite !length_fmap, (mapR_length _ _ _ Hrs1),
          (mapR_length _ _ _ Hrs2). }
      exists f. split; [done |]. intros i. rewrite !list_lookup_fmap.
      destruct (heimdall1 !! i) as [[name g] |] eqn:Hi.
      * destruct (mapR_lookup _ _ _ Hrs1 _ _ Hi) as (r1 & -> & Hr1).
        pose proof (Hlook i) as Hfi. rewrite Hi in Hfi. simpl in Hfi.
        destruct (mapR_lookup _ _ _ Hrs2 _ _ Hfi) as (r2 & -> & Hr2).
        simpl in Hr1, Hr2.
        rewrite (tick1_moved _ _ _ _ _ Hlook), Hr1 in Hr2.
        simpl in Hr2. by injection Hr2 as <-.
      * pose proof (Hlook i) as Hfi. rewrite Hi in Hfi. simpl in Hfi.
        apply lookup_ge_None in Hi, Hfi.
        rewrite (proj2 (lookup_ge_None rs1 i))
          by (rewrite (mapR_length _ _ _ Hrs1); lia).
        rewrite (proj2 (lookup_ge_None rs2 (f i)))
          by (rewrite (mapR_length _ _ _ Hrs2); lia).
        done.
  - destruct (tick fuel heimdall2) as [[heimdall2' out2] | e2] eqn:Htick2;
      [| by eauto].
    pose proof (tick_spec _ _ _ _ Htick2) as Hspec2.
    destruct (tick_returns fuel heimdall1) as (heimdall1' & out1 & Habs);
      [| congruence].
    intros i name g Hi.
    pose proof (Hlook i) as Hfi. rewrite Hi in Hfi. simpl in Hfi.
    destruct (Hspec2 _ _ _ Hfi) as (r2 & Hr2 & _).
    rewrite (tick1_moved _ _ _ _ _ Hlook) in Hr2.
    destruct (tick1 fuel heimdall1 g) as [r |]; [by eauto | done].
Qed.

Lemma exchange_inj a b : Inj (=) (=) (exchange a b).
Proof.
  intros x y. unfold exchange. repeat case_bool_decide; congruence.
Qed.

Lemma tick_order_independent_witness :
  exists heimdall2' out2,
    tick 1 [("p", TickOutputOnly (ptr 2) 0 "clk");
            ("n", Nand (ptr 2) (ptr 2));
            ("r", Register (ptr 1) false false)]
    = Ok (heimdall2', out2) /\
    reordered (exchange 0 2)
      [("r", Register (ptr 1) true true);
       ("n", Nand (ptr 0) (ptr 0));
       ("p", TickOutputOnly (ptr 0) 1 "clk")]
      heimdall2' /\
    out2 ≡ₚ [{| probe := "clk"; tickno := 1; level := false |}].
Proof.
  apply (tick_order_independent 1 (exchange 0 2)
           [("r", Register (ptr 1) false false);
            ("n", Nand (ptr 0) (ptr 0));
            ("p", TickOutputOnly (ptr 0) 0 "clk")]
           [("p", TickOutputOnly (ptr 2) 0 "clk");
            ("n", Nand (ptr 2) (ptr 2));
            ("r", Register (ptr 1) false false)]).
  split_and!; [apply exchange_inj | reflexivity |].
  intros [| [| [| i]]]; reflexivity.
Defined.

(** Which failure a failing tick reports does depend on the order: the
    first gate in keeper order whose [tick1] fails ends the program. *)
Lemma tick_failure_depends_on_order :
  reordered (exchange 0 1)
    [("r", Register nullptr false false);
     ("q", Register (ptr 2) false false);
     ("p", TickOutputOnly (ptr 0) 0 "clk")]
    [("q", Register (ptr 2) false false);
     ("r", Register nullptr false false);
     ("p", TickOutputOnly (ptr 1) 0 "clk")] /\
  tick 1 [("r", Register nullptr false false);
          ("q", Register (ptr 2) false false);
          ("p", TickOutputOnly (ptr 0) 0 "clk")]
  = Err UndefinedBehaviour /\
  tick 1 [("q", Register (ptr 2) false false);
          ("r", Register nullptr false false);
          ("p", TickOutputOnly (ptr 1) 0 "clk")]
  = Err AssertionFailed.
Proof.
  split_and!; [| reflexivity | reflexivity].
  split_and!; [apply exchange_inj | reflexivity |].
  intros [| [| [| i]]]; reflexivity.
Qed.

Lemma tick1_unticked fuel heimdall g r :
  tick1 fuel heimdall g = Ok r -> unticked r.1 = unticked g.
Proof.
  destruct g; simpl; intros H; simplify_eq; try done;
    apply bindR_Ok in H as (v & _ & H); by simplify_eq.
Qed.

Lemma tick2_unticked g : unticked (tick2 g) = unticked g.
Proof. by destruct g. Qed.

(** X2.  A tick changes the state of gates, never the structure of the
    keeper: afterwards the keeper has the same length, every gate has the
    same diagnostic name, class, input wiring and label; only the values of
    registers and the counters of probes may differ. *)
Theorem tick_keeps_structure fuel heimdall heimdall' out :
  tick fuel heimdall = Ok (heimdall', out) ->
  prod_map id unticked <$> heimdall' = prod_map id unticked <$> heimdall.
Proof.
  intros H. pose proof (tick_spec _ _ _ _ H) as Hspec.
  unfold tick in H. apply bindR_Ok in H as (s & Hs & [= <- <-]).
  apply phase1_spec in Hs as [Hc _].
  assert (length s.1 = length heimdall) as Hlen
    by by rewrite <- (length_fmap (committed ∘ snd)), Hc, length_fmap.
  apply list_eq_same_length with (length heimdall);
    [by rewrite length_fmap | by rewrite !length_fmap |].
  intros j x y Hj. rewrite !list_lookup_fmap.
  destruct (heimdall !! j) as [[name g] |] eqn:Hg;
    [| apply lookup_ge_None in Hg; lia].
  destruct (Hspec _ _ _ Hg) as (r & Hr & Hj').
  rewrite list_lookup_fmap in Hj'.
  destruct (s.1 !! j) as [[name' g'] |]; simplify_eq/=.
  intros [= <-] [= <-]. unfold prod_map. simpl.
  match goal with H : tick2 _ = tick2 _ |- _ => rewrite H end.
  by rewrite tick2_unticked, (tick1_unticked _ _ _ _ Hr).
Qed.

Lemma tick_keeps_structure_witness :
  prod_map id unticked <$>
    [("r", Register (ptr 1) true true); ("n", Nand (ptr 0) (ptr 0))]
  = prod_map id unticked <$>
    [("r", Register (ptr 1) false false); ("n", Nand (ptr 0) (ptr 0))].
Proof.
  exact (tick_keeps_structure 1
           [("r", Register (ptr 1) false false); ("n", Nand (ptr 0) (ptr 0))]
           [("r", Register (ptr 1) true true); ("n", Nand (ptr 0) (ptr 0))]
           [] eq_refl).
Defined.

(** X3.  No value read through [getValue] depends on staged state: two
    keepers that differ only in the [nextValue] of registers, the counters
    of probes and the diagnostic names give the same outcome for every
    [getValue], failures included. *)
Theorem getValue_ignores_staged fuel heimdall heimdall' p :
  (committed ∘ snd) <$> heimdall = (committed ∘ snd) <$> heimdall' ->
  getValue fuel heimdall p = getValue fuel heimdall' p.
Proof. apply getValue_committed. Qed.

Lemma getValue_ignores_staged_witness :
  getValue 2 [("r", Register (ptr 1) false true); ("n", Nand (ptr 0) (ptr 0))]
    (ptr 1)
  = getValue 2 [("x", Register (ptr 1) false false); ("y", Nand (ptr 0) (ptr 0))]
      (ptr 1).
Proof.
  exact (getValue_ignores_staged 2
           [("r", Register (ptr 1) false true); ("n", Nand (ptr 0) (ptr 0))]
           [("x", Register (ptr 1) false false); ("y", Nand (ptr 0) (ptr 0))]
           (ptr 1) eq_refl).
Defined.

(** X4.  Two-phase isolation on a feedback loop.  A register whose input is
    a NAND that has the register on both inputs (the clock of [main]),
    anywhere in a keeper: after [n] ticks the register holds its initial
    value negated exactly [n] times. *)
Theorem inverter_loop_toggles fuel n heimdall i j ni nj v nv heimdall' out :
  heimdall !! i = Some (ni, Register (ptr j) v nv) ->
  heimdall !! j = Some (nj, Nand (ptr i) (ptr i)) ->
  tick_n (S fuel) n heimdall = Ok (heimdall', out) ->
  exists nv',
    heimdall' !! i = Some (ni, Register (ptr j) (Nat.iter n negb v) nv') /\
    heimdall' !! j = Some (nj, Nand (ptr i) (ptr i)).
Proof.
  revert heimdall v nv out.
  induction n as [| n IH]; intros heimdall v nv out Hi Hj; simpl.
  - intros [= <- <-]. by eauto.
  - intros H. apply bindR_Ok in H as ([h1 o1] & Htick & H).
    apply bindR_Ok in H as (r & Hrest & [= <- <-]). simpl in *.
    destruct (tick_spec _ _ _ _ Htick _ _ _ Hi) as (ri & Hri & Hi1).
    destruct (tick_spec _ _ _ _ Htick _ _ _ Hj) as (rj & Hrj & Hj1).
    simpl in Hri, Hrj. rewrite Hj in Hri. simpl in Hri.
    rewrite (getValue_Register _ _ _ _ _ _ _ Hi) in Hri. simpl in Hri.
    assert (ri.1 = Register (ptr j) v (negb v)) as Hri1.
    { destruct v; simpl in Hri; by simplify_eq. }
    rewrite Hri1 in Hi1. injection Hrj as <-. simpl in *.
    destruct r as [h2 o2].
    destruct (IH _ _ _ _ Hi1 Hj1 Hrest) as (nv' & Hi2 & Hj2).
    exists nv'. split; [| done].
    by rewrite Hi2, <- Nat.iter_succ_r.
Qed.

Lemma inverter_loop_toggles_witness :
  exists nv',
    [("r", Register (ptr 1) true true); ("n", Nand (ptr 0) (ptr 0))] !! 0
    = Some ("r", Register (ptr 1) (Nat.iter 3 negb false) nv') /\
    [("r", Register (ptr 1) true true); ("n", Nand (ptr 0) (ptr 0))] !! 1
    = Some ("n", Nand (ptr 0) (ptr 0)).
Proof.
  exact (inverter_loop_toggles 0 3
           [("r", Register (ptr 1) false false); ("n", Nand (ptr 0) (ptr 0))]
           0 1 "r" "n" false false
           [("r", Register (ptr 1) true true); ("n", Nand (ptr 0) (ptr 0))]
           [] eq_refl eq_refl eq_refl).
Defined.

(** X5.  A NAND that is its own input.  When it is its own first input,
    reading it never returns: the recursion of [Nand::getValue] has no end
    (the model runs out of any fuel).  When it is its own second input, the
    short-circuit [&&] decides: if the first input reads false the NAND
    reads true, the cycle notwithstanding; if the first input reads true,
    reading it never returns. *)
Theorem nand_self_loop heimdall i name a b :
  (heimdall !! i = Some (name, Nand (ptr i) b) ->
   forall fuel, getValue fuel heimdall (ptr i) = Err OutOfFuel) /\
  (heimdall !! i = Some (name, Nand a (ptr i)) ->
   forall fuel0,
     (getValue fuel0 heimdall a = Ok false ->
      forall fuel, fuel0 <= fuel ->
        getValue (S fuel) heimdall (ptr i) = Ok true) /\
     (getValue fuel0 heimdall a = Ok true ->
      forall fuel, getValue fuel heimdall (ptr i) = Err OutOfFuel)).
Proof.
  split.
  - intros Hi fuel. induction fuel as [| fuel IH]; simpl; rewrite Hi; simpl;
      [done | by rewrite IH].
  - intros Hi fuel0. split.
    + intros Ha fuel Hle. simpl. rewrite Hi. simpl.
      by rewrite (below_Ok _ _ _ (getValue_below fuel0 fuel heimdall a Hle) Ha).
    + intros Ha fuel. induction fuel as [| fuel IH]; simpl; rewrite Hi; simpl;
        [done |].
      destruct (Nat.le_ge_cases fuel fuel0) as [Hle | Hle].
      * destruct (getValue_below fuel fuel0 heimdall a Hle) as [-> | ->];
          [done |]. rewrite Ha. simpl. by rewrite IH.
      * rewrite (below_Ok _ _ _ (getValue_below fuel0 fuel heimdall a Hle) Ha).
        simpl. by rewrite IH.
Qed.

Lemma nand_self_loop_witness :
  getValue 7 [("low", LowOutput); ("n", Nand (ptr 0) (ptr 1))] (ptr 1) = Ok true.
Proof.
  exact (proj1 (proj2 (nand_self_loop
                  [("low", LowOutput); ("n", Nand (ptr 0) (ptr 1))]
                  1 "n" (ptr 0) nullptr) eq_refl 0) eq_refl 6 (Nat.le_0_l 6)).
Defined.

(** ** Instantiation *)

Lemma string_append_assoc (a b c : string) :
  (a +:+ b) +:+ c = a +:+ b +:+ c.
Proof.
  induction a as [| x a IH]; [done |].
  change (String x ((a +:+ b) +:+ c) = String x (a +:+ b +:+ c)).
  by rewrite IH.
Qed.

Lemma named_under_extend builder builder2 x e :
  getName builder2 = getName builder +:+ x ->
  named_under builder2 e -> named_under builder e.
Proof.
  intros Hb [mid Hmid]. exists (x +:+ mid).
  by rewrite Hmid, Hb, !string_append_assoc.
Qed.

Lemma num_gates_Composite c :
  num_gates (Composite c)
  = sum_list_with (fun d => num_gates (proto d)) (commands c).
Proof.
  destruct c as [cmds s ins outs n t]. simpl.
  induction cmds as [| [x i o ch] cmds IH]; simpl; [done | by rewrite IH].
Qed.

Lemma primitives_Composite c :
  primitives (Composite c)
  = flat_map (fun d => primitives (proto d)) (commands c).
Proof.
  destruct c as [cmds s ins outs n t]. simpl.
  induction cmds as [| [x i o ch] cmds IH]; simpl; [done | by rewrite IH].
Qed.

Lemma GateCircuit_new_extends p gate builder heimdall :
  num_gates p = 1 -> primitives p = [gate] ->
  extends_by p builder heimdall (GateCircuit_new gate builder heimdall).1
    (GateCircuit_new gate builder heimdall).2.
Proof.
  intros Hp Hprim. exists [(getName (addType builder (getType gate)), gate)].
  rewrite Hp, Hprim. split_and!; try done.
  constructor; [| done]. by exists "".
Qed.

Lemma Circuit_new_from_extends inst builder parent cmds ev cs heimdall c heimdall' :
  Forall (fun d => forall b h c h',
            inst (proto d) b h = Ok (c, h') -> extends_by (proto d) b h c h')
    cmds ->
  Circuit_new_from inst builder parent cmds ev cs heimdall = Ok (c, heimdall') ->
  exists ev' new ext,
    c = Circuit Circuit_Init ev' (cs ++ new) parent /\
    heimdall' = heimdall ++ ext /\
    length ext = sum_list_with (fun d => num_gates (proto d)) cmds /\
    flat_map gates_of new
    = ptr <$> seq (length heimdall)
                (sum_list_with (fun d => num_gates (proto d)) cmds) /\
    (unlinked ∘ snd) <$> ext
    = unlinked <$> flat_map (fun d => primitives (proto d)) cmds /\
    Forall (named_under builder) ext.
Proof.
  intros Hall. revert ev cs heimdall.
  induction Hall as [| [x ins outs childId] cmds Hx _ IH];
    intros ev cs heimdall; simpl.
  - intros [= <- <-]. exists ev, [], []. by rewrite !app_nil_r.
  - intros H. apply bindR_Ok in H as ([child h1] & Hr & H).
    apply bindR_Ok in H as (ev1 & _ & H). simpl in *.
    apply Hx in Hr as (ext1 & -> & Hlen1 & Hgates1 & Hprim1 & Hext1).
    apply IH in H
      as (ev' & new & ext & -> & -> & Hlen & Hgates & Hprim & Hext).
    exists ev', (child :: new), (ext1 ++ ext).
    rewrite <- !app_assoc. simpl. split_and!; try done.
    + rewrite length_app. lia.
    + rewrite Hgates1, Hgates, length_app, Hlen1.
      by rewrite seq_app, fmap_app.
    + by rewrite !fmap_app, Hprim1, Hprim.
    + apply Forall_app. split; [| done].
      eapply Forall_impl; [exact Hext1 |]. intros e Hnamed.
      revert Hnamed. case_bool_decide.
      * by apply (named_under_extend _ _ ("[" +:+ type_name parent +:+ "] ")).
      * apply (named_under_extend _ _
                 (("[" +:+ type_name parent +:+ "] ")
                  +:+ "{" +:+ childId +:+ "}: ")).
        simpl. by rewrite !string_append_assoc.
Qed.

Lemma instantiate_extends p builder heimdall c heimdall' :
  instantiate p builder heimdall = Ok (c, heimdall') ->
  extends_by p builder heimdall c heimdall'.
Proof.
  revert builder heimdall c heimdall'.
  induction p as [T | name | parent IH] using IPrototype_nested_ind;
    intros builder heimdall c heimdall'.
  - intros [= <- <-].
    by apply (GateCircuit_new_extends (GatePrototype T) (make T)).
  - intros [= <- <-].
    by apply (GateCircuit_new_extends (OutputPrototype name)
                (TickOutputOnly nullptr 0 name)).
  - destruct parent as [cmds s ins outs n t] eqn:Hp. simpl in IH. intros H.
    simpl in H.
    apply Circuit_new_from_extends in H
      as (ev & new & ext & -> & -> & Hlen & Hgates & Hprim & Hext).
    + exists ext.
      rewrite <- Hp, num_gates_Composite, primitives_Composite, Hp. simpl.
      by split_and!.
    + eapply Forall_impl; [exact IH |]. simpl. by eauto.
Qed.

(** X6.  [instantiate] only appends to the keeper: the gates that were there
    are untouched, and the gates added are, in this order, the gates of the
    primitive prototypes under the prototype, taken placement by placement
    in the order of [commands], each placement completely before the next.
    Each is of the class of its prototype and has the members its
    constructor initialises (a register holds low in [value] and
    [nextValue], a probe has its counter at zero and the label of its
    prototype); the input slots are left out of the comparison, as no
    constructor assigns them.  The circuit returned holds exactly the new
    positions, in allocation order. *)
Theorem instantiate_appends_primitives p builder heimdall c heimdall' :
  instantiate p builder heimdall = Ok (c, heimdall') ->
  exists ext,
    heimdall' = heimdall ++ ext /\
    (unlinked ∘ snd) <$> ext = unlinked <$> primitives p /\
    gates_of c = ptr <$> seq (length heimdall) (length ext).
Proof.
  intros H. apply instantiate_extends in H as (ext & ? & Hlen & ? & ? & _).
  exists ext. rewrite Hlen. by split_and!.
Qed.

Lemma instantiate_appends_primitives_witness :
  exists ext,
    [("low", LowOutput); ("[latch] [nand] ", Nand nullptr nullptr);
     ("[latch] {out}: [tick - outputonly] ", TickOutputOnly nullptr 0 "q");
     ("[latch] [register] ", Register nullptr false false)]
    = [("low", LowOutput)] ++ ext /\
    (unlinked ∘ snd) <$> ext
    = unlinked <$>
        primitives
          (Composite
             (Build_CompositePrototype
                [Build_ChildData nandPrototype ["d"; "q"] ["n"] "";
                 Build_ChildData (OutputPrototype "q") ["q"] [] "out";
                 Build_ChildData registerPrototype ["n"] ["q"] ""]
                Finalized ["d"] ["q"] 3 "latch")) /\
    gates_of
      (Circuit Circuit_Init (<["q" := ptr 3]> {["n" := ptr 1]})
         [GateCircuit (ptr 1); GateCircuit (ptr 2); GateCircuit (ptr 3)]
         (Build_CompositePrototype
            [Build_ChildData nandPrototype ["d"; "q"] ["n"] "";
             Build_ChildData (OutputPrototype "q") ["q"] [] "out";
             Build_ChildData registerPrototype ["n"] ["q"] ""]
            Finalized ["d"] ["q"] 3 "latch"))
    = ptr <$> seq (length [("low", LowOutput)]) (length ext).
Proof.
  apply (instantiate_appends_primitives
           (Composite
              (Build_CompositePrototype
                 [Build_ChildData nandPrototype ["d"; "q"] ["n"] "";
                  Build_ChildData (OutputPrototype "q") ["q"] [] "out";
                  Build_ChildData registerPrototype ["n"] ["q"] ""]
                 Finalized ["d"] ["q"] 3 "latch"))
           emptyName [("low", LowOutput)]).
  by vm_compute.
Defined.

(** X7.  The diagnostic name of every gate that [instantiate] allocates is
    hierarchical: it starts with the prefix handed to [instantiate] and ends
    with the type of the gate in brackets. *)
Theorem instantiate_names_gates p builder heimdall c heimdall' :
  instantiate p builder heimdall = Ok (c, heimdall') ->
  forall i name g,
    length heimdall <= i -> heimdall' !! i = Some (name, g) ->
    exists mid, name = getName builder +:+ mid +:+ "[" +:+ getType g +:+ "] ".
Proof.
  intros H i name g Hi Hg.
  apply instantiate_extends in H as (ext & -> & _ & _ & _ & Hext).
  rewrite lookup_app_r in Hg by done.
  rewrite Forall_lookup in Hext. by apply (Hext _ _ Hg).
Qed.

Lemma instantiate_names_gates_witness :
  exists mid, "top [nand] " = "top " +:+ mid +:+ "[" +:+ "nand" +:+ "] ".
Proof.
  exact (instantiate_names_gates nandPrototype {| getName := "top " |}
           [("low", LowOutput)] _ _ eq_refl 1 _ _ (le_n 1) eq_refl).
Defined.

(** ** Linking *)

Lemma GateCircuit_link_unlinked g args heimdall r heimdall' :
  GateCircuit_link g args heimdall = (r, heimdall') ->
  prod_map id unlinked <$> heimdall' = prod_map id unlinked <$> heimdall.
Proof.
  unfold GateCircuit_link. destruct g as [| k]; [by intros [= <- <-] |].
  destruct (heimdall !! k) as [[name gate] |] eqn:Hk; [| by intros [= <- <-]].
  case_bool_decide; [| by intros [= <- <-]].
  destruct (for_loop _ _ _ _) as [gate' | e] eqn:Hstore; intros [= <- <-]; [| done].
  rewrite list_fmap_insert. unfold prod_map at 1. simpl.
  rewrite (store_inputs_unlinked _ _ _ Hstore). apply list_insert_id.
  by rewrite list_lookup_fmap, Hk.
Qed.

Lemma link_children_unlinked link parent i cs ev heimdall r heimdall' :
  Forall (fun c => forall args h r h',
            link c args h = (r, h') ->
            prod_map id unlinked <$> h' = prod_map id unlinked <$> h) cs ->
  link_children link parent i cs ev heimdall = (r, heimdall') ->
  prod_map id unlinked <$> heimdall' = prod_map id unlinked <$> heimdall.
Proof.
  intros Hall. revert i ev heimdall r heimdall'.
  induction Hall as [| c cs Hc _ IH]; intros i ev heimdall r heimdall'; simpl.
  - by intros [= <- <-].
  - destruct (commands parent !! i) as [desc |]; [| by intros [= <- <-]].
    destruct (link c _ heimdall) as [[c' | e] h1] eqn:Hlink;
      apply Hc in Hlink; [| by intros [= <- <-]].
    destruct (link_children _ _ _ _ _ h1) as [[r' | e] h2] eqn:Hrest;
      apply IH in Hrest; intros [= <- <-]; congruence.
Qed.

Lemma link_unlinked c args heimdall r heimdall' :
  link c args heimdall = (r, heimdall') ->
  prod_map id unlinked <$> heimdall' = prod_map id unlinked <$> heimdall.
Proof.
  revert args heimdall r heimdall'.
  induction c as [g | st ev cs parent IH] using ICircuit_nested_ind;
    intros args heimdall r heimdall'; simpl.
  - apply GateCircuit_link_unlinked.
  - repeat case_bool_decide; try by intros [= <- <-].
    destruct (for_loop _ _ _ _) as [ev' | e]; [| by intros [= <- <-]].
    destruct (link_children _ _ _ _ _ _) as [[r' | e] h] eqn:Hrest;
      apply link_children_unlinked in Hrest; try done; by intros [= <- <-].
Qed.

(** X8.  [link] only rewires, and only its own gates: whether it returns
    normally or fails part-way, the keeper keeps its length, every gate
    keeps its name, class, value, staged value, counter and label, and a
    gate that does not belong to the circuit being linked is left exactly as
    it was, input slots included. *)
Theorem link_only_rewires_own_gates c args heimdall r heimdall' :
  link c args heimdall = (r, heimdall') ->
  prod_map id unlinked <$> heimdall' = prod_map id unlinked <$> heimdall /\
  forall a, ptr a ∉ gates_of c -> heimdall' !! a = heimdall !! a.
Proof.
  intros H. split; [by eapply link_unlinked |]. by eapply link_frames.
Qed.

Lemma link_only_rewires_own_gates_witness :
  prod_map id unlinked <$>
    [("r", Register (ptr 0) true false); ("n", Nand nullptr nullptr)]
  = prod_map id unlinked <$>
    [("r", Register nullptr true false); ("n", Nand nullptr nullptr)] /\
  forall a, ptr a ∉ gates_of (GateCircuit (ptr 0)) ->
    [("r", Register (ptr 0) true false); ("n", Nand nullptr nullptr)] !! a
    = [("r", Register nullptr true false); ("n", Nand nullptr nullptr)] !! a.
Proof.
  exact (link_only_rewires_own_gates (GateCircuit (ptr 0)) [ptr 0]
           [("r", Register nullptr true false); ("n", Nand nullptr nullptr)]
           _ _ eq_refl).
Defined.

(** X9.  Reuse independence.  Two circuits instantiated one after the other
    in the same keeper, from the same prototype or not, share no gate; the
    second instantiation leaves the gates of the first as they were, and so
    does every later [link] of the second circuit. *)
Theorem instances_do_not_interfere
    p1 b1 heimdall c1 heimdall1 p2 b2 c2 heimdall2 :
  instantiate p1 b1 heimdall = Ok (c1, heimdall1) ->
  instantiate p2 b2 heimdall1 = Ok (c2, heimdall2) ->
  (forall g, g ∈ gates_of c1 -> g ∉ gates_of c2) /\
  (forall a, ptr a ∈ gates_of c1 -> heimdall2 !! a = heimdall1 !! a) /\
  (forall args r heimdall3,
     link c2 args heimdall2 = (r, heimdall3) ->
     forall a, ptr a ∈ gates_of c1 -> heimdall3 !! a = heimdall2 !! a).
Proof.
  intros H1 H2.
  destruct (instantiate_allocates _ _ _ _ _ H1) as [_ Hr1].
  destruct (instantiate_allocates _ _ _ _ _ H2) as [_ Hr2].
  destruct (instantiate_instantiates _ _ _ _ _ H2) as [[ext ->] _].
  rewrite Forall_forall in Hr1, Hr2.
  assert (forall g, g ∈ gates_of c1 -> g ∉ gates_of c2) as Hdisj.
  { intros g Hg1 Hg2. destruct (Hr1 _ Hg1) as (a & -> & ?).
    destruct (Hr2 _ Hg2) as (a' & [= <-] & ?). lia. }
  split_and!; [done | |].
  - intros a Ha. destruct (Hr1 _ Ha) as (a' & [= <-] & ?).
    by rewrite lookup_app_l by lia.
  - intros args r heimdall3 Hlink a Ha.
    eapply link_frames; [done |]. by apply Hdisj.
Qed.

Lemma instances_do_not_interfere_witness :
  (forall g, g ∈ gates_of (GateCircuit (ptr 0)) ->
     g ∉ gates_of (GateCircuit (ptr 1))) /\
  (forall a, ptr a ∈ gates_of (GateCircuit (ptr 0)) ->
     [("[nand] ", Nand nullptr nullptr); ("[nand] ", Nand nullptr nullptr)] !! a
     = [("[nand] ", Nand nullptr nullptr)] !! a) /\
  (forall args r heimdall3,
     link (GateCircuit (ptr 1)) args
       [("[nand] ", Nand nullptr nullptr); ("[nand] ", Nand nullptr nullptr)]
     = (r, heimdall3) ->
     forall a, ptr a ∈ gates_of (GateCircuit (ptr 0)) ->
       heimdall3 !! a
       = [("[nand] ", Nand nullptr nullptr);
          ("[nand] ", Nand nullptr nullptr)] !! a).
Proof.
  exact (instances_do_not_interfere nandPrototype emptyName []
           _ _ nandPrototype emptyName _ _ eq_refl eq_refl).
Defined.

(** ** Output ports *)

Lemma getOutput_Circuit_Ok st ev cs parent i o g :
  outer_output_ids parent !! i = Some o -> ev !! o = Some g ->
  getOutput (Circuit st ev cs parent) (Z.of_nat i) = Ok g.
Proof.
  intros Ho Hg. unfold getOutput. rewrite bool_decide_eq_true_2.
  2:{ apply lookup_lt_Some in Ho. simpl. lia. }
  simpl. rewrite Nat2Z.id, Ho, Hg. simpl.
  by rewrite (umap_index_found _ _ _ Hg).
Qed.

Lemma getOutput_Circuit_unbound st ev cs parent i o :
  outer_output_ids parent !! i = Some o -> ev !! o = None ->
  getOutput (Circuit st ev cs parent) (Z.of_nat i) = Err AssertionFailed.
Proof.
  intros Ho Hg. unfold getOutput. rewrite bool_decide_eq_true_2.
  2:{ apply lookup_lt_Some in Ho. simpl. lia. }
  simpl. by rewrite Nat2Z.id, Ho, Hg.
Qed.

(** X10.  The output port of a freshly instantiated composite is the output
    of the placement that produces the port's name: [getOutput] of the
    composite at port [i] returns the very handle that [getOutput] of the
    producing child returns at the producing output. *)
Theorem composite_output_is_producer_output
    parent builder heimdall c heimdall' i o k j :
  instantiate (Composite parent) builder heimdall = Ok (c, heimdall') ->
  outer_output_ids parent !! i = Some o ->
  registers (commands parent) k j o ->
  exists ev cs child g,
    c = Circuit Circuit_Init ev cs parent /\
    cs !! k = Some child /\
    getOutput child (Z.of_nat j) = Ok g /\
    getOutput c (Z.of_nat i) = Ok g.
Proof.
  intros H Ho Hreg.
  apply instantiate_Composite_spec in H as (ev & cs & -> & _ & Hnew & _ & _).
  destruct (Hnew _ _ _ Hreg) as (child & g & Hchild & Hg & Hev).
  exists ev, cs, child, g. split_and!; try done.
  by eapply getOutput_Circuit_Ok.
Qed.

Lemma composite_output_is_producer_output_witness :
  exists ev cs child g,
    Circuit Circuit_Init {["not" := ptr 0]} [GateCircuit (ptr 0)]
      (Build_CompositePrototype
         [Build_ChildData nandPrototype ["in"; "in"] ["not"] ""]
         Finalized ["in"] ["not"] 2 "not")
    = Circuit Circuit_Init ev cs
        (Build_CompositePrototype
           [Build_ChildData nandPrototype ["in"; "in"] ["not"] ""]
           Finalized ["in"] ["not"] 2 "not") /\
    cs !! 0 = Some child /\
    getOutput child (Z.of_nat 0) = Ok g /\
    getOutput
      (Circuit Circuit_Init {["not" := ptr 0]} [GateCircuit (ptr 0)]
         (Build_CompositePrototype
            [Build_ChildData nandPrototype ["in"; "in"] ["not"] ""]
            Finalized ["in"] ["not"] 2 "not")) (Z.of_nat 0) = Ok g.
Proof.
  apply (composite_output_is_producer_output
           (Build_CompositePrototype
              [Build_ChildData nandPrototype ["in"; "in"] ["not"] ""]
              Finalized ["in"] ["not"] 2 "not")
           emptyName [] _ [("[not] [nand] ", Nand nullptr nullptr)] 0 "not" 0 0).
  - by vm_compute.
  - reflexivity.
  - eexists. split_and!; [reflexivity | simpl; lia | reflexivity].
Defined.

Lemma fresh_getOutput_unproduced parent builder heimdall c heimdall' i o :
  instantiate (Composite parent) builder heimdall = Ok (c, heimdall') ->
  outer_output_ids parent !! i = Some o ->
  (forall k j, ~ registers (commands parent) k j o) ->
  getOutput c (Z.of_nat i) = Err AssertionFailed.
Proof.
  intros H Ho Hnone.
  apply instantiate_Composite_spec in H as (ev & cs & -> & _ & _ & Honly & _).
  eapply getOutput_Circuit_unbound; [done |].
  destruct (ev !! o) as [g |] eqn:Hg; [| done].
  destruct (Honly _ _ Hg) as (k & j & Hreg). by destruct (Hnone k j).
Qed.


(** X11.  An output port whose name no placement of the composite produces
    cannot be read from a fresh instance: [getOutput] fails its assertion.
    This is the case of a port wired straight to one of the composite's own
    input ports, whose names enter the table only at [link]. *)
Theorem unproduced_output_port_asserts parent builder heimdall c heimdall' i o :
  instantiate (Composite parent) builder heimdall = Ok (c, heimdall') ->
  outer_output_ids parent !! i = Some o ->
  (forall k j, ~ registers (commands parent) k j o) ->
  getOutput c (Z.of_nat i) = Err AssertionFailed.
Proof. apply fresh_getOutput_unproduced. Qed.

Lemma unproduced_output_port_asserts_witness :
  getOutput
    (Circuit Circuit_Init ∅ []
       (Build_CompositePrototype [] Finalized ["in"] ["in"] 1 "wire"))
    (Z.of_nat 0)
  = Err AssertionFailed.
Proof.
  apply (unproduced_output_port_asserts
           (Build_CompositePrototype [] Finalized ["in"] ["in"] 1 "wire")
           emptyName [] _ [] 0 "in").
  - reflexivity.
  - reflexivity.
  - intros k j (cmd & Hk & _). simpl in Hk. by rewrite lookup_nil in Hk.
Defined.

Lemma Circuit_new_from_children inst builder parent cmds ev cs heimdall c heimdall' :
  Circuit_new_from inst builder parent cmds ev cs heimdall = Ok (c, heimdall') ->
  exists ev' new,
    c = Circuit Circuit_Init ev' (cs ++ new) parent /\
    Forall2 (fun d child => exists b0 h0 h1,
               inst (proto d) b0 h0 = Ok (child, h1)) cmds new.
Proof.
  revert ev cs heimdall.
  induction cmds as [| [x ins outs childId] cmds IH]; intros ev cs heimdall; simpl.
  - intros [= <- <-]. exists ev, []. by rewrite app_nil_r.
  - intros H. apply bindR_Ok in H as ([child h1] & Hr & H).
    apply bindR_Ok in H as (ev1 & _ & H). simpl in *.
    apply IH in H as (ev' & new & -> & Hnew).
    exists ev', (child :: new). rewrite <- app_assoc. split; [done |].
    constructor; [by eauto | done].
Qed.

(** X12.  A composite with an output port that none of its placements
    produces cannot be used as a child: instantiating any composite (built
    through [addPrototype]) that places it fails an assertion, because the
    constructor of the enclosing circuit asks the child for that output
    before anything is linked. *)
Theorem unproduced_output_port_cannot_be_placed
    parent builder heimdall k cmd inner i o :
  well_formed (Composite parent) ->
  commands parent !! k = Some cmd ->
  proto cmd = Composite inner ->
  outer_output_ids inner !! i = Some o ->
  (forall k' j, ~ registers (commands inner) k' j o) ->
  instantiate (Composite parent) builder heimdall = Err AssertionFailed.
Proof.
  intros Hwf Hk Hinner Ho Hnone.
  destruct (instantiate (Composite parent) builder heimdall)
    as [[c h'] | e] eqn:H; [| f_equal; by eapply instantiate_Err].
  exfalso.
  assert (exists o', outputs cmd !! i = Some o') as [o' Ho'].
  { apply lookup_lt_is_Some_2. apply well_formed_Composite in Hwf.
    rewrite Forall_lookup in Hwf. destruct (Hwf _ _ Hk) as [Hok _].
    unfold placement_ok in Hok. apply andb_prop_elim in Hok as [_ Hok].
    apply bool_decide_unpack in Hok. rewrite <- Hok, Hinner. simpl.
    by eapply lookup_lt_Some. }
  pose proof (registers_well_formed _ _ _ _ _ Hwf Hk Ho') as Hreg.
  destruct (instantiate_Composite_spec _ _ _ _ _ H)
    as (ev & cs & -> & _ & Hnew & _ & _).
  destruct (Hnew _ _ _ Hreg) as (child & g & Hchild & Hg & _).
  destruct parent as [cmds s ins outs n t]. simpl in *.
  apply Circuit_new_from_children in H as (ev' & new & Heq & Hall).
  injection Heq as <- <-.
  destruct (Forall2_lookup_lr _ _ _ _ _ _ Hall Hk Hchild) as (b0 & h0 & h1 & Hinst).
  rewrite Hinner in Hinst.
  by rewrite (fresh_getOutput_unproduced _ _ _ _ _ _ _ Hinst Ho Hnone) in Hg.
Qed.

Lemma unproduced_output_port_cannot_be_placed_witness :
  instantiate
    (Composite
       (Build_CompositePrototype
          [Build_ChildData lowPrototype [] ["a"] "";
           Build_ChildData
             (Composite
                (Build_CompositePrototype [] Finalized ["in"] ["in"] 1 "wire"))
             ["a"] ["b"] ""]
          Finalized [] ["b"] 2 "outer"))
    emptyName []
  = Err AssertionFailed.
Proof.
  apply (unproduced_output_port_cannot_be_placed _ emptyName [] 1
           (Build_ChildData
              (Composite
                 (Build_CompositePrototype [] Finalized ["in"] ["in"] 1 "wire"))
              ["a"] ["b"] "")
           (Build_CompositePrototype [] Finalized ["in"] ["in"] 1 "wire")
           0 "in").
  - exact I.
  - reflexivity.
  - reflexivity.
  - reflexivity.
  - intros k j (cmd & Hk & _). simpl in Hk. by rewrite lookup_nil in Hk.
Defined.

(** X13.  A handle read from a circuit before it is linked is the handle
    read from it afterwards: [link] keeps every binding of the table, so
    [getOutput] at a port that answered before [link] answers the same after.
    Moreover, once linked, a port named after an input port of the composite
    (and produced by no placement) answers with the handle passed to
    [link] for that input. *)
Theorem getOutput_after_link c args heimdall c2 heimdall2 :
  link c args heimdall = (Ok c2, heimdall2) ->
  (forall i g, getOutput c i = Ok g -> getOutput c2 i = Ok g) /\
  (forall st ev cs parent i o q g,
     c = Circuit st ev cs parent ->
     outer_output_ids parent !! i = Some o ->
     outer_input_ids parent !! q = Some o ->
     (forall q', q' < q -> outer_input_ids parent !! q' <> Some o) ->
     ev !! o = None ->
     args !! q = Some g ->
     getOutput c2 (Z.of_nat i) = Ok g).
Proof.
  intros Hlink. destruct c as [g0 | st ev cs parent].
  - split; [| done]. simpl in Hlink. unfold GateCircuit_link in Hlink.
    destruct g0 as [| k]; [done |].
    destruct (heimdall !! k) as [[name gate] |]; [| done].
    case_bool_decide; [| done].
    destruct (for_loop _ _ _ _); [| done]. by injection Hlink as <- <-.
  - simpl in Hlink. repeat case_bool_decide; try discriminate.
    destruct (for_loop _ _ _ _) as [ev1 |] eqn:Hev1; [| discriminate].
    destruct (link_children _ _ _ _ _ _) as [[r |] h] eqn:Hrest; [| discriminate].
    injection Hlink as <- <-.
    apply link_children_keeps in Hrest as [_ Hkeep].
    split.
    + intros i g. unfold getOutput.
      destruct (assert _) as [u |]; simpl; [| done].
      destruct (outer_output_ids parent !! Z.to_nat i) as [o |]; [| done].
      destruct (ev !! o) as [g' |] eqn:Ho; simpl; [| done].
      rewrite (umap_index_found _ _ _ Ho). intros [= <-].
      assert (r.2 !! o = Some g') as Ho2
        by by eapply Hkeep, insert_outer_keeps.
      rewrite Ho2. simpl. by rewrite (umap_index_found _ _ _ Ho2).
    + intros st' ev' cs' parent' i o q g [= <- <- <- <-] Ho Hq Hfirst Hfree Hg.
      eapply getOutput_Circuit_Ok; [done |]. apply Hkeep.
      eapply insert_outer_spec; try done.
      * apply lookup_lt_Some in Hg. lia.
      * intros q' ?. apply Hfirst. lia.
Qed.

Lemma getOutput_after_link_witness :
  getOutput
    (Circuit Linked (umap_insert "in" (ptr 0) ∅) []
       (Build_CompositePrototype [] Finalized ["in"] ["in"] 1 "wire"))
    (Z.of_nat 0)
  = Ok (ptr 0).
Proof.
  exact (proj2 (getOutput_after_link
                  (Circuit Circuit_Init ∅ []
                     (Build_CompositePrototype [] Finalized ["in"] ["in"] 1 "wire"))
                  [ptr 0] [("low", LowOutput)] _ _ eq_refl)
           Circuit_Init ∅ [] _ 0 "in" 0 (ptr 0) eq_refl eq_refl eq_refl
           (fun q' Hq' => match Nat.nlt_0_r q' Hq' with end) eq_refl eq_refl).
Defined.

(** ** Resolution of names that no placement produces *)

Lemma umap_index_bound_or_null k (m : gmap string IGatePtr) :
  (umap_index k m).1 = bound_or_null m k /\
  forall n, bound_or_null (umap_index k m).2 n = bound_or_null m n.
Proof.
  unfold umap_index, bound_or_null. destruct (m !! k) as [g |] eqn:Hk; simpl;
    [done |]. split; [done |]. intros n.
  destruct (decide (k = n)) as [<- | Hne].
  - by rewrite lookup_insert_eq, Hk.
  - by rewrite lookup_insert_ne.
Qed.

Lemma resolve_bound_or_null ins (ev : gmap string IGatePtr) :
  (forall n, bound_or_null (resolve ins ev).2 n = bound_or_null ev n) /\
  (forall j n, ins !! j = Some n ->
     (resolve ins ev).1 !! j = Some (bound_or_null ev n)).
Proof.
  revert ev. induction ins as [| n' ins IH]; intros ev; simpl; [done |].
  destruct (IH (umap_index n' ev).2) as [Hkeep Hfind].
  destruct (umap_index_bound_or_null n' ev) as [Hhead Hsame]. split.
  - intros n. by rewrite Hkeep, Hsame.
  - intros [| j] n Hj; simplify_eq/=; [by rewrite Hhead |].
    by rewrite (Hfind _ _ Hj), Hsame.
Qed.

(** After the loop over the children, a child that is a single gate has in
    its input slot [j] what the table gave, when the loop started, for the
    [j]-th input name of its placement: the binding, or null. *)
Lemma link_children_delivers parent cs i ev heimdall r heimdall' :
  link_children link parent i cs ev heimdall = (Ok r, heimdall') ->
  disjoint_gates cs ->
  forall k cmd a j n,
    cs !! k = Some (GateCircuit (ptr a)) ->
    commands parent !! (i + k) = Some cmd ->
    inputs cmd !! j = Some n ->
    exists name gate,
      heimdall' !! a = Some (name, gate) /\
      getInput gate j = Ok (bound_or_null ev n).
Proof.
  revert i ev heimdall r heimdall'.
  induction cs as [| c cs IH]; intros i ev heimdall r heimdall' H Hdisj;
    [intros k; by rewrite lookup_nil |].
  simpl in H.
  destruct (commands parent !! i) as [desc |] eqn:Hdesc; [| discriminate].
  destruct (resolve_bound_or_null (inputs desc) ev) as [Hkeep Hfind].
  destruct (link c _ heimdall) as [[c' | e] h1] eqn:Hlink; [| discriminate].
  destruct (link_children _ _ _ _ _ h1) as [[r' | e] h2] eqn:Hrest;
    [| discriminate].
  injection H as <- <-.
  intros [| k] cmd a j n Hk Hcmd Hj; simplify_eq/=.
  - rewrite Nat.add_0_r in Hcmd. simplify_eq.
    destruct (heimdall !! a) as [[name gate] |] eqn:Ha; [| discriminate].
    case_bool_decide; [| discriminate].
    destruct (for_loop _ _ _ _) as [gate' |] eqn:Hstore; [| discriminate].
    injection Hlink as <- <-. exists name, gate'. split.
    + apply link_children_frames in Hrest as [_ Hsame];
        [| apply Forall_forall; intros ? _; apply link_frames].
      rewrite Hsame.
      * apply list_lookup_insert_eq. by eapply lookup_lt_Some.
      * eapply disjoint_gates_head; [done |]. set_solver.
    + eapply store_inputs_spec; [done |]. by apply Hfind.
  - rewrite <- (Hkeep n). eapply (IH (S i)); try done.
    + by eapply disjoint_gates_tail.
    + by replace (S i + k) with (i + S k) by lia.
Qed.

Lemma insert_outer_only parent args n from (ev ev' : gmap string IGatePtr) :
  for_loop n from (insert_outer parent args) ev = Ok ev' ->
  forall o g, ev' !! o = Some g ->
    ev !! o = Some g \/
    exists q, from <= q < from + n /\ outer_input_ids parent !! q = Some o.
Proof.
  revert from ev. induction n as [| n IH]; intros from ev; simpl.
  - intros [= <-]. by left.
  - intros H o g Ho. apply bindR_Ok in H as (ev1 & H1 & H).
    unfold insert_outer in H1.
    destruct (outer_input_ids parent !! from) as [k |] eqn:Hk; [| done].
    destruct (args !! from) as [a |]; [| done]. injection H1 as <-.
    destruct (IH _ _ H _ _ Ho) as [Hin | (q & Hq & Hqo)].
    + unfold umap_insert in Hin. destruct (ev !! k) eqn:Hevk; [by left |].
      apply lookup_insert_Some in Hin as [[<- <-] | [_ Hin]]; [| by left].
      right. exists from. split; [lia | done].
    + right. exists q. split; [lia | done].
Qed.

(** The gate of placement [k], input [j] named [n], after a successful
    [link] of a fresh instance: what the table, with the outer inputs
    inserted, gives for [n]. *)
Lemma link_delivers parent builder heimdall st ev cs parent' heimdall1 args
    c2 heimdall2 k cmd a j n :
  instantiate (Composite parent) builder heimdall
  = Ok (Circuit st ev cs parent', heimdall1) ->
  link (Circuit st ev cs parent') args heimdall1 = (Ok c2, heimdall2) ->
  commands parent !! k = Some cmd ->
  cs !! k = Some (GateCircuit (ptr a)) ->
  inputs cmd !! j = Some n ->
  exists ev1 name gate,
    for_loop (length args) 0 (insert_outer parent args) ev = Ok ev1 /\
    heimdall2 !! a = Some (name, gate) /\
    getInput gate j = Ok (bound_or_null ev1 n).
Proof.
  intros Hinst Hlink Hk Hchild Hj.
  pose proof (instantiate_Composite_disjoint _ _ _ _ _ _ _ _ Hinst) as Hdisj.
  destruct (instantiate_Composite_shape _ _ _ _ _ Hinst) as (? & ? & [= -> -> -> ->]).
  simpl in Hlink. repeat case_bool_decide; try discriminate.
  destruct (for_loop _ _ _ _) as [ev1 |] eqn:Hev1; [| discriminate].
  destruct (link_children _ _ _ _ _ _) as [[r |] h] eqn:Hrest; [| discriminate].
  injection Hlink as <- <-.
  destruct (link_children_delivers _ _ _ _ _ _ _ Hrest Hdisj k cmd a j n)
    as (name & gate & ? & ?); try done.
  by exists ev1, name, gate.
Qed.

Lemma unproduced_unbound parent builder heimdall st ev cs parent' heimdall1 n :
  instantiate (Composite parent) builder heimdall
  = Ok (Circuit st ev cs parent', heimdall1) ->
  (forall k i, ~ registers (commands parent) k i n) ->
  ev !! n = None.
Proof.
  intros Hinst Hnone.
  destruct (instantiate_Composite_spec _ _ _ _ _ Hinst)
    as (ev' & cs' & [= -> -> -> ->] & _ & _ & Honly & _).
  destruct (ev' !! n) as [g |] eqn:Hg; [| done].
  destruct (Honly _ _ Hg) as (k & i & Hreg). by destruct (Hnone k i).
Qed.

(** X14.  Outer inputs reach the placements by name.  After a successful
    [link] of a fresh instance, a placed gate whose [j]-th input names the
    [q]-th input port of the composite (the first port of that name; a name
    that no placement produces) has in its slot [j] the [q]-th handle given
    to [link]. *)
Theorem link_wires_outer_input parent builder heimdall st ev cs parent'
    heimdall1 args c2 heimdall2 k cmd a j n q g :
  instantiate (Composite parent) builder heimdall
  = Ok (Circuit st ev cs parent', heimdall1) ->
  link (Circuit st ev cs parent') args heimdall1 = (Ok c2, heimdall2) ->
  commands parent !! k = Some cmd ->
  cs !! k = Some (GateCircuit (ptr a)) ->
  inputs cmd !! j = Some n ->
  (forall k' i, ~ registers (commands parent) k' i n) ->
  outer_input_ids parent !! q = Some n ->
  (forall q', q' < q -> outer_input_ids parent !! q' <> Some n) ->
  args !! q = Some g ->
  exists name gate,
    heimdall2 !! a = Some (name, gate) /\ getInput gate j = Ok g.
Proof.
  intros Hinst Hlink Hk Hchild Hj Hnone Hq Hfirst Hg.
  destruct (link_delivers _ _ _ _ _ _ _ _ _ _ _ _ _ _ _ _ Hinst Hlink Hk Hchild Hj)
    as (ev1 & name & gate & Hev1 & Hgate & Hin).
  exists name, gate. split; [done |]. rewrite Hin. f_equal.
  unfold bound_or_null.
  erewrite insert_outer_spec; [done | exact Hev1 | | done | done | | ].
  - apply lookup_lt_Some in Hg. lia.
  - by eapply unproduced_unbound.
  - intros q' ?. apply Hfirst. lia.
Qed.

Lemma link_wires_outer_input_witness :
  exists name gate,
    [("low", LowOutput); ("[not] [nand] ", Nand (ptr 0) (ptr 0))] !! 1
    = Some (name, gate) /\
    getInput gate 1 = Ok (ptr 0).
Proof.
  eassert (instantiate
             (Composite
                (Build_CompositePrototype
                   [Build_ChildData nandPrototype ["in"; "in"] ["not"] ""]
                   Finalized ["in"] ["not"] 2 "not"))
             emptyName [("low", LowOutput)] = Ok (Circuit _ _ _ _, _)) as Hinst
    by (vm_compute; reflexivity).
  eassert (link _ [ptr 0] _ = (Ok _, _)) as Hlink;
    [| apply (link_wires_outer_input _ _ _ _ _ _ _ _ _ _ _ 0 _ 1 1 "in" 0 (ptr 0)
                Hinst Hlink eq_refl eq_refl eq_refl)].
  - vm_compute. reflexivity.
  - intros k' i (cmd & Hk' & _ & Ho). destruct k' as [| k']; [| done].
    injection Hk' as <-. by destruct i as [| [| i]].
  - reflexivity.
  - intros q' Hq'. lia.
  - reflexivity.
Defined.

(** X15.  A name that nothing defines is wired as the null pointer, without
    any failure.  After a successful [link] of a fresh instance, a placed
    gate whose [j]-th input names a net that no placement produces and that
    is not an input port of the composite has the null pointer in its slot
    [j]. *)
Theorem link_wires_null_for_unknown_name parent builder heimdall st ev cs
    parent' heimdall1 args c2 heimdall2 k cmd a j n :
  instantiate (Composite parent) builder heimdall
  = Ok (Circuit st ev cs parent', heimdall1) ->
  link (Circuit st ev cs parent') args heimdall1 = (Ok c2, heimdall2) ->
  commands parent !! k = Some cmd ->
  cs !! k = Some (GateCircuit (ptr a)) ->
  inputs cmd !! j = Some n ->
  (forall k' i, ~ registers (commands parent) k' i n) ->
  n ∉ outer_input_ids parent ->
  exists name gate,
    heimdall2 !! a = Some (name, gate) /\ getInput gate j = Ok nullptr.
Proof.
  intros Hinst Hlink Hk Hchild Hj Hnone Hnotin.
  destruct (link_delivers _ _ _ _ _ _ _ _ _ _ _ _ _ _ _ _ Hinst Hlink Hk Hchild Hj)
    as (ev1 & name & gate & Hev1 & Hgate & Hin).
  exists name, gate. split; [done |]. rewrite Hin. f_equal.
  unfold bound_or_null. destruct (ev1 !! n) as [g |] eqn:Hg; [| done].
  destruct (insert_outer_only _ _ _ _ _ _ Hev1 _ _ Hg) as [Hin' | (q & _ & Hq)].
  - by rewrite (unproduced_unbound _ _ _ _ _ _ _ _ _ Hinst Hnone) in Hin'.
  - destruct Hnotin. by eapply list_elem_of_lookup_2.
Qed.

Lemma link_wires_null_for_unknown_name_witness :
  exists name gate,
    [("[unsatisfied] [nand] ", Nand nullptr nullptr)] !! 0
    = Some (name, gate) /\
    getInput gate 1 = Ok nullptr.
Proof.
  eassert (instantiate
             (Composite
                (Build_CompositePrototype
                   [Build_ChildData nandPrototype ["x"; "y"] ["out"] ""]
                   Finalized [] ["out"] 1 "unsatisfied"))
             emptyName [] = Ok (Circuit _ _ _ _, _)) as Hinst
    by (vm_compute; reflexivity).
  eassert (link _ [] _ = (Ok _, _)) as Hlink;
    [| apply (link_wires_null_for_unknown_name _ _ _ _ _ _ _ _ _ _ _ 0 _ 0 1 "y"
                Hinst Hlink eq_refl eq_refl eq_refl)].
  - vm_compute. reflexivity.
  - intros k' i (cmd & Hk' & _ & Ho). destruct k' as [| k']; [| done].
    injection Hk' as <-. by destruct i as [| [| i]].
  - simpl. apply not_elem_of_nil.
Defined.

(** ** The build-time API *)

Lemma wrap_int_small z : (- 2 ^ 31 <= z < 2 ^ 31)%Z -> wrap_int z = z.
Proof.
  intros Hz. unfold wrap_int. rewrite Z.mod_small; lia.
Qed.

Lemma addPrototype_Ok self cmd ins outs childName self' :
  addPrototype self cmd ins outs childName = Ok self' ->
  is_finalized cmd /\
  IPrototype_getNumInputs cmd = length ins /\
  IPrototype_getNumOutputs cmd = length outs /\
  state self = Init /\
  self' = Build_CompositePrototype
            (commands self ++ [Build_ChildData cmd ins outs childName])
            (state self) (outer_input_ids self) (outer_output_ids self)
            (wrap_int (num_nodes self + Z.of_nat (length outs)))
            (type_name self).
Proof.
  unfold addPrototype. intros H.
  apply bindR_Ok in H as (? & Hfin%assert_Ok & H).
  apply bindR_Ok in H as (? & Hin%assert_Ok%bool_decide_eq_true & H).
  apply bindR_Ok in H as (? & Hout%assert_Ok%bool_decide_eq_true & H).
  apply bindR_Ok in H as (? & Hst%assert_Ok%bool_decide_eq_true & H).
  injection H as <-. split_and!; try done. by apply Is_true_true.
Qed.

Lemma finalize_Ok self self' :
  finalize self = Ok self' ->
  state self = Init /\
  self' = Build_CompositePrototype (commands self) Finalized
            (outer_input_ids self) (outer_output_ids self) (num_nodes self)
            (type_name self).
Proof.
  unfold finalize. intros H.
  apply bindR_Ok in H as (? & Hst%assert_Ok%bool_decide_eq_true & H).
  by injection H as <-.
Qed.

(** X16.  Invariants of every composite prototype that client code can
    build (constructor, [addPrototype], [finalize]): every placement, at
    every depth, has as many input and output names as its child prototype
    has ports, and every composite child is finalized; and, as long as the
    count fits an [int], [num_nodes] is the number of input ports plus the
    number of output names of all placements. *)
Theorem built_invariants p :
  built p ->
  well_formed (Composite p) /\
  ((Z.of_nat (total_nodes p) < 2 ^ 31)%Z ->
   num_nodes p = Z.of_nat (total_nodes p)).
Proof.
  intros Hb.
  induction Hb using built_mut
    with (P0 := fun x => well_formed x).
  - split; [exact I |]. unfold total_nodes. simpl. intros _. f_equal. lia.
  - destruct IHHb as [Hwf Hn].
    split; [by eapply addPrototype_well_formed |].
    match goal with H : addPrototype _ _ _ _ _ = _ |- _ =>
      apply addPrototype_Ok in H as (_ & _ & _ & _ & ->) end.
    unfold total_nodes in *. simpl in *.
    rewrite sum_list_with_app. simpl. intros Hsmall.
    rewrite Hn by lia. rewrite wrap_int_small; lia.
  - destruct IHHb as [Hwf Hn].
    split; [by eapply finalize_well_formed |].
    match goal with H : finalize _ = _ |- _ =>
      apply finalize_Ok in H as (_ & ->) end.
    done.
  - done.
  - done.
  - tauto.
Qed.

Lemma built_invariants_witness :
  well_formed
    (Composite
       (Build_CompositePrototype
          [Build_ChildData nandPrototype ["in"; "in"] ["not"] ""]
          Init ["in"] ["not"] 2 "not")) /\
  ((Z.of_nat
      (total_nodes
         (Build_CompositePrototype
            [Build_ChildData nandPrototype ["in"; "in"] ["not"] ""]
            Init ["in"] ["not"] 2 "not")) < 2 ^ 31)%Z ->
   num_nodes
     (Build_CompositePrototype
        [Build_ChildData nandPrototype ["in"; "in"] ["not"] ""]
        Init ["in"] ["not"] 2 "not")
   = Z.of_nat
       (total_nodes
          (Build_CompositePrototype
             [Build_ChildData nandPrototype ["in"; "in"] ["not"] ""]
             Init ["in"] ["not"] 2 "not"))).
Proof.
  exact (built_invariants _
           (built_add (CompositePrototype_new "not" ["in"] ["not"])
              nandPrototype ["in"; "in"] ["not"] "" _
              (built_new "not" ["in"] ["not"]) (built_gate TNand) eq_refl)).
Defined.

(** X17.  [finalize] is the gate between building and use.  A composite
    that has not been finalized cannot be placed in another; once finalized
    it can be placed, it has the placements it had, and it can no longer
    change: every [addPrototype] on it and a second [finalize] fail their
    assertion, whatever the arguments. *)
Theorem finalize_locks p p' :
  finalize p = Ok p' ->
  commands p' = commands p /\
  is_finalized (Composite p') /\
  (forall q ins outs childName,
     addPrototype q (Composite p) ins outs childName = Err AssertionFailed) /\
  (forall cmd ins outs childName,
     addPrototype p' cmd ins outs childName = Err AssertionFailed) /\
  finalize p' = Err AssertionFailed.
Proof.
  intros H. apply finalize_Ok in H as [Hst ->]. split_and!; try done.
  - intros q ins outs childName. unfold addPrototype. simpl. by rewrite Hst.
  - intros cmd ins outs childName. unfold addPrototype.
    destruct (is_finalized cmd); simpl; [| done].
    destruct (bool_decide (IPrototype_getNumInputs cmd = length ins));
      simpl; [| done].
    by destruct (bool_decide (IPrototype_getNumOutputs cmd = length outs)).
Qed.

Lemma finalize_locks_witness :
  finalize
    (Build_CompositePrototype [] Finalized ["in"] ["out"] 1 "empty")
  = Err AssertionFailed.
Proof.
  exact (proj2 (proj2 (proj2 (proj2
    (finalize_locks (CompositePrototype_new "empty" ["in"] ["out"]) _
       eq_refl))))).
Defined.

(** ** The circuits of [main] *)

Lemma drive_steps_below fuel fuel' steps c k heimdall :
  fuel <= fuel' ->
  below (drive_steps fuel steps c k heimdall)
        (drive_steps fuel' steps c k heimdall).
Proof.
  intros Hle. revert heimdall.
  induction steps as [| vals steps IH]; intros heimdall; simpl.
  - apply below_refl.
  - apply below_bind; [by apply tick_below | intros s].
    apply below_bind; [by apply readOutputs_below | intros row].
    apply below_bind; [apply IH | intros; apply below_refl].
Qed.

Lemma outputs_on_below fuel fuel' proto vals :
  fuel <= fuel' ->
  below (outputs_on fuel proto vals) (outputs_on fuel' proto vals).
Proof.
  intros Hle. unfold outputs_on.
  apply below_bind; [apply below_refl | intros; by apply readOutputs_below].
Qed.

Lemma drive_below fuel fuel' proto n steps :
  fuel <= fuel' ->
  below (drive fuel proto n steps) (drive fuel' proto n steps).
Proof.
  intros Hle. unfold drive.
  apply below_bind; [apply below_refl | intros; by apply drive_steps_below].
Qed.

(** X18.  The inverter, AND, OR and XOR composites that [main] builds out of
    NAND gates compute negation, conjunction, disjunction and exclusive or
    of the levels of the [Input] gates they are linked to, for all input
    levels. *)
Theorem main_logic_gates fuel a b :
  outputs_on (4 + fuel) notPrototype [a] = Ok [negb a] /\
  outputs_on (4 + fuel) andPrototype [a; b] = Ok [a && b] /\
  outputs_on (4 + fuel) orPrototype [a; b] = Ok [a || b] /\
  outputs_on (4 + fuel) xorPrototype [a; b] = Ok [xorb a b].
Proof.
  split_and!;
    (eapply below_Ok; [apply (outputs_on_below 4); lia |]);
    destruct a, b; by vm_compute.
Qed.

(** X19.  The SR flip-flop of [main] does what its comment says: after each
    tick its value is [(set || data) && !reset] of the input levels at that
    tick, whatever it held before. *)
Theorem main_srFlipFlop fuel d1 s1 r1 d2 s2 r2 :
  drive (4 + fuel) srFlipFlopPrototype 3 [[d1; s1; r1]; [d2; s2; r2]]
  = Ok [[(s1 || d1) && negb r1]; [(s2 || d2) && negb r2]].
Proof.
  eapply below_Ok; [apply (drive_below 4); lia |].
  destruct d1, s1, r1, d2, s2, r2; by vm_compute.
Qed.

(** X20.  The D flip-flop of [main] does what its comment says: after each
    tick its value is [(data nand enable) nand ((not data nand enable) nand
    value)] of the input levels at that tick and the value it held, that is,
    [data] when [enable] is high and the value held otherwise. *)
Theorem main_dFlipFlop fuel d1 e1 d2 e2 :
  drive (4 + fuel) dFlipFlopPrototype 2 [[d1; e1]; [d2; e2]]
  = Ok [[dFlipFlop_next d1 e1 false];
        [dFlipFlop_next d2 e2 (dFlipFlop_next d1 e1 false)]] /\
  forall d e v, dFlipFlop_next d e v = if e then d else v.
Proof.
  split.
  - eapply below_Ok; [apply (drive_below 4); lia |].
    destruct d1, e1, d2, e2; by vm_compute.
  - by intros [] [] [].
Qed.

(** ** Outputs and probes *)

(** X21.  The handles that a fresh circuit exposes are gates of its own:
    whatever [getOutput] returns on a circuit that [instantiate] has just
    made is one of the gates allocated for that circuit (never null, never a
    gate that was in the keeper before). *)
Theorem outputs_are_own_gates p builder heimdall c heimdall' i g :
  instantiate p builder heimdall = Ok (c, heimdall') ->
  getOutput c i = Ok g ->
  g ∈ gates_of c.
Proof.
  revert builder heimdall c heimdall' i g.
  induction p as [T | name | parent IH] using IPrototype_nested_ind;
    intros builder heimdall c heimdall' i g Hinst Hout.
  - injection Hinst as <- <-. simpl in Hout.
    apply bindR_Ok in Hout as (? & _ & [= <-]). set_solver.
  - injection Hinst as <- <-. simpl in Hout.
    apply bindR_Ok in Hout as (? & _ & [= <-]). set_solver.
  - destruct (instantiate_Composite_spec _ _ _ _ _ Hinst)
      as (ev & cs & -> & _ & Hnew & Honly & _).
    destruct parent as [cmds s ins outs n t]. simpl in *.
    apply Circuit_new_from_children in Hinst as (ev' & new & Heq & Hall).
    simpl in Heq. injection Heq as Hev Hcs. subst ev' new.
    apply bindR_Ok in Hout as (? & _ & Hout).
    destruct (outs !! Z.to_nat i) as [o |]; [| done].
    apply bindR_Ok in Hout as (? & Hbound%assert_Ok%bool_decide_eq_true & [= <-]).
    destruct Hbound as [g Hg].
    rewrite (umap_index_found _ _ _ Hg).
    destruct (Honly _ _ Hg) as (k & j & Hreg).
    destruct (Hnew _ _ _ Hreg) as (child & g' & Hchild & Hg' & Hev).
    simplify_eq. destruct Hreg as (cmd & Hk & _).
    destruct (Forall2_lookup_lr _ _ _ _ _ _ Hall Hk Hchild)
      as (b0 & h0 & h1 & Hinst).
    rewrite Forall_lookup in IH.
    apply list_elem_of_In, in_flat_map. exists child.
    split; [by eapply list_elem_of_In, list_elem_of_lookup_2 |].
    apply list_elem_of_In. by eapply IH.
Qed.

Lemma outputs_are_own_gates_witness :
  ptr 1 ∈ gates_of (GateCircuit (ptr 1)).
Proof.
  exact (outputs_are_own_gates nandPrototype emptyName [("low", LowOutput)]
           _ _ 0%Z (ptr 1) eq_refl eq_refl).
Defined.

Lemma tick1_lines fuel heimdall l rs :
  mapR (fun e => tick1 fuel heimdall e.2) l = Ok rs ->
  Forall2 (fun (e : string * IGate) line =>
             exists a t label v,
               e.2 = TickOutputOnly a t label /\
               getValue fuel heimdall a = Ok v /\
               line = {| probe := c_str label; tickno := wrap_int (t + 1);
                         level := v |})
    (List.filter (fun e => is_probe e.2) l) (concat (rs.*2)).
Proof.
  revert rs. induction l as [| [name g] l IH]; intros rs; simpl.
  - intros [= <-]. constructor.
  - intros H. apply bindR_Ok in H as (r & Hr & H).
    apply bindR_Ok in H as (rs' & Hrs' & [= <-]). simpl.
    apply IH in Hrs'.
    destruct g; simpl in *; simplify_eq/=; try done.
    + apply bindR_Ok in Hr as (v & _ & [= <-]). done.
    + apply bindR_Ok in Hr as (v & Hv & [= <-]). simpl.
      constructor; [| done]. by eauto 10.
Qed.

(** X22.  A probe reports exactly once per tick and reads before any
    commit.  The lines printed by a tick that returns are one per probe of
    the keeper, in keeper order, and no other; the line of a probe carries
    the text [operator<<] prints for [name.c_str()] (the label up to its
    first NUL), the counter incremented by one and the level its input had
    before the tick.  Afterwards each probe holds the incremented counter
    and is otherwise as it was, its whole label included. *)
Theorem probe_reports_level_before_tick fuel heimdall heimdall' out :
  tick fuel heimdall = Ok (heimdall', out) ->
  Forall2 (fun (e : string * IGate) line =>
             exists a t label v,
               e.2 = TickOutputOnly a t label /\
               getValue fuel heimdall a = Ok v /\
               line = {| probe := c_str label; tickno := wrap_int (t + 1);
                         level := v |})
    (List.filter (fun e => is_probe e.2) heimdall) out /\
  forall i name a t label,
    heimdall !! i = Some (name, TickOutputOnly a t label) ->
    heimdall' !! i = Some (name, TickOutputOnly a (wrap_int (t + 1)) label).
Proof.
  intros Htick. rewrite tick_eq_parallel in Htick.
  unfold tick_parallel in Htick.
  apply bindR_Ok in Htick as (rs & Hrs & [= <- <-]). split.
  - by apply tick1_lines.
  - intros i name a t label Hi.
    destruct (mapR_lookup _ _ _ Hrs _ _ Hi) as (r & Hr & Hri). simpl in Hri.
    apply bindR_Ok in Hri as (v & Hv & [= <-]).
    by rewrite lookup_zip_with, Hi, Hr.
Qed.

Lemma probe_reports_level_before_tick_witness :
  Forall2 (fun (e : string * IGate) line =>
             exists a t label v,
               e.2 = TickOutputOnly a t label /\
               getValue 1
                 [("r", Register (ptr 0) false false);
                  ("p", TickOutputOnly (ptr 0) 6 "clk");
                  ("q", TickOutputOnly (ptr 0) 0
                          ("a" +:+ String Ascii.zero "b"))] a = Ok v /\
               line = {| probe := c_str label; tickno := wrap_int (t + 1);
                         level := v |})
    (List.filter (fun e => is_probe e.2)
       [("r", Register (ptr 0) false false);
        ("p", TickOutputOnly (ptr 0) 6 "clk");
        ("q", TickOutputOnly (ptr 0) 0 ("a" +:+ String Ascii.zero "b"))])
    [{| probe := "clk"; tickno := 7; level := false |};
     {| probe := "a"; tickno := 1; level := false |}] /\
  forall i name a t label,
    [("r", Register (ptr 0) false false);
     ("p", TickOutputOnly (ptr 0) 6 "clk");
     ("q", TickOutputOnly (ptr 0) 0 ("a" +:+ String Ascii.zero "b"))] !! i
    = Some (name, TickOutputOnly a t label) ->
    [("r", Register (ptr 0) false false);
     ("p", TickOutputOnly (ptr 0) 7 "clk");
     ("q", TickOutputOnly (ptr 0) 1 ("a" +:+ String Ascii.zero "b"))] !! i
    = Some (name, TickOutputOnly a (wrap_int (t + 1)) label).
Proof.
  exact (probe_reports_level_before_tick 1
           [("r", Register (ptr 0) false false);
            ("p", TickOutputOnly (ptr 0) 6 "clk");
            ("q", TickOutputOnly (ptr 0) 0
                    ("a" +:+ String Ascii.zero "b"))]
           _ _ eq_refl).
Defined.
